(** * se3_cnn: kernel combination and gated activation

    A shallow embedding of [se3_cnn/convolution.py] (the class
    [SE3KernelCombination] with its basis generation, [forward] and
    [backward], the module [SE3Convolution] that owns one, and
    [test_normalization]) and of
    [se3_cnn/non_linearities/gated_activation.py] (the class
    [GatedActivation]), with the properties of the specification
    stated over it, and further properties of the code.

    Conventions of the embedding
    - A dense 5-d tensor is its shape together with an accessor from the
      five indices to the stored scalar.  Slices, views and in-place
      writes act on the accessor exactly where the source indexes.
    - Scalars are kept abstract behind the class [Scalar]: the operations
      the source applies to floating-point numbers, with no algebraic law
      assumed.  The integer instance [Z_scalar] is used to run the code on
      concrete inputs whose entries are small integers, where every
      operation met is exact in floating point as well.
    - Python exceptions are the errors of the monad [res].
    - Multiplicities and sizes are counts and are natural numbers. *)

From Stdlib Require Import ZArith Lia Bool.
From stdpp Require Import base decidable option numbers list.

Local Open Scope nat_scope.

(** ** Exceptions *)

Inductive exn : Type :=
| AssertionError
| IndexError
| RuntimeError
| UnboundLocalError.

Inductive res (A : Type) : Type :=
| Ok (a : A)
| Err (e : exn).
Arguments Ok {A} a.
Arguments Err {A} e.

Definition bind {A B} (m : res A) (k : A -> res B) : res B :=
  match m with
  | Ok a => k a
  | Err e => Err e
  end.

Declare Scope res_scope.
Delimit Scope res_scope with res.
Notation "x <- m ;; k" := (bind m (fun x => k))
  (at level 20, m at level 99, k at level 200, right associativity) : res_scope.
Notation "' p <- m ;; k" := (bind m (fun x => match x with p => k end))
  (at level 20, p pattern, m at level 99, k at level 200, right associativity) : res_scope.
Local Open Scope res_scope.

(** [assert b] *)
Definition assert (b : bool) : res unit :=
  if b then Ok tt else Err AssertionError.

(** [l[i]] on a Python list or a 1-d tensor: raises out of range. *)
Definition index {A} (l : list A) (i : nat) : res A :=
  match l !! i with
  | Some a => Ok a
  | None => Err IndexError
  end.

(** [for t in range(n): s = body t s], stopping at the first exception. *)
Fixpoint for_each {S} (ts : list nat) (s : S) (body : nat -> S -> res S) : res S :=
  match ts with
  | [] => Ok s
  | t :: ts' => s' <- body t s ;; for_each ts' s' body
  end.

Definition for_range {S} (n : nat) (s : S) (body : nat -> S -> res S) : res S :=
  for_each (seq 0 n) s body.

(** [[f t for t in range(n)]] *)
Fixpoint comprehension {A} (ts : list nat) (f : nat -> res A) : res (list A) :=
  match ts with
  | [] => Ok []
  | t :: ts' => a <- f t ;; l <- comprehension ts' f ;; Ok (a :: l)
  end.

(** [[f x for x in l]] over the items of a list *)
Fixpoint for_items {A B} (l : list A) (f : A -> res B) : res (list B) :=
  match l with
  | [] => Ok []
  | x :: l' => b <- f x ;; bs <- for_items l' f ;; Ok (b :: bs)
  end.

(** ** Scalars *)

Class Scalar (F : Type) : Type := {
  f0 : F;
  fadd : F -> F -> F;
  fmul : F -> F -> F;
  fdiv : F -> F -> F;
  fsqrt : F -> F;
  (** an integer used as a number, as in [np.sqrt(m_in)] *)
  of_nat : nat -> F;
  (** the conversion of [torch.FloatTensor(ndarray)] to single precision *)
  single : F -> F
}.

(** the laws of exact arithmetic, for the properties that need them *)
Class ScalarLaws (F : Type) {SF : Scalar F} : Prop := {
  fadd_comm : forall x y : F, fadd x y = fadd y x;
  fadd_assoc : forall x y z : F, fadd x (fadd y z) = fadd (fadd x y) z;
  fadd_0_l : forall x : F, fadd f0 x = x;
  fmul_comm : forall x y : F, fmul x y = fmul y x;
  fmul_assoc : forall x y z : F, fmul x (fmul y z) = fmul (fmul x y) z;
  fmul_0_l : forall x : F, fmul f0 x = f0;
  fmul_add_l : forall x y z : F, fmul (fadd x y) z = fadd (fmul x z) (fmul y z)
}.

#[export] Instance Z_scalar : Scalar Z := {
  f0 := 0%Z;
  fadd := Z.add;
  fmul := Z.mul;
  fdiv := Z.div;
  fsqrt := Z.sqrt;
  of_nat := Z.of_nat;
  single := fun z => z
}.

(** ** Tensors *)

Definition shape5 : Type := nat * nat * nat * nat * nat.

Definition accessor (F : Type) : Type := nat -> nat -> nat -> nat -> nat -> F.

(** a tensor of five dimensions: storage read through its indices *)
Record tensor (F : Type) : Type := Tensor {
  shape : shape5;
  entry : accessor F
}.
Arguments Tensor {F} shape entry.
Arguments shape {F} t.
Arguments entry {F} t.

(** a 6-d array [(N, d_out, d_in, x, y, z)]: [N] elements of one shape;
    the element shape is kept apart since it exists even when [N = 0] *)
Record ndarray6 (F : Type) : Type := Ndarray6 {
  eshape : shape5;
  elems : list (accessor F)
}.
Arguments Ndarray6 {F} eshape elems.
Arguments eshape {F} n.
Arguments elems {F} n.

(** a half-open Python slice [start:stop] *)
Definition slice : Type := nat * nat.

Section Tensors.
Context {F : Type} {SF : Scalar F}.

Definition numel (s : shape5) : nat :=
  let '(a, b, x, y, z) := s in a * b * x * y * z.

(** the index tuples of a shape in row-major (contiguous) order *)
Definition indices (s : shape5) : list shape5 :=
  let '(na, nb, nx, ny, nz) := s in
  a ← seq 0 na; b ← seq 0 nb; x ← seq 0 nx; y ← seq 0 ny; z ← seq 0 nz;
  [(a, b, x, y, z)].

Definition read (f : accessor F) (i : shape5) : F :=
  let '(a, b, x, y, z) := i in f a b x y z.

(** [t.view(-1)] of a contiguous tensor *)
Definition flatten (t : tensor F) : list F :=
  read (entry t) <$> indices (shape t).

(** sum of a vector, accumulated from zero *)
Definition fsum (l : list F) : F := fold_left fadd l f0.

(** [torch.matmul] of two 1-d tensors: sizes must agree *)
Definition matmul (u v : list F) : res F :=
  if length u =? length v then Ok (fsum (zip_with fmul u v))
  else Err RuntimeError.

(** elementwise operations *)
Definition amap (g : F -> F) (f : accessor F) : accessor F :=
  fun a b x y z => g (f a b x y z).

Definition tmap (g : F -> F) (t : tensor F) : tensor F :=
  Tensor (shape t) (amap g (entry t)).

(** [t * w] for a scalar [w] *)
Definition tscale (t : tensor F) (w : F) : tensor F :=
  tmap (fun v => fmul v w) t.

(** length of a slice of a dimension of size [n]: bounds are clipped *)
Definition slice_len (n : nat) (s : slice) : nat :=
  (snd s `min` n) - (fst s `min` n).

Definition in_slice (s : slice) (i : nat) : bool :=
  (fst s <=? i) && (i <? snd s).

(** [t[si, sj]]: a view of the rows [si] and columns [sj] *)
Definition getslice (t : tensor F) (si sj : slice) : tensor F :=
  let '(n0, n1, nx, ny, nz) := shape t in
  Tensor (slice_len n0 si, slice_len n1 sj, nx, ny, nz)
         (fun a b x y z => entry t (fst si + a) (fst sj + b) x y z).

(** [t[si, sj] = v]: the value must have the shape of the slice
    (torch would also accept a value that broadcasts to it; the basis
    tensors written here have the full shape) *)
Definition setslice (t : tensor F) (si sj : slice) (v : tensor F) : res (tensor F) :=
  if bool_decide (shape (getslice t si sj) = shape v) then
    Ok (Tensor (shape t)
          (fun a b x y z =>
             if in_slice si a && in_slice sj b
             then entry v (a - fst si) (b - fst sj) x y z
             else entry t a b x y z))
  else Err RuntimeError.

(** [a[k]] for [a] a 6-d array *)
Definition element (a : ndarray6 F) (k : nat) : res (tensor F) :=
  f <- index (elems a) k ;; Ok (Tensor (eshape a) f).

End Tensors.

(** ** Collaborators of [convolution.py] that live in other modules *)

(** [SO3]: the representations and [SO3.dim] *)
Class SO3 : Type := {
  repr : Type;
  dim : repr -> nat;
  (** [SO3.repr1], [SO3.repr3], ... [SO3.repr15] *)
  repr1 : repr; repr3 : repr; repr5 : repr; repr7 : repr;
  repr9 : repr; repr11 : repr; repr13 : repr; repr15 : repr
}.

(** [basis_kernels]: the sampled basis, an array of shape
  [(N, dim R_out, dim R_in, size, size, size)], and the matrices of
  shape [(dim R_out, dim R_in)] that satisfy the constraint at a point *)
Class BasisKernels (F : Type) `{SO3} : Type := {
  cube_basis_kernels_subsampled_cosine : nat -> repr -> repr -> nat -> ndarray6 F;
  basis_kernels_satisfying_SO3_constraint : repr -> repr -> list (nat -> nat -> F);
  (** the contract on the shape of the sampled basis *)
  cube_basis_shape : forall size R_out R_in M,
    eshape (cube_basis_kernels_subsampled_cosine size R_out R_in M)
    = (dim R_out, dim R_in, size, size, size)
}.

#[export] Instance ndarray6_inhabited {F} : Inhabited (ndarray6 F) :=
  populate (Ndarray6 (0, 0, 0, 0, 0) []).

Module SE3KernelCombination.
Section Combination.
Context {F : Type} {SF : Scalar F} {so3 : SO3} {BK : BasisKernels F}.

(** the attributes of the object *)
Record t : Type := Build {
  size : nat;
  multiplicites_out : list nat;
  multiplicites_in : list nat;
  dims_out : list nat;
  dims_in : list nat;
  kernels : list (list (ndarray6 F));
  nweights : nat
}.

(** *** Array primitives used by [generate_basis] *)

(** [np.zeros((n,) + s)] *)
Definition zeros (n : nat) (s : shape5) : ndarray6 F :=
  Ndarray6 s (replicate n (fun _ _ _ _ _ => f0)).

(** [center[k, :, :, c, c, c] = K] *)
Definition set_voxel (K : nat -> nat -> F) (c : nat) (f : accessor F) : accessor F :=
  fun a b x y z =>
    if (x =? c) && (y =? c) && (z =? c) then K a b else f a b x y z.

Definition assign_voxel (center : ndarray6 F) (k c : nat) (K : nat -> nat -> F)
  : res (ndarray6 F) :=
  let '(_, _, nx, ny, nz) := eshape center in
  if (k <? length (elems center)) && (c <? nx) && (c <? ny) && (c <? nz)
  then Ok (Ndarray6 (eshape center) (alter (set_voxel K c) k (elems center)))
  else Err IndexError.

(** [np.concatenate((a, b))] along the first axis *)
Definition concatenate (a b : ndarray6 F) : res (ndarray6 F) :=
  if bool_decide (eshape a = eshape b)
  then Ok (Ndarray6 (eshape a) (elems a ++ elems b))
  else Err RuntimeError.

(** [np.linalg.norm(e)]: the 2-norm of the flattened array *)
Definition norm (e : tensor F) : F :=
  fsqrt (fsum ((fun v => fmul v v) <$> flatten e)).

(** [a[k] op= v]: an elementwise in-place update of one element *)
Definition inplace (g : F -> F) (a : ndarray6 F) (k : nat) : res (ndarray6 F) :=
  if k <? length (elems a)
  then Ok (Ndarray6 (eshape a) (alter (amap g) k (elems a)))
  else Err IndexError.

(** the body of the normalisation loop *)
Definition normalize_step (R_out : repr) (m_in : nat) (k : nat) (basis : ndarray6 F)
  : res (ndarray6 F) :=
  e <- element basis k ;;
  basis <- inplace (fun v => fdiv v (norm e)) basis k ;;
  basis <- inplace
    (fun v => fmul v (fsqrt (fdiv (of_nat (dim R_out)) (of_nat (length (elems basis))))))
    basis k ;;
  inplace (fun v => fdiv v (fsqrt (of_nat m_in))) basis k.

(** the part of [generate_basis] before the normalisation *)
Definition candidates (size M : nat) (central_base : bool) (R_out R_in : repr)
  : res (ndarray6 F) :=
  let basis := cube_basis_kernels_subsampled_cosine size R_out R_in M in
  if central_base && (size mod 2 =? 1) then
    let Ks := basis_kernels_satisfying_SO3_constraint R_out R_in in
    let center := zeros (length Ks) (eshape basis) in
    center <- for_range (length Ks) center (fun k center =>
      K <- index Ks k ;;
      assign_voxel center k (size / 2) K) ;;
    concatenate center basis
  else Ok basis.

Definition generate_basis (size M : nat) (central_base : bool)
    (R_out R_in : repr) (m_out m_in : nat) : res (ndarray6 F) :=
  basis <- candidates size M central_base R_out R_in ;;
  for_range (length (elems basis)) basis (normalize_step R_out m_in).

(** [torch.FloatTensor(a)] for an array [a] *)
Definition FloatTensor_of (a : ndarray6 F) : ndarray6 F :=
  Ndarray6 (eshape a) (amap single <$> elems a).

(** the accumulation of [nweights] *)
Definition count_weights (n_blocks_out n_blocks_in : nat)
    (multiplicites_out multiplicites_in : list nat)
    (kernels : list (list (ndarray6 F))) : res nat :=
  for_range n_blocks_out 0 (fun i nweights =>
    for_range n_blocks_in nweights (fun j nweights =>
      m_out <- index multiplicites_out i ;;
      m_in <- index multiplicites_in j ;;
      row <- index kernels i ;;
      K <- index row j ;;
      Ok (nweights + m_out * m_in * length (elems K)))).

(** [SE3KernelCombination.__init__] *)
Definition init (size : nat) (Rs_out Rs_in : list (nat * repr))
    (M : nat) (central_base : bool) : res t :=
  let Rs_out := filter (fun mR => 1 <= fst mR) Rs_out in
  let Rs_in := filter (fun mR => 1 <= fst mR) Rs_in in
  let multiplicites_out := fst <$> Rs_out in
  let multiplicites_in := fst <$> Rs_in in
  let dims_out := (fun mR => dim (snd mR)) <$> Rs_out in
  let dims_in := (fun mR => dim (snd mR)) <$> Rs_in in
  kernels <- for_items Rs_out (fun '(m_out, R_out) =>
    for_items Rs_in (fun '(m_in, R_in) =>
      basis <- generate_basis size M central_base R_out R_in m_out m_in ;;
      Ok (FloatTensor_of basis))) ;;
  nweights <- count_weights (length Rs_out) (length Rs_in)
                multiplicites_out multiplicites_in kernels ;;
  Ok (Build size multiplicites_out multiplicites_in dims_out dims_in kernels nweights).

(** *** The loop nest shared by [forward] and [backward]

    Both methods run the same five loops over [(i, j, ii, jj, k)],
    threading [weight_index], [begin_i] and [begin_j]; they differ
    only in the innermost statement, [body] here, which acts on the
    tensor being filled. *)
Section Nest.
Context {S : Type} (self : t).
Variable body : nat -> nat -> slice -> slice -> nat -> nat -> S -> res S.

Definition loop_k (i j : nat) (si sj : slice) (st : S * nat) : res (S * nat) :=
  row <- index (kernels self) i ;;
  K <- index row j ;;
  for_range (length (elems K)) st (fun k '(s, weight_index) =>
    s <- body i j si sj k weight_index s ;;
    Ok (s, weight_index + 1)).

Definition loop_jj (i j : nat) (si : slice) (begin_j : nat) (st : S * nat)
  : res (S * nat) :=
  m_in <- index (multiplicites_in self) j ;;
  for_range m_in st (fun jj st =>
    d_in <- index (dims_in self) j ;;
    let sj := (begin_j + jj * d_in, begin_j + (jj + 1) * d_in) in
    loop_k i j si sj st).

Definition loop_ii (i j : nat) (begin_i begin_j : nat) (st : S * nat)
  : res (S * nat) :=
  m_out <- index (multiplicites_out self) i ;;
  for_range m_out st (fun ii st =>
    d_out <- index (dims_out self) i ;;
    let si := (begin_i + ii * d_out, begin_i + (ii + 1) * d_out) in
    loop_jj i j si begin_j st).

Definition loop_j (i : nat) (begin_i : nat) (st : S * nat) : res (S * nat) :=
  '(st, _) <- for_range (length (multiplicites_in self)) (st, 0)
    (fun j '(st, begin_j) =>
       st <- loop_ii i j begin_i begin_j st ;;
       m_in <- index (multiplicites_in self) j ;;
       d_in <- index (dims_in self) j ;;
       Ok (st, begin_j + m_in * d_in)) ;;
  Ok st.

Definition loop_i (s : S) : res S :=
  '(s, _, _) <- for_range (length (multiplicites_out self)) (s, 0, 0)
    (fun i '(st, begin_i) =>
       st <- loop_j i begin_i st ;;
       m_out <- index (multiplicites_out self) i ;;
       d_out <- index (dims_out self) i ;;
       Ok (st, begin_i + m_out * d_out)) ;;
  Ok s.
End Nest.

(** [torch.FloatTensor(n0, n1, ...)]: fresh storage, not initialised;
    [mem] is whatever the allocator hands out *)
Definition FloatTensor (mem : accessor F) (s : shape5) : tensor F := Tensor s mem.

(** [torch.FloatTensor(n)]: a fresh vector, not initialised *)
Definition FloatVector (mem : nat -> F) (n : nat) : list F := mem <$> seq 0 n.

(** [sum([ms[i] * ds[i] for i in range(len(ms))])] *)
Definition channels (ms ds : list nat) : res nat :=
  l <- comprehension (seq 0 (length ms))
         (fun i => m <- index ms i ;; d <- index ds i ;; Ok (m * d)) ;;
  Ok (sum_list l).

(** [SE3KernelCombination.forward]; a weight is a 1-d tensor, so that
    the first assertion holds by typing *)
Definition forward (self : t) (mem : accessor F) (weight : list F) : res (tensor F) :=
  _ <- assert (length weight =? nweights self) ;;
  n_out <- channels (multiplicites_out self) (dims_out self) ;;
  n_in <- channels (multiplicites_in self) (dims_in self) ;;
  let kernel := FloatTensor mem (n_out, n_in, size self, size self, size self) in
  loop_i self
    (fun i j si sj k weight_index kernel =>
       row <- index (kernels self) i ;;
       K <- index row j ;;
       B <- element K k ;;
       w <- index weight weight_index ;;
       setslice kernel si sj (tscale B w))
    kernel.

(** [v[i] = x] on a 1-d tensor *)
Definition setitem (v : list F) (i : nat) (x : F) : res (list F) :=
  if i <? length v then Ok (<[i := x]> v) else Err IndexError.

(** [SE3KernelCombination.backward] *)
Definition backward (self : t) (mem : nat -> F) (grad_kernel : tensor F)
  : res (list F) :=
  let grad_weight := FloatVector mem (nweights self) in
  loop_i self
    (fun i j si sj k weight_index grad_weight =>
       row <- index (kernels self) i ;;
       K <- index row j ;;
       B <- element K k ;;
       x <- matmul (flatten B) (flatten (getslice grad_kernel si sj)) ;;
       setitem grad_weight weight_index x)
    grad_weight.

End Combination.
End SE3KernelCombination.


(** ** Collaborators of [gated_activation.py] that live in other modules *)

(** a tensor of six dimensions, as made by [view] on a 5-d tensor *)
Definition shape6 : Type := nat * nat * nat * nat * nat * nat.

Record tensor6 (F : Type) : Type := Tensor6 {
  shape_6 : shape6;
  entry_6 : nat -> nat -> nat -> nat -> nat -> nat -> F
}.
Arguments Tensor6 {F} shape_6 entry_6.
Arguments shape_6 {F} t.
Arguments entry_6 {F} t.

(** the keyword arguments of the convolution that computes the gates *)
Record conv_args `{SO3} (W : Type) : Type := ConvArgs {
  Rs_in : list (nat * repr);
  Rs_out : list (nat * repr);
  conv_size : nat;
  radial_window_dict : W;
  padding : nat
}.
Arguments ConvArgs {_ W} Rs_in Rs_out conv_size radial_window_dict padding.

(** the three convolution classes imported from [se3_cnn]; an instance
    of a class is used through its [forward] only *)
Class Convolutions (F : Type) `{SO3} : Type := {
  window : Type;
  SE3Convolution : conv_args window -> tensor F -> res (tensor F);
  (** [momentum] keyword *)
  SE3BNConvolution : F -> conv_args window -> tensor F -> res (tensor F);
  (** optional [Rs_gn] keyword *)
  SE3GNConvolution : option (list (nat * nat)) -> conv_args window ->
                     tensor F -> res (tensor F)
}.

Section ScalarActivation.
Context {F : Type}.

(** the activation of the group that holds channel [c], if any *)
Fixpoint group_activation (groups : list (nat * option (F -> F))) (c : nat)
  : option (F -> F) :=
  match groups with
  | [] => None
  | (n, act) :: groups' =>
      if c <? n then act else group_activation groups' (c - n)
  end.

(** Modelled from the spec: [ScalarActivation] of
    [se3_cnn.non_linearities] is not among the source files.  It
    "accepts a list of (channel_count, activation_function_or_none)
    groups" and is "applied elementwise per group". *)
Definition ScalarActivation (groups : list (nat * option (F -> F))) (x : tensor F)
  : tensor F :=
  Tensor (shape x)
    (fun b c i j k =>
       match group_activation groups c with
       | Some act => act (entry x b c i j k)
       | None => entry x b c i j k
       end).

End ScalarActivation.

Module GatedActivation.
Section Gated.
Context {F : Type} {SF : Scalar F} {so3 : SO3} {CV : Convolutions F}.

(** the [activation] argument: a tuple of two optional functions, or
    one optional function used for both *)
Inductive activation_arg : Type :=
| Pair (scalar_activation gate_activation : option (F -> F))
| Single (activation : option (F -> F)).

(** the [normalization] argument *)
Inductive normalization_arg : Type :=
| NormNone
| NormBatch
| NormGroup
| NormInstance
| NormOther.

(** the attributes of the object; a sub-module is its [forward] *)
Record t : Type := Build {
  repr_in : list nat;
  scalar_act : option (tensor F -> tensor F);
  gates : option (tensor F -> res (tensor F))
}.

(** [[(1, 2 * n + 1) for n, mul in enumerate(repr_in) for _ in range(mul)]] *)
Definition Rs_gn_of (repr_in : list nat) : list (nat * nat) :=
  '(n, mul) ← imap pair repr_in; replicate mul (1, 2 * n + 1).

(** [GatedActivation.__init__] *)
Definition init (repr_in : list nat) (size : nat) (radial_window_dict : window)
    (activation : activation_arg) (normalization : normalization_arg)
    (batch_norm_momentum : F) : res t :=
  let '(scalar_activation, gate_activation) :=
    match activation with
    | Pair s g => (s, g)
    | Single a => (a, a)
    end in
  let irreducible_repr :=
    [repr1; repr3; repr5; repr7; repr9; repr11; repr13; repr15] in
  let n_non_scalar := sum_list (drop 1 repr_in) in
  scalar_act <-
    match scalar_activation with
    | Some act =>
        m0 <- index repr_in 0 ;;
        if 0 <? m0 then Ok (Some (ScalarActivation [(m0, Some act)])) else Ok None
    | None => Ok None
    end ;;
  gates <-
    match gate_activation with
    | Some act =>
        if 0 <? n_non_scalar then
          _ <- assert (size mod 2 =? 1) ;;
          Convolution <-
            match normalization with
            | NormNone => Ok SE3Convolution
            | NormBatch => Ok (SE3BNConvolution batch_norm_momentum)
            | NormGroup => Ok (SE3GNConvolution None)
            | NormInstance => Ok (SE3GNConvolution (Some (Rs_gn_of repr_in)))
            | NormOther => Err UnboundLocalError
            end ;;
          let conv :=
            Convolution
              (ConvArgs (zip repr_in irreducible_repr) [(n_non_scalar, repr1)]
                 size radial_window_dict (size / 2)) in
          Ok (Some (fun x =>
                      y <- conv x ;;
                      Ok (ScalarActivation [(n_non_scalar, Some act)] y)))
        else Ok None
    | None => Ok None
    end ;;
  Ok (Build repr_in scalar_act gates).

(** *** Tensor primitives used by [forward] *)

(** [t[:, a:b]] *)
Definition channel_slice (t : tensor F) (s : slice) : tensor F :=
  let '(nb, nc, nx, ny, nz) := shape t in
  Tensor (nb, slice_len nc s, nx, ny, nz)
         (fun b c x y z => entry t b (fst s + c) x y z).

(** position of an index tuple in contiguous storage *)
Definition ravel5 (s : shape5) (i : shape5) : nat :=
  let '(_, s1, s2, s3, s4) := s in
  let '(i0, i1, i2, i3, i4) := i in
  (((i0 * s1 + i1) * s2 + i2) * s3 + i3) * s4 + i4.

Definition ravel6 (s : shape6) (i : shape6) : nat :=
  let '(_, s1, s2, s3, s4, s5) := s in
  let '(i0, i1, i2, i3, i4, i5) := i in
  ((((i0 * s1 + i1) * s2 + i2) * s3 + i3) * s4 + i4) * s5 + i5.

(** the index tuple at a position: the last index varies fastest *)
Definition unravel5 (s : shape5) (n : nat) : shape5 :=
  let '(_, s1, s2, s3, s4) := s in
  let i4 := n mod s4 in let n := n / s4 in
  let i3 := n mod s3 in let n := n / s3 in
  let i2 := n mod s2 in let n := n / s2 in
  let i1 := n mod s1 in let n := n / s1 in
  (n, i1, i2, i3, i4).

Definition unravel6 (s : shape6) (n : nat) : shape6 :=
  let '(_, s1, s2, s3, s4, s5) := s in
  let i5 := n mod s5 in let n := n / s5 in
  let i4 := n mod s4 in let n := n / s4 in
  let i3 := n mod s3 in let n := n / s3 in
  let i2 := n mod s2 in let n := n / s2 in
  let i1 := n mod s1 in let n := n / s1 in
  (n, i1, i2, i3, i4, i5).

Definition numel6 (s : shape6) : nat :=
  let '(a, b, c, x, y, z) := s in a * b * c * x * y * z.

Definition read6 (t : tensor6 F) (i : shape6) : F :=
  let '(a, b, c, x, y, z) := i in entry_6 t a b c x y z.

(** [t.contiguous().view(s)]: the same storage read through another
    shape with as many elements *)
Definition view6 (t : tensor F) (s : shape6) : res (tensor6 F) :=
  if numel (shape t) =? numel6 s
  then Ok (Tensor6 s (fun a b c x y z =>
             read (entry t) (unravel5 (shape t) (ravel6 s (a, b, c, x, y, z)))))
  else Err RuntimeError.

Definition view5 (t : tensor6 F) (s : shape5) : res (tensor F) :=
  if numel6 (shape_6 t) =? numel s
  then Ok (Tensor s (fun a b x y z =>
             read6 t (unravel6 (shape_6 t) (ravel5 s (a, b, x, y, z)))))
  else Err RuntimeError.

(** the size of one dimension of a broadcast product *)
Definition broadcast_dim (m n : nat) : res nat :=
  if m =? n then Ok m
  else if n =? 1 then Ok m
  else if m =? 1 then Ok n
  else Err RuntimeError.

(** [u * v] with broadcasting of the dimensions of size one *)
Definition mul_broadcast (u v : tensor6 F) : res (tensor6 F) :=
  let '(u0, u1, u2, u3, u4, u5) := shape_6 u in
  let '(v0, v1, v2, v3, v4, v5) := shape_6 v in
  n0 <- broadcast_dim u0 v0 ;;
  n1 <- broadcast_dim u1 v1 ;;
  n2 <- broadcast_dim u2 v2 ;;
  n3 <- broadcast_dim u3 v3 ;;
  n4 <- broadcast_dim u4 v4 ;;
  n5 <- broadcast_dim u5 v5 ;;
  let pick (m i : nat) := if m =? 1 then 0 else i in
  Ok (Tensor6 (n0, n1, n2, n3, n4, n5)
        (fun a b c x y z =>
           fmul (entry_6 u (pick u0 a) (pick u1 b) (pick u2 c)
                           (pick u3 x) (pick u4 y) (pick u5 z))
                (entry_6 v (pick v0 a) (pick v1 b) (pick v2 c)
                           (pick v3 x) (pick v4 y) (pick v5 z)))).

(** two tensors side by side along the channels *)
Definition cat2 (u v : tensor F) : res (tensor F) :=
  let '(ub, uc, ux, uy, uz) := shape u in
  let '(vb, vc, vx, vy, vz) := shape v in
  if bool_decide ((ub, ux, uy, uz) = (vb, vx, vy, vz))
  then Ok (Tensor (ub, uc + vc, ux, uy, uz)
             (fun b c x y z =>
                if c <? uc then entry u b c x y z else entry v b (c - uc) x y z))
  else Err RuntimeError.

(** [torch.cat(zs, dim=1)]: an empty list is refused *)
Definition cat (zs : list (tensor F)) : res (tensor F) :=
  match zs with
  | [] => Err RuntimeError
  | z :: zs' => foldl (fun acc v => u <- acc ;; cat2 u v) (Ok z) zs'
  end.

(** [for n, a in enumerate(l): s = body n a s], counting from [n] *)
Fixpoint for_enumerate {A S} (n : nat) (l : list A) (s : S)
    (body : nat -> A -> S -> res S) : res S :=
  match l with
  | [] => Ok s
  | a :: l' => s' <- body n a s ;; for_enumerate (n + 1) l' s' body
  end.

(** the state of the loop of [forward]: [begin_x], [begin_g], [zs] *)
Definition loop_state : Type := nat * nat * list (tensor F).

(** the body of the loop over [enumerate(self.repr_in)] *)
Definition block (self : t) (x : tensor F) (g : option (tensor F))
    (n mul : nat) (st : loop_state) : res loop_state :=
  let '(nbatch, _, nx, ny, nz) := shape x in
  let '(begin_x, begin_g, zs) := st in
  if mul =? 0 then Ok st
  else
    let dim := 2 * n + 1 in
    let field_x := channel_slice x (begin_x, begin_x + mul * dim) in
    let begin_x := begin_x + mul * dim in
    if n =? 0 then
      let field :=
        match scalar_act self with
        | Some act => act field_x
        | None => field_x
        end in
      Ok (begin_x, begin_g, zs ++ [field])
    else
      match g with
      | Some g =>
          field_x <- view6 field_x (nbatch, mul, dim, nx, ny, nz) ;;
          let field_g := channel_slice g (begin_g, begin_g + mul) in
          let begin_g := begin_g + mul in
          field_g <- view6 field_g (nbatch, mul, 1, nx, ny, nz) ;;
          field <- mul_broadcast field_x field_g ;;
          field <- view5 field (nbatch, mul * dim, nx, ny, nz) ;;
          Ok (begin_x, begin_g, zs ++ [field])
      | None => Ok (begin_x, begin_g, zs ++ [field_x])
      end.

(** [GatedActivation.forward] *)
Definition forward (self : t) (x : tensor F) : res (tensor F) :=
  g <- match gates self with
       | Some gates => g <- gates x ;; Ok (Some g)
       | None => Ok None
       end ;;
  '(_, _, zs) <- for_enumerate 0 (repr_in self) (0, 0, []) (block self x g) ;;
  cat zs.

End Gated.
End GatedActivation.

(** * Notions used to state the properties *)

#[export] Instance repr_inhabited `{SO3} : Inhabited repr := populate repr1.

#[export] Instance scalar_inhabited {F} `{Scalar F} : Inhabited F := populate f0.

Section KernelNotions.
Import SE3KernelCombination.
Context {F : Type} {SF : Scalar F} {so3 : SO3} {BK : BasisKernels F}.

(** ** Basis generation *)

(** the candidates supported on the centre voxel, one per matrix [K] *)
Definition central_elements (size : nat) (R_out R_in : repr) : list (accessor F) :=
  (fun K => set_voxel K (size / 2) (fun _ _ _ _ _ => f0))
    <$> basis_kernels_satisfying_SO3_constraint R_out R_in.

Definition sampled_elements (size M : nat) (R_out R_in : repr) : list (accessor F) :=
  elems (cube_basis_kernels_subsampled_cosine size R_out R_in M).

(** the candidates in the order of the array, before normalisation *)
Definition candidate_elements (size M : nat) (central_base : bool)
    (R_out R_in : repr) : list (accessor F) :=
  (if central_base && (size mod 2 =? 1) then central_elements size R_out R_in else [])
  ++ sampled_elements size M R_out R_in.

(** the three in-place updates applied to the element [f] of an array
    of [N] elements of shape [s] *)
Definition normalized (s : shape5) (N : nat) (R_out : repr) (m_in : nat)
    (f : accessor F) : accessor F :=
  amap (fun v => fdiv v (fsqrt (of_nat m_in)))
    (amap (fun v => fmul v (fsqrt (fdiv (of_nat (dim R_out)) (of_nat N))))
       (amap (fun v => fdiv v (norm (Tensor s f))) f)).

(** the basis of a pair of representations, as [generate_basis] returns it *)
Definition basis_of (size M : nat) (central_base : bool) (R_out R_in : repr)
    (m_in : nat) : ndarray6 F :=
  let es := (dim R_out, dim R_in, size, size, size) in
  let raw := candidate_elements size M central_base R_out R_in in
  Ndarray6 es (normalized es (length raw) R_out m_in <$> raw).

(** the entries of a representation list that [__init__] keeps *)
Definition kept (Rs : list (nat * repr)) : list (nat * repr) :=
  filter (fun mR => 1 <= fst mR) Rs.

(** the table [self.kernels] for the kept lists *)
Definition kernels_of (size M : nat) (central_base : bool)
    (Rs_out Rs_in : list (nat * repr)) : list (list (ndarray6 F)) :=
  (fun out =>
     (fun inn =>
        FloatTensor_of (basis_of size M central_base (snd out) (snd inn) (fst inn)))
       <$> Rs_in) <$> Rs_out.

(** the channels of a representation list *)
Definition channels_of (Rs : list (nat * repr)) : nat :=
  sum_list ((fun mR => fst mR * dim (snd mR)) <$> Rs).

(** ** The order of the weights *)

(** one execution of the innermost statement: [(i, j, si, sj, k)] *)
Definition step : Type := nat * nat * slice * slice * nat.

(** the innermost statement executed along a list of steps, the weight
    index counting the steps *)
Fixpoint run {S} (body : nat -> nat -> slice -> slice -> nat -> nat -> S -> res S)
    (l : list step) (weight_index : nat) (s : S) : res S :=
  match l with
  | [] => Ok s
  | (i, j, si, sj, k) :: l' =>
      s' <- body i j si sj k weight_index s ;;
      run body l' (weight_index + 1) s'
  end.

(** [self.kernels[i][j].size(0)] *)
Definition basis_count (self : t (F:=F)) (i j : nat) : nat :=
  length (elems ((kernels self !!! i) !!! j)).

Definition width_out (self : t (F:=F)) (i : nat) : nat :=
  (multiplicites_out self !!! i) * (dims_out self !!! i).

Definition width_in (self : t (F:=F)) (j : nat) : nat :=
  (multiplicites_in self !!! j) * (dims_in self !!! j).

(** the sum of [f 0 ... f (n - 1)] *)
Definition sum_below (f : nat -> nat) (n : nat) : nat := sum_list (f <$> seq 0 n).

(** the steps of the copies [(ii, jj)] of the pair of blocks [(i, j)] *)
Definition steps_k (i j : nat) (si sj : slice) (N : nat) : list step :=
  k ← seq 0 N; [(i, j, si, sj, k)].

Definition steps_jj (i j : nat) (si : slice) (begin_j m_in d_in N : nat) : list step :=
  jj ← seq 0 m_in;
  steps_k i j si (begin_j + jj * d_in, begin_j + (jj + 1) * d_in) N.

Definition steps_ii (i j : nat) (begin_i begin_j m_out d_out m_in d_in N : nat)
  : list step :=
  ii ← seq 0 m_out;
  steps_jj i j (begin_i + ii * d_out, begin_i + (ii + 1) * d_out) begin_j m_in d_in N.

Definition steps_j (self : t (F:=F)) (i : nat) : list step :=
  j ← seq 0 (length (multiplicites_in self));
  steps_ii i j (sum_below (width_out self) i) (sum_below (width_in self) j)
    (multiplicites_out self !!! i) (dims_out self !!! i)
    (multiplicites_in self !!! j) (dims_in self !!! j) (basis_count self i j).

(** all the steps, in the nested order [(i, j, ii, jj, k)] *)
Definition steps (self : t (F:=F)) : list step :=
  i ← seq 0 (length (multiplicites_out self)); steps_j self i.

(** the number of weights of the pair of blocks [(i, j)] *)
Definition block_weights (self : t (F:=F)) (i j : nat) : nat :=
  (multiplicites_out self !!! i) * (multiplicites_in self !!! j) * basis_count self i j.

(** the sum over all pairs of blocks *)
Definition total_weights (self : t (F:=F)) : nat :=
  sum_below (fun i => sum_below (block_weights self i) (length (multiplicites_in self)))
    (length (multiplicites_out self)).

(** the invariant of the object: the lists describe the same blocks and
    each basis has the shape of its pair of blocks *)
Definition wf (self : t (F:=F)) : Prop :=
  length (dims_out self) = length (multiplicites_out self) /\
  length (dims_in self) = length (multiplicites_in self) /\
  length (kernels self) = length (multiplicites_out self) /\
  (forall i, i < length (multiplicites_out self) ->
     length (kernels self !!! i) = length (multiplicites_in self)) /\
  (forall i j, i < length (multiplicites_out self) ->
     j < length (multiplicites_in self) ->
     eshape ((kernels self !!! i) !!! j)
     = (dims_out self !!! i, dims_in self !!! j, size self, size self, size self)) /\
  nweights self = total_weights self.

(** a step addresses an existing basis element and a sub-block inside a
    kernel of [n_out] rows and [n_in] columns *)
Definition step_ok (self : t (F:=F)) (n_out n_in : nat) (st : step) : Prop :=
  let '(i, j, si, sj, k) := st in
  i < length (multiplicites_out self) /\
  j < length (multiplicites_in self) /\
  k < basis_count self i j /\
  fst si + dims_out self !!! i = snd si /\ snd si <= n_out /\
  fst sj + dims_in self !!! j = snd sj /\ snd sj <= n_in.

(** the step of the basis element [k] for the copies [(ii, jj)] of the
    pair of blocks [(i, j)] *)
Definition step_of (self : t (F:=F)) (i j ii jj k : nat) : step :=
  (i, j,
   (sum_below (width_out self) i + ii * (dims_out self !!! i),
    sum_below (width_out self) i + (ii + 1) * (dims_out self !!! i)),
   (sum_below (width_in self) j + jj * (dims_in self !!! j),
    sum_below (width_in self) j + (jj + 1) * (dims_in self !!! j)),
   k).

(** a step writes the entry of row [r] and column [c] *)
Definition covers (st : step) (r c : nat) : bool :=
  let '(_, _, si, sj, _) := st in in_slice si r && in_slice sj c.

(** the weight index of the first basis element of the copies
    [(ii, jj)] of the pair of blocks [(i, j)]: the weights of the rows of
    blocks before [i], of the pairs before [j] in the row, and of the
    copies before [(ii, jj)] in the pair *)
Definition weight_index_of (self : t (F:=F)) (i j ii jj : nat) : nat :=
  sum_below
    (fun i' => sum_below (block_weights self i') (length (multiplicites_in self))) i
  + sum_below (block_weights self i) j
  + (ii * (multiplicites_in self !!! j) + jj) * basis_count self i j.

(** the innermost statement of [forward] *)
Definition forward_body (self : t (F:=F)) (weight : list F)
    (i j : nat) (si sj : slice) (k weight_index : nat) (kernel : tensor F)
  : res (tensor F) :=
  row <- index (kernels self) i ;;
  K <- index row j ;;
  B <- element K k ;;
  w <- index weight weight_index ;;
  setslice kernel si sj (tscale B w).

(** the innermost statement of [backward] *)
Definition backward_body (self : t (F:=F)) (grad_kernel : tensor F)
    (i j : nat) (si sj : slice) (k weight_index : nat) (grad_weight : list F)
  : res (list F) :=
  row <- index (kernels self) i ;;
  K <- index row j ;;
  B <- element K k ;;
  x <- matmul (flatten B) (flatten (getslice grad_kernel si sj)) ;;
  setitem grad_weight weight_index x.

(** ** The combination as the specification words it

    "writing [kernel[out_slice, in_slice] += basis[i][j][k] * weight[next
    weight index]]": the same loops and the same order of the weights, on
    a kernel that starts at zero and accumulates. *)

(** [t[si, sj] += v] *)
Definition addslice (t : tensor F) (si sj : slice) (v : tensor F) : res (tensor F) :=
  if bool_decide (shape (getslice t si sj) = shape v) then
    Ok (Tensor (shape t)
          (fun a b x y z =>
             if in_slice si a && in_slice sj b
             then fadd (entry t a b x y z) (entry v (a - fst si) (b - fst sj) x y z)
             else entry t a b x y z))
  else Err RuntimeError.

(** the innermost statement of the combination of the specification *)
Definition spec_body (self : t (F:=F)) (weight : list F)
    (i j : nat) (si sj : slice) (k weight_index : nat) (kernel : tensor F)
  : res (tensor F) :=
  row <- index (kernels self) i ;;
  K <- index row j ;;
  B <- element K k ;;
  w <- index weight weight_index ;;
  addslice kernel si sj (tscale B w).

(** the sum of [k x y z] over a grid, in the order of the storage *)
Definition fsum3 (nx ny nz : nat) (k : nat -> nat -> nat -> F) : F :=
  fsum ((fun x =>
     fsum ((fun y => fsum ((fun z => k x y z) <$> seq 0 nz)) <$> seq 0 ny))
    <$> seq 0 nx).

(** [dot u v] for two vectors of one length *)
Definition dot (u v : list F) : F := fsum (zip_with fmul u v).

(** the entry of the gradient that [backward] computes at a step: the
    basis element against the sub-block of the gradient of the kernel *)
Definition step_gradient (self : t (F:=F)) (grad_kernel : tensor F) (st : step) : F :=
  let '(i, j, si, sj, k) := st in
  let K := (kernels self !!! i) !!! j in
  dot (flatten (Tensor (eshape K) (elems K !!! k)))
      (flatten (getslice grad_kernel si sj)).

Definition combine_spec (self : t (F:=F)) (weight : list F) : res (tensor F) :=
  _ <- assert (length weight =? nweights self) ;;
  n_out <- channels (multiplicites_out self) (dims_out self) ;;
  n_in <- channels (multiplicites_in self) (dims_in self) ;;
  let kernel := Tensor (n_out, n_in, size self, size self, size self)
                  (fun _ _ _ _ _ => f0) in
  loop_i self
    (fun i j si sj k weight_index kernel =>
       row <- index (kernels self) i ;;
       K <- index row j ;;
       B <- element K k ;;
       w <- index weight weight_index ;;
       addslice kernel si sj (tscale B w))
    kernel.

End KernelNotions.

Section GatedNotions.
Import GatedActivation.
Context {F : Type} {SF : Scalar F} {so3 : SO3} {CV : Convolutions F}.

(** the channels of the capsules of the orders below [n] *)
Definition offset_x (repr_in : list nat) (n : nat) : nat :=
  sum_below (fun m => (repr_in !!! m) * (2 * m + 1)) n.

(** the gates of the capsules of the orders from 1 and below [n] *)
Definition offset_g (repr_in : list nat) (n : nat) : nat :=
  sum_below (fun m => if m =? 0 then 0 else repr_in !!! m) n.

(** the gate activation that the [activation] argument configures *)
Definition gate_activation_of (activation : activation_arg) : option (F -> F) :=
  match activation with
  | Pair _ gate_activation => gate_activation
  | Single a => a
  end.

(** what [forward] does to the scalar block *)
Definition scalar_block (self : t (F:=F)) (x : tensor F) : tensor F :=
  let field_x := channel_slice x (0, repr_in self !!! 0) in
  match scalar_act self with
  | Some act => act field_x
  | None => field_x
  end.

(** the block of order [n] of the output [out] is the processed block of
    order [n] of the input [x], at the same channels: the scalar block
    as such, a capsule entry of a higher order times the gate of its
    capsule when there are gates [g], unchanged when there are none *)
Definition block_spec (self : t (F:=F)) (x : tensor F) (g : option (tensor F))
    (out : tensor F) (n : nat) : Prop :=
  let '(nb, _, nx, ny, nz) := shape x in
  match n with
  | 0 =>
      forall b c i j k,
        c < repr_in self !!! 0 ->
        entry out b c i j k = entry (scalar_block self x) b c i j k
  | S _ =>
      forall b f r i j k,
        b < nb -> f < repr_in self !!! n -> r < 2 * n + 1 ->
        i < nx -> j < ny -> k < nz ->
        let c := offset_x (repr_in self) n + f * (2 * n + 1) + r in
        entry out b c i j k
        = match g with
          | Some g =>
              fmul (entry x b c i j k)
                   (entry g b (offset_g (repr_in self) n + f) i j k)
          | None => entry x b c i j k
          end
  end.

(** the loop invariant of [forward] on [zs] before the order [n]: no
    block yet, or blocks that concatenate to the blocks of the orders
    below [n] *)
Definition accumulated (self : t (F:=F)) (x : tensor F) (g : option (tensor F))
    (nb nx ny nz : nat) (n : nat) (zs : list (tensor F)) : Prop :=
  (zs = [] /\ offset_x (repr_in self) n = 0) \/
  (0 < offset_x (repr_in self) n /\
   exists acc,
     cat zs = Ok acc /\
     shape acc = (nb, offset_x (repr_in self) n, nx, ny, nz) /\
     forall m, m < n -> repr_in self !!! m <> 0 -> block_spec self x g acc m).

End GatedNotions.

Section GatedArguments.
Import GatedActivation.
Context {F : Type} {SF : Scalar F} {so3 : SO3} {CV : Convolutions F}.

(** the scalar activation that the [activation] argument configures *)
Definition scalar_activation_of (activation : activation_arg) : option (F -> F) :=
  match activation with
  | Pair scalar_activation _ => scalar_activation
  | Single a => a
  end.

(** the channels of a list of groups [(multiplicity, dimension)] *)
Definition group_channels (groups : list (nat * nat)) : nat :=
  sum_list ((fun md => fst md * snd md) <$> groups).

End GatedArguments.

(** ** The convolution module of [convolution.py]

    [SE3Convolution] of [convolution.py] owns a kernel combination and
    its weight.  (The field [SE3Convolution] of the class
    [Convolutions] above is the class that [gated_activation.py]
    imports from the package, called with other keywords.) *)

(** [BiasRelu] and [NormRelu] of [se3_cnn.non_linearities], which are
    not among the source files: a module is built from the description
    of the fields and used through its [forward]; an instance stands
    for the module after its [reset_parameters] *)
Class Activations (F : Type) : Type := {
  (** the fields [(channels, is_scalar)] and the keyword [batch_norm] *)
  BiasRelu : list (nat * bool) -> bool -> tensor F -> res (tensor F);
  (** the capsules [(dimension, is_not_scalar)] *)
  NormRelu : list (nat * bool) -> tensor F -> res (tensor F)
}.

Section Conv3d.
Context {F : Type} {SF : Scalar F}.

(** [torch.nn.functional.conv3d(input, kernel)] with its defaults (no
    bias, stride one, no padding): the cross-correlation of the input
    of shape [(batch, channels, x, y, z)] with the kernel of shape
    [(n_out, n_in, kx, ky, kz)].  The channels must agree and the
    kernel must fit in the grid.  Tensors without entry are outside the
    properties stated below. *)
Definition conv3d (input kernel : tensor F) : res (tensor F) :=
  let '(nb, nc, nx, ny, nz) := shape input in
  let '(n_out, n_in, kx, ky, kz) := shape kernel in
  if (nc =? n_in) && (kx <=? nx) && (ky <=? ny) && (kz <=? nz) then
    Ok (Tensor (nb, n_out, nx - kx + 1, ny - ky + 1, nz - kz + 1)
          (fun b o x y z =>
             fsum (c ← seq 0 n_in; dx ← seq 0 kx; dy ← seq 0 ky; dz ← seq 0 kz;
                   [fmul (entry input b c (x + dx) (y + dy) (z + dz))
                         (entry kernel o c dx dy dz)])))
  else Err RuntimeError.

End Conv3d.

Module SE3Convolution.
Section Convolution.
Context {F : Type} {SF : Scalar F} {so3 : SO3} {BK : BasisKernels F}
        {AC : Activations F}.

(** the attributes of the module; a sub-module is its [forward] *)
Record t : Type := Build {
  combination : SE3KernelCombination.t (F:=F);
  weight : list F;
  bias_relu : option (tensor F -> res (tensor F));
  norm_relu : option (tensor F -> res (tensor F))
}.

(** [[(m * SO3.dim(R), SO3.dim(R) == 1) for m, R in Rs_out]] *)
Definition bias_relu_fields (Rs_out : list (nat * repr)) : list (nat * bool) :=
  (fun mR => (fst mR * dim (snd mR), dim (snd mR) =? 1)) <$> Rs_out.

(** [[(SO3.dim(R), SO3.dim(R) > 1) for m, R in Rs_out for _ in range(m)]] *)
Definition norm_relu_fields (Rs_out : list (nat * repr)) : list (nat * bool) :=
  mR ← Rs_out; replicate (fst mR) (dim (snd mR), 1 <? dim (snd mR)).

(** [reset_parameters]: [self.weight.data.normal_(0, 1)] draws every
    entry of the weight, [normal t] being the draw of the entry [t];
    the sub-modules are taken after their own reset *)
Definition reset_parameters (normal : nat -> F) (self : t) : t :=
  Build (combination self) (normal <$> seq 0 (length (weight self)))
    (bias_relu self) (norm_relu self).

(** [SE3Convolution.__init__]; [mem] is the content of the fresh
    storage of the weight *)
Definition init (size : nat) (Rs_out Rs_in : list (nat * repr))
    (bias_relu norm_relu scalar_batch_norm : bool) (M : nat) (central_base : bool)
    (mem : nat -> F) (normal : nat -> F) : res t :=
  combination <- SE3KernelCombination.init size Rs_out Rs_in M central_base ;;
  let weight :=
    SE3KernelCombination.FloatVector mem (SE3KernelCombination.nweights combination) in
  let bias_relu :=
    if bias_relu then Some (BiasRelu (bias_relu_fields Rs_out) scalar_batch_norm)
    else None in
  let norm_relu :=
    if norm_relu then Some (NormRelu (norm_relu_fields Rs_out)) else None in
  Ok (reset_parameters normal (Build combination weight bias_relu norm_relu)).

(** [SE3Convolution.forward]; the calls of [time_logging] only read the
    clock.  [mem] is the content of the fresh storage of the kernel. *)
Definition forward (self : t) (mem : accessor F) (input : tensor F)
  : res (tensor F) :=
  kernel <- SE3KernelCombination.forward (combination self) mem (weight self) ;;
  output <- conv3d input kernel ;;
  output <- match bias_relu self with
            | Some bias_relu => bias_relu output
            | None => Ok output
            end ;;
  match norm_relu self with
  | Some norm_relu => norm_relu output
  | None => Ok output
  end.

End Convolution.
End SE3Convolution.

Section TestNormalization.
Context {F : Type} {SF : Scalar F} {so3 : SO3} {BK : BasisKernels F}
        {AC : Activations F}.

(** [test_normalization], without its [print] statements: [randn] is
    the input drawn by [torch.randn], [normal] the draws of the weight,
    [mem_w] and [mem_k] the contents of the fresh storages of the
    weight and of the kernel *)
Definition test_normalization (batch size : nat)
    (Rs_out Rs_in : option (list (nat * repr)))
    (mem_w normal : nat -> F) (mem_k randn : accessor F) : res (tensor F) :=
  let Rs_out := default [(1, repr1); (1, repr3)] Rs_out in
  let Rs_in := default [(1, repr1); (1, repr3)] Rs_in in
  conv <- SE3Convolution.init 4 Rs_out Rs_in false false false 15 true mem_w normal ;;
  let n_out := sum_list ((fun mr => fst mr * dim (snd mr)) <$> Rs_out) in
  let n_in := sum_list ((fun mr => fst mr * dim (snd mr)) <$> Rs_in) in
  let x := Tensor (batch, n_in, size, size, size) randn in
  y <- SE3Convolution.forward conv mem_k x ;;
  _ <- assert (snd (fst (fst (fst (shape y)))) =? n_out) ;;
  Ok y.

End TestNormalization.

(** * Concrete collaborators, to run the code

    The representations are their orders [n], of dimension [2 n + 1].
    The entries are integers; at the inputs used below every division
    is by one and every square root is of one, so that the integer
    operations agree with the floating-point ones. *)

Module Examples.

Definition SO3_orders : SO3 := {|
  repr := nat;
  dim := fun n => 2 * n + 1;
  repr1 := 0; repr3 := 1; repr5 := 2; repr7 := 3;
  repr9 := 4; repr11 := 5; repr13 := 6; repr15 := 7
|}.

(** the tensor with a one at row [k] of the first voxel and column *)
Definition unit_at (k : nat) : accessor Z :=
  fun a b x y z =>
    if (a =? k) && (b =? 0) && (x =? 0) && (y =? 0) && (z =? 0) then 1%Z else 0%Z.

(** a sampled basis of three elements from order 0 to order 1 and of no
    element for the other pairs; one matrix at the centre from order 0
    to order 0 *)
Definition sampled (size R_out R_in M : nat) : ndarray6 Z :=
  Ndarray6 (2 * R_out + 1, 2 * R_in + 1, size, size, size)
    (if (R_out =? 1) && (R_in =? 0) then [unit_at 0; unit_at 1; unit_at 2] else []).

Definition at_centre (R_out R_in : nat) : list (nat -> nat -> Z) :=
  if (R_out =? 0) && (R_in =? 0) then [fun _ _ => 1%Z] else [].

Definition basis_kernels : @BasisKernels Z SO3_orders := {|
  cube_basis_kernels_subsampled_cosine := sampled : nat -> @repr SO3_orders -> @repr SO3_orders -> nat -> ndarray6 Z;
  basis_kernels_satisfying_SO3_constraint := at_centre : @repr SO3_orders -> @repr SO3_orders -> list (nat -> nat -> Z);
  cube_basis_shape := fun _ _ _ _ => eq_refl
|}.

(** a convolution whose output channel [c] is the constant [c + 2] *)
Definition constant_conv (args : @conv_args SO3_orders unit) (x : tensor Z)
  : res (tensor Z) :=
  let '(nb, _, nx, ny, nz) := shape x in
  Ok (Tensor (nb, sum_list (fst <$> Rs_out unit args), nx, ny, nz)
        (fun b c x y z => Z.of_nat (c + 2))).

Definition convolutions : @Convolutions Z SO3_orders := {|
  window := unit;
  SE3Convolution := constant_conv;
  SE3BNConvolution := fun _ => constant_conv;
  SE3GNConvolution := fun _ => constant_conv
|}.

(** activations that leave their input as it is *)
Definition activations : Activations Z := {|
  BiasRelu := fun _ _ x => Ok x;
  NormRelu := fun _ x => Ok x
|}.

(** storage that happens to hold [v] everywhere *)
Definition filled (v : Z) : accessor Z := fun _ _ _ _ _ => v.

(** a feature tensor of one batch entry, [n] channels and two voxels *)
Definition features (n : nat) : tensor Z :=
  Tensor (1, n, 1, 1, 2) (fun b c x y z => Z.of_nat (10 * c + z)).

End Examples.

(** * Reading a fact off a constructed object

    [Ok_project]: what a function returns on the object that a
    computation has returned is what it returns on the result of the
    computation; used to evaluate an attribute of an object without
    evaluating the whole object. *)
Definition Ok_project {A B : Type} (f : A -> B) (m : res A) (a : A) (b : B)
    (H : m = Ok a)
  : match m with Ok s => f s | Err _ => f a end = b -> f a = b :=
  eq_ind_r (x := Ok a)
    (fun m0 => match m0 with Ok s => f s | Err _ => f a end = b -> f a = b)
    (fun p : f a = b => p) H.

(** [init_fact Hinit self t H]: from [Hinit : m = Ok self], the value of
    the term [t] about [self], as [H : t = v] *)
Ltac init_fact Hinit self t H :=
  let f := eval pattern self in t in
  lazymatch f with
  | ?g self =>
      lazymatch type of Hinit with
      | ?m = Ok self =>
          let v := eval vm_compute in
                     (match m with Ok s => g s | Err _ => g self end) in
          assert (H : t = v)
            by (apply (Ok_project g m self v Hinit); vm_compute; reflexivity)
      end
  end.
(** * Properties *)

(** ** The error monad and the loops *)

Lemma bind_assoc {A B C} (m : res A) (f : A -> res B) (g : B -> res C) :
  bind (bind m f) g = bind m (fun a => bind (f a) g).
Proof. by destruct m. Qed.

Lemma bind_ext {A B} (m : res A) (f g : A -> res B) :
  (forall a, f a = g a) -> bind m f = bind m g.
Proof. intros Hfg. destruct m; simpl; [apply Hfg | done]. Qed.

Lemma bind_Ok_inv {A B} (m : res A) (f : A -> res B) (b : B) :
  bind m f = Ok b -> exists a, m = Ok a /\ f a = Ok b.
Proof. destruct m as [a|e]; simpl; [eauto | done]. Qed.

Lemma index_Some {A} (l : list A) (i : nat) (a : A) :
  l !! i = Some a -> index l i = Ok a.
Proof. unfold index. by intros ->. Qed.

Lemma index_lt {A} `{Inhabited A} (l : list A) (i : nat) :
  i < length l -> index l i = Ok (l !!! i).
Proof. intros Hi. apply index_Some. by apply list_lookup_lookup_total_lt. Qed.

Lemma index_Ok_inv {A} (l : list A) (i : nat) (a : A) :
  index l i = Ok a -> l !! i = Some a.
Proof. unfold index. destruct (l !! i); [by intros [= ->] | done]. Qed.

Lemma for_each_app {S} (l1 l2 : list nat) (s : S) body :
  for_each (l1 ++ l2) s body = bind (for_each l1 s body) (fun s' => for_each l2 s' body).
Proof.
  revert s. induction l1 as [|t l1 IH]; intros s; simpl; [done|].
  rewrite bind_assoc. apply bind_ext. intros s'. apply IH.
Qed.

Lemma for_range_S {S} (n : nat) (s : S) body :
  for_range (Datatypes.S n) s body = bind (for_range n s body) (body n).
Proof.
  unfold for_range. rewrite seq_S, for_each_app. apply bind_ext.
  intros s'. simpl. by destruct (body n s').
Qed.

(** the rule of the loop invariant: [Inv t] holds before iteration [t] *)
Lemma for_range_inv {S} (Inv : nat -> S -> Prop) (n : nat) (s : S) body :
  Inv 0 s ->
  (forall t s, t < n -> Inv t s -> exists s', body t s = Ok s' /\ Inv (Datatypes.S t) s') ->
  exists s', for_range n s body = Ok s' /\ Inv n s'.
Proof.
  intros H0. induction n as [|n IH]; intros Hstep.
  - exists s. by split.
  - destruct IH as (s1 & Hrun & Hinv).
    { intros t s' Ht. apply Hstep. lia. }
    destruct (Hstep n s1) as (s2 & Hbody & Hinv2); [lia | done |].
    exists s2. rewrite for_range_S, Hrun. by split.
Qed.

Lemma for_items_map {A B} (l : list A) (f : A -> res B) (g : A -> B) :
  (forall x, x ∈ l -> f x = Ok (g x)) ->
  for_items l f = Ok (g <$> l).
Proof.
  induction l as [|x l IH]; intros Hf; simpl; [done|].
  rewrite Hf by apply list_elem_of_here. simpl.
  rewrite IH; [done|]. intros y Hy. apply Hf. by apply list_elem_of_further.
Qed.

Lemma comprehension_map {A} (ts : list nat) (f : nat -> res A) (g : nat -> A) :
  (forall t, t ∈ ts -> f t = Ok (g t)) ->
  comprehension ts f = Ok (g <$> ts).
Proof.
  induction ts as [|t ts IH]; intros Hf; simpl; [done|].
  rewrite Hf by apply list_elem_of_here. simpl.
  rewrite IH; [done|]. intros y Hy. apply Hf. by apply list_elem_of_further.
Qed.


(** ** Basis generation *)

Section BasisProperties.
Import SE3KernelCombination.
Context {F : Type} {SF : Scalar F} {so3 : SO3} {BK : BasisKernels F}.

Lemma alter_middle {A} (g : A -> A) (l1 l2 : list A) (a : A) :
  alter g (length l1) (l1 ++ a :: l2) = l1 ++ g a :: l2.
Proof.
  replace (length l1) with (length l1 + 0) by lia.
  by rewrite alter_app_r.
Qed.

Lemma odd_half_lt (size : nat) : (size mod 2 =? 1) = true -> size / 2 < size.
Proof.
  intros Hodd. apply Nat.eqb_eq in Hodd.
  apply Nat.div_lt; [|lia]. destruct size; [done | lia].
Qed.

(** the loop that fills the centre voxel of each zero element *)
Lemma center_loop (Ks : list (nat -> nat -> F)) (d_out d_in size c : nat) :
  c < size ->
  for_range (length Ks) (zeros (length Ks) (d_out, d_in, size, size, size))
    (fun k center => K <- index Ks k ;; assign_voxel center k c K)
  = Ok (Ndarray6 (d_out, d_in, size, size, size)
          ((fun K => set_voxel K c (fun _ _ _ _ _ => f0)) <$> Ks)).
Proof.
  intros Hc.
  set (es := (d_out, d_in, size, size, size)).
  set (z := fun _ _ _ _ _ : nat => f0).
  set (g := fun K => set_voxel K c z).
  destruct (for_range_inv
    (fun k center => eshape center = es /\
       elems center = (g <$> take k Ks) ++ replicate (length Ks - k) z)
    (length Ks) (zeros (length Ks) es)
    (fun k center => K <- index Ks k ;; assign_voxel center k c K))
    as (center & Hrun & Hes & Hel).
  - split; [done|]. simpl. by rewrite Nat.sub_0_r.
  - intros k center Hk [Hes Hel].
    destruct (lookup_lt_is_Some_2 Ks k Hk) as [K HK].
    rewrite (index_Some _ _ _ HK). simpl.
    unfold assign_voxel. rewrite Hes. unfold es at 1.
    assert (Hlen : length (elems center) = length Ks).
    { rewrite Hel, length_app, length_fmap, length_take, length_replicate. lia. }
    rewrite Hlen.
    destruct (Nat.ltb_spec k (length Ks)) as [_|]; [|lia].
    destruct (Nat.ltb_spec c size) as [_|]; [|lia]. simpl.
    eexists. split; [reflexivity|]. split; [done|]. simpl.
    rewrite Hel.
    replace (length Ks - k) with (Datatypes.S (length Ks - Datatypes.S k)) by lia.
    simpl.
    assert (Halter : forall (h : accessor F -> accessor F) l1 l2 a,
              length l1 = k -> alter h k (l1 ++ a :: l2) = l1 ++ h a :: l2).
    { intros h l1 l2 a <-. apply alter_middle. }
    rewrite Halter by (rewrite length_fmap, length_take; lia).
    rewrite (take_S_r _ _ _ HK), fmap_app. simpl.
    by rewrite <- app_assoc.
  - rewrite Hrun. f_equal. destruct center as [es' el]. simpl in *. subst es'.
    f_equal. rewrite Hel, firstn_all, Nat.sub_diag. simpl. by rewrite app_nil_r.
Qed.

(** what [generate_basis] holds before the normalisation *)
Lemma candidates_eq (size M : nat) (central_base : bool) (R_out R_in : repr) :
  candidates size M central_base R_out R_in
  = Ok (Ndarray6 (dim R_out, dim R_in, size, size, size)
          (candidate_elements size M central_base R_out R_in)).
Proof.
  unfold candidates, candidate_elements, sampled_elements.
  pose proof (cube_basis_shape size R_out R_in M) as Hshape.
  destruct (cube_basis_kernels_subsampled_cosine size R_out R_in M) as [es el].
  cbn [eshape elems] in *. subst es.
  destruct (central_base && (size mod 2 =? 1)) eqn:Hcb; [|done].
  apply andb_true_iff in Hcb as [_ Hodd].
  rewrite center_loop by by apply odd_half_lt.
  cbn [bind]. unfold concatenate. cbn [eshape elems].
  by rewrite bool_decide_eq_true_2.
Qed.

Lemma element_middle (es : shape5) (l1 l2 : list (accessor F)) (f : accessor F) :
  element (Ndarray6 es (l1 ++ f :: l2)) (length l1) = Ok (Tensor es f).
Proof.
  unfold element. cbn [elems eshape].
  by rewrite (index_Some _ _ f) by by apply list_lookup_middle.
Qed.

Lemma inplace_middle (g : F -> F) (es : shape5) (l1 l2 : list (accessor F))
    (f : accessor F) :
  inplace g (Ndarray6 es (l1 ++ f :: l2)) (length l1)
  = Ok (Ndarray6 es (l1 ++ amap g f :: l2)).
Proof.
  unfold inplace. cbn [elems eshape].
  destruct (Nat.ltb_spec (length l1) (length (l1 ++ f :: l2))) as [_|Hge].
  - by rewrite alter_middle.
  - rewrite length_app in Hge. simpl in Hge. lia.
Qed.

(** one iteration of the normalisation, on the element after [l1] *)
Lemma normalize_step_middle (R_out : repr) (m_in : nat) (es : shape5)
    (l1 l2 : list (accessor F)) (f : accessor F) :
  normalize_step R_out m_in (length l1) (Ndarray6 es (l1 ++ f :: l2))
  = Ok (Ndarray6 es
          (l1 ++ normalized es (length (l1 ++ f :: l2)) R_out m_in f :: l2)).
Proof.
  unfold normalize_step. rewrite element_middle. cbn [bind].
  rewrite inplace_middle. cbn [bind elems].
  rewrite inplace_middle. cbn [bind].
  rewrite inplace_middle. unfold normalized.
  repeat f_equal. rewrite !length_app. done.
Qed.

(** the normalisation loop over any array *)
Lemma normalize_loop (R_out : repr) (m_in : nat) (a : ndarray6 F) :
  for_range (length (elems a)) a (normalize_step R_out m_in)
  = Ok (Ndarray6 (eshape a)
          (normalized (eshape a) (length (elems a)) R_out m_in <$> elems a)).
Proof.
  set (nz := normalized (eshape a) (length (elems a)) R_out m_in).
  destruct (for_range_inv
    (fun k b => eshape b = eshape a /\
       elems b = (nz <$> take k (elems a)) ++ drop k (elems a))
    (length (elems a)) a (normalize_step R_out m_in))
    as (b & Hrun & Hes & Hel).
  - split; [done|]. simpl. by rewrite drop_0.
  - intros k [es el] Hk [Hes Hel]. cbn [eshape elems] in *. subst es.
    destruct (lookup_lt_is_Some_2 (elems a) k Hk) as [f Hf].
    rewrite (drop_S _ _ _ Hf) in Hel. subst el.
    set (l1 := nz <$> take k (elems a)).
    set (l2 := drop (Datatypes.S k) (elems a)).
    assert (Hk' : length l1 = k).
    { unfold l1. rewrite length_fmap, length_take. lia. }
    pose proof (normalize_step_middle R_out m_in (eshape a) l1 l2 f) as Hstep.
    rewrite Hk' in Hstep. rewrite Hstep.
    eexists. split; [reflexivity|]. split; [done|]. cbn [elems].
    rewrite (take_S_r _ _ _ Hf), fmap_app, <- app_assoc. simpl.
    do 2 f_equal. unfold nz. f_equal.
    rewrite length_app. simpl. rewrite Hk'. unfold l2. rewrite length_drop. lia.
  - rewrite Hrun. f_equal. destruct b as [es el]. simpl in *. subst es.
    f_equal. rewrite Hel, firstn_all, drop_all. by rewrite app_nil_r.
Qed.

(** [generate_basis] in closed form *)
Lemma generate_basis_eq (size M : nat) (central_base : bool)
    (R_out R_in : repr) (m_out m_in : nat) :
  let es := (dim R_out, dim R_in, size, size, size) in
  let raw := candidate_elements size M central_base R_out R_in in
  generate_basis size M central_base R_out R_in m_out m_in
  = Ok (Ndarray6 es (normalized es (length raw) R_out m_in <$> raw)).
Proof.
  intros es raw. unfold generate_basis. rewrite candidates_eq. simpl.
  apply (normalize_loop R_out m_in (Ndarray6 es raw)).
Qed.

End BasisProperties.

(** ** The loop nest executes the steps in order *)

Lemma sum_below_S (f : nat -> nat) (n : nat) :
  sum_below f (S n) = sum_below f n + f n.
Proof.
  unfold sum_below. rewrite seq_S, fmap_app, sum_list_with_app. simpl. lia.
Qed.

Lemma sum_below_le (f : nat -> nat) (m n : nat) :
  m <= n -> sum_below f m <= sum_below f n.
Proof.
  induction 1 as [|n _ IH]; [done|]. rewrite sum_below_S. lia.
Qed.

Lemma length_bind_seq {A} (f : nat -> list A) (n : nat) :
  length (seq 0 n ≫= f) = sum_below (fun t => length (f t)) n.
Proof.
  induction n as [|n IH]; [done|].
  rewrite seq_S, bind_app, length_app, IH, sum_below_S. simpl.
  by rewrite app_nil_r.
Qed.

Section NestProperties.
Import SE3KernelCombination.
Context {F : Type} {SF : Scalar F} {so3 : SO3} {BK : BasisKernels F} {S : Type}.
Variable body : nat -> nat -> slice -> slice -> nat -> nat -> S -> res S.

Lemma run_app (l1 l2 : list step) (w : nat) (s : S) :
  run body (l1 ++ l2) w s
  = bind (run body l1 w s) (fun s' => run body l2 (w + length l1) s').
Proof.
  revert w s. induction l1 as [|[[[[i j] si] sj] k] l1 IH]; intros w s; simpl.
  - by rewrite Nat.add_0_r.
  - rewrite bind_assoc. apply bind_ext. intros s'. rewrite IH.
    apply bind_ext. intros s''. f_equal. lia.
Qed.

(** a loop whose iteration [t] executes the steps [stepsf t] executes
    their concatenation *)
Lemma for_range_run (n : nat) (inner : nat -> S * nat -> res (S * nat))
    (stepsf : nat -> list step) :
  (forall t s w, t < n ->
     inner t (s, w)
     = bind (run body (stepsf t) w s) (fun s' => Ok (s', w + length (stepsf t)))) ->
  forall s w,
    for_range n (s, w) inner
    = bind (run body (seq 0 n ≫= stepsf) w s)
        (fun s' => Ok (s', w + length (seq 0 n ≫= stepsf))).
Proof.
  induction n as [|n IH]; intros Hin s w.
  - unfold for_range. simpl. by rewrite Nat.add_0_r.
  - rewrite for_range_S, IH by (intros; apply Hin; lia).
    rewrite seq_S, bind_app, run_app. simpl. rewrite app_nil_r.
    rewrite !bind_assoc. apply bind_ext. intros s1. cbn [bind].
    rewrite Hin by lia. apply bind_ext. intros s2.
    rewrite length_app. do 2 f_equal. lia.
Qed.

(** the same with a running offset [begin], the sum of the widths of
    the blocks passed *)
Lemma for_range_run_begin (n : nat) (inner : nat -> S * nat * nat -> res (S * nat * nat))
    (stepsf : nat -> list step) (width : nat -> nat) :
  (forall t s w, t < n ->
     inner t (s, w, sum_below width t)
     = bind (run body (stepsf t) w s)
         (fun s' => Ok (s', w + length (stepsf t), sum_below width t + width t))) ->
  forall s w,
    for_range n (s, w, 0) inner
    = bind (run body (seq 0 n ≫= stepsf) w s)
        (fun s' => Ok (s', w + length (seq 0 n ≫= stepsf), sum_below width n)).
Proof.
  induction n as [|n IH]; intros Hin s w.
  - unfold for_range. simpl. by rewrite Nat.add_0_r.
  - rewrite for_range_S, IH by (intros; apply Hin; lia).
    rewrite seq_S, bind_app, run_app. simpl. rewrite app_nil_r.
    rewrite !bind_assoc. apply bind_ext. intros s1. cbn [bind].
    rewrite Hin by lia. apply bind_ext. intros s2.
    rewrite length_app, sum_below_S. do 3 f_equal. lia.
Qed.

Variable self : t (F:=F).
Hypothesis Hwf : wf self.

Lemma wf_kernel_row (i : nat) :
  i < length (multiplicites_out self) -> i < length (kernels self).
Proof. destruct Hwf as (_ & _ & Hk & _). lia. Qed.

Lemma wf_kernel_col (i j : nat) :
  i < length (multiplicites_out self) -> j < length (multiplicites_in self) ->
  j < length (kernels self !!! i).
Proof. destruct Hwf as (_ & _ & _ & Hr & _). intros Hi Hj. rewrite Hr; done. Qed.

Lemma wf_dims_out (i : nat) :
  i < length (multiplicites_out self) -> i < length (dims_out self).
Proof. destruct Hwf as (Hd & _). lia. Qed.

Lemma wf_dims_in (j : nat) :
  j < length (multiplicites_in self) -> j < length (dims_in self).
Proof. destruct Hwf as (_ & Hd & _). lia. Qed.

Lemma loop_k_run (i j : nat) (si sj : slice) (s : S) (w : nat) :
  i < length (multiplicites_out self) -> j < length (multiplicites_in self) ->
  let l := steps_k i j si sj (basis_count self i j) in
  loop_k self body i j si sj (s, w)
  = bind (run body l w s) (fun s' => Ok (s', w + length l)).
Proof.
  intros Hi Hj l. unfold loop_k.
  rewrite (index_lt (kernels self) i) by by apply wf_kernel_row. cbn [bind].
  rewrite (index_lt (kernels self !!! i) j) by by apply wf_kernel_col. cbn [bind].
  apply (for_range_run _ _ (fun k => [(i, j, si, sj, k)])).
  intros k s1 w1 _. simpl. rewrite bind_assoc. apply bind_ext. by intros s2.
Qed.

Lemma loop_jj_run (i j : nat) (si : slice) (begin_j : nat) (s : S) (w : nat) :
  i < length (multiplicites_out self) -> j < length (multiplicites_in self) ->
  let l := steps_jj i j si begin_j (multiplicites_in self !!! j)
             (dims_in self !!! j) (basis_count self i j) in
  loop_jj self body i j si begin_j (s, w)
  = bind (run body l w s) (fun s' => Ok (s', w + length l)).
Proof.
  intros Hi Hj l. unfold loop_jj.
  rewrite (index_lt (multiplicites_in self) j) by done. cbn [bind].
  apply (for_range_run _ _
    (fun jj => steps_k i j si
       (begin_j + jj * (dims_in self !!! j), begin_j + (jj + 1) * (dims_in self !!! j))
       (basis_count self i j))).
  intros jj s1 w1 _.
  rewrite (index_lt (dims_in self) j) by by apply wf_dims_in. cbn [bind].
  by apply loop_k_run.
Qed.

Lemma loop_ii_run (i j : nat) (begin_i begin_j : nat) (s : S) (w : nat) :
  i < length (multiplicites_out self) -> j < length (multiplicites_in self) ->
  let l := steps_ii i j begin_i begin_j
             (multiplicites_out self !!! i) (dims_out self !!! i)
             (multiplicites_in self !!! j) (dims_in self !!! j)
             (basis_count self i j) in
  loop_ii self body i j begin_i begin_j (s, w)
  = bind (run body l w s) (fun s' => Ok (s', w + length l)).
Proof.
  intros Hi Hj l. unfold loop_ii.
  rewrite (index_lt (multiplicites_out self) i) by done. cbn [bind].
  apply (for_range_run _ _
    (fun ii => steps_jj i j
       (begin_i + ii * (dims_out self !!! i), begin_i + (ii + 1) * (dims_out self !!! i))
       begin_j (multiplicites_in self !!! j) (dims_in self !!! j)
       (basis_count self i j))).
  intros ii s1 w1 _.
  rewrite (index_lt (dims_out self) i) by by apply wf_dims_out. cbn [bind].
  by apply loop_jj_run.
Qed.

Lemma loop_j_run (i : nat) (s : S) (w : nat) :
  i < length (multiplicites_out self) ->
  loop_j self body i (sum_below (width_out self) i) (s, w)
  = bind (run body (steps_j self i) w s)
      (fun s' => Ok (s', w + length (steps_j self i))).
Proof.
  intros Hi. unfold loop_j.
  rewrite (for_range_run_begin _ _
    (fun j => steps_ii i j (sum_below (width_out self) i) (sum_below (width_in self) j)
       (multiplicites_out self !!! i) (dims_out self !!! i)
       (multiplicites_in self !!! j) (dims_in self !!! j) (basis_count self i j))
    (width_in self)).
  - rewrite bind_assoc. by apply bind_ext.
  - intros j s1 w1 Hj. cbn beta iota.
    rewrite loop_ii_run by done. rewrite bind_assoc. apply bind_ext.
    intros s2. cbn [bind].
    rewrite (index_lt (multiplicites_in self) j) by done. cbn [bind].
    rewrite (index_lt (dims_in self) j) by by apply wf_dims_in. done.
Qed.

(** the five loops execute [body] along [steps self], the weight index
    being the position of the step *)
Lemma loop_i_run (s : S) :
  loop_i self body s = run body (steps self) 0 s.
Proof.
  unfold loop_i.
  rewrite (for_range_run_begin _ _ (steps_j self) (width_out self)).
  - rewrite bind_assoc. unfold steps.
    destruct (run body _ 0 s); done.
  - intros i s1 w1 Hi. cbn beta iota.
    rewrite loop_j_run by done. rewrite bind_assoc. apply bind_ext.
    intros s2. cbn [bind].
    rewrite (index_lt (multiplicites_out self) i) by done. cbn [bind].
    rewrite (index_lt (dims_out self) i) by by apply wf_dims_out. done.
Qed.

End NestProperties.

(** ** The constructor *)

Lemma sum_below_ext (f g : nat -> nat) (n : nat) :
  (forall t, t < n -> f t = g t) -> sum_below f n = sum_below g n.
Proof.
  induction n as [|n IH]; intros Hfg; [done|].
  rewrite !sum_below_S, IH, Hfg by (try intros; try apply Hfg; lia). done.
Qed.

Lemma sum_below_const (c n : nat) : sum_below (fun _ => c) n = n * c.
Proof. induction n as [|n IH]; [done|]. rewrite sum_below_S, IH. lia. Qed.

Lemma sum_below_lookup {A} `{Inhabited A} (f : A -> nat) (l : list A) :
  sum_below (fun i => f (l !!! i)) (length l) = sum_list (f <$> l).
Proof.
  induction l as [|a l IH] using rev_ind; [done|].
  rewrite length_app, Nat.add_comm. simpl. rewrite sum_below_S.
  rewrite fmap_app, sum_list_with_app. simpl.
  rewrite <- IH. f_equal.
  - apply sum_below_ext. intros t Ht. by rewrite lookup_total_app_l.
  - rewrite lookup_total_app_r by lia. rewrite Nat.sub_diag. simpl. lia.
Qed.

(** a loop that adds [f t] at iteration [t] *)
Lemma for_range_sum (n : nat) (body : nat -> nat -> res nat) (f : nat -> nat) (a : nat) :
  (forall t acc, t < n -> body t acc = Ok (acc + f t)) ->
  for_range n a body = Ok (a + sum_below f n).
Proof.
  induction n as [|n IH]; intros Hbody.
  - unfold for_range. simpl. by rewrite Nat.add_0_r.
  - rewrite for_range_S, IH by (intros; apply Hbody; lia). cbn [bind].
    rewrite Hbody, sum_below_S by lia. f_equal. lia.
Qed.

Section InitProperties.
Import SE3KernelCombination.
Context {F : Type} {SF : Scalar F} {so3 : SO3} {BK : BasisKernels F}.

Lemma count_weights_eq (mo mi : list nat) (ks : list (list (ndarray6 F))) :
  length ks = length mo ->
  (forall i, i < length mo -> length (ks !!! i) = length mi) ->
  count_weights (length mo) (length mi) mo mi ks
  = Ok (sum_below
          (fun i => sum_below
             (fun j => (mo !!! i) * (mi !!! j) * length (elems ((ks !!! i) !!! j)))
             (length mi))
          (length mo)).
Proof.
  intros Hks Hrow. unfold count_weights.
  rewrite (for_range_sum _ _
    (fun i => sum_below
       (fun j => (mo !!! i) * (mi !!! j) * length (elems ((ks !!! i) !!! j)))
       (length mi))); [done|].
  intros i acc Hi. apply for_range_sum. intros j acc' Hj.
  rewrite (index_lt mo i) by done. cbn [bind].
  rewrite (index_lt mi j) by done. cbn [bind].
  rewrite (index_lt ks i) by lia. cbn [bind].
  rewrite (index_lt (ks !!! i) j) by (rewrite Hrow; done). done.
Qed.

(** the object that [__init__] builds from the kept lists *)
Lemma init_eq (size : nat) (Rs_out Rs_in : list (nat * repr)) (M : nat)
    (central_base : bool) :
  exists n,
    init size Rs_out Rs_in M central_base
    = Ok (Build size (fst <$> kept Rs_out) (fst <$> kept Rs_in)
            ((fun mR => dim (snd mR)) <$> kept Rs_out)
            ((fun mR => dim (snd mR)) <$> kept Rs_in)
            (kernels_of size M central_base (kept Rs_out) (kept Rs_in)) n)
    /\ wf (Build size (fst <$> kept Rs_out) (fst <$> kept Rs_in)
            ((fun mR => dim (snd mR)) <$> kept Rs_out)
            ((fun mR => dim (snd mR)) <$> kept Rs_in)
            (kernels_of size M central_base (kept Rs_out) (kept Rs_in)) n).
Proof.
  unfold init. fold (kept Rs_out). fold (kept Rs_in).
  set (Ro := kept Rs_out). set (Ri := kept Rs_in).
  rewrite (for_items_map Ro _
    (fun out => (fun inn =>
       FloatTensor_of (basis_of size M central_base (snd out) (snd inn) (fst inn)))
       <$> Ri)).
  2:{ intros [m_out R_out] _. apply for_items_map. intros [m_in R_in] _.
      rewrite generate_basis_eq. done. }
  cbn [bind]. fold (kernels_of size M central_base Ro Ri).
  assert (Hlen : length (kernels_of size M central_base Ro Ri) = length Ro).
  { unfold kernels_of. by rewrite length_fmap. }
  assert (Hrow : forall i, i < length Ro ->
            kernels_of size M central_base Ro Ri !!! i
            = (fun inn => FloatTensor_of
                 (basis_of size M central_base (snd (Ro !!! i)) (snd inn) (fst inn)))
              <$> Ri).
  { intros i Hi. unfold kernels_of.
    by rewrite (list_lookup_total_fmap _ Ro i Hi). }
  rewrite <- (length_fmap fst Ro), <- (length_fmap fst Ri).
  rewrite count_weights_eq.
  2:{ by rewrite Hlen, length_fmap. }
  2:{ intros i Hi. rewrite length_fmap in Hi. rewrite Hrow by done.
      by rewrite !length_fmap. }
  cbn [bind]. eexists. split; [reflexivity|].
  unfold wf. cbn [SE3KernelCombination.size multiplicites_out multiplicites_in
                  dims_out dims_in kernels nweights].
  rewrite !length_fmap. repeat split; try done.
  - intros i Hi. rewrite Hrow by done. by rewrite length_fmap.
  - intros i j Hi Hj. rewrite Hrow by done.
    rewrite (list_lookup_total_fmap _ Ri j Hj).
    rewrite (list_lookup_total_fmap _ Ro i Hi).
    rewrite (list_lookup_total_fmap _ Ri j Hj). done.
  - unfold total_weights, block_weights, basis_count.
    cbn [multiplicites_out multiplicites_in kernels].
    by rewrite !length_fmap.
Qed.

End InitProperties.

(** ** The steps of an object *)

Section StepProperties.
Import SE3KernelCombination.
Context {F : Type} {SF : Scalar F} {so3 : SO3} {BK : BasisKernels F}.

Lemma channels_eq (ms ds : list nat) :
  length ds = length ms ->
  channels ms ds = Ok (sum_below (fun i => (ms !!! i) * (ds !!! i)) (length ms)).
Proof.
  intros Hlen. unfold channels.
  rewrite (comprehension_map _ _ (fun i => (ms !!! i) * (ds !!! i))); [done|].
  intros t Ht. apply elem_of_seq in Ht.
  rewrite (index_lt ms t) by lia. cbn [bind].
  rewrite (index_lt ds t) by lia. done.
Qed.

Lemma length_steps_k (i j : nat) (si sj : slice) (N : nat) :
  length (steps_k i j si sj N) = N.
Proof.
  unfold steps_k. rewrite length_bind_seq. simpl.
  rewrite sum_below_const. lia.
Qed.

Lemma length_steps_jj (i j : nat) (si : slice) (begin_j m_in d_in N : nat) :
  length (steps_jj i j si begin_j m_in d_in N) = m_in * N.
Proof.
  unfold steps_jj. rewrite length_bind_seq.
  rewrite (sum_below_ext _ (fun _ => N)) by (intros; apply length_steps_k).
  apply sum_below_const.
Qed.

Lemma length_steps_ii (i j : nat) (begin_i begin_j m_out d_out m_in d_in N : nat) :
  length (steps_ii i j begin_i begin_j m_out d_out m_in d_in N) = m_out * m_in * N.
Proof.
  unfold steps_ii. rewrite length_bind_seq.
  rewrite (sum_below_ext _ (fun _ => m_in * N)) by (intros; apply length_steps_jj).
  rewrite sum_below_const. lia.
Qed.

(** there are as many steps as weights *)
Lemma length_steps (self : t (F:=F)) : length (steps self) = total_weights self.
Proof.
  unfold steps, total_weights. rewrite length_bind_seq.
  apply sum_below_ext. intros i _. unfold steps_j. rewrite length_bind_seq.
  apply sum_below_ext. intros j _. apply length_steps_ii.
Qed.

(** every step stays inside the kernel *)
Lemma steps_ok (self : t (F:=F)) :
  Forall (step_ok self
            (sum_below (width_out self) (length (multiplicites_out self)))
            (sum_below (width_in self) (length (multiplicites_in self))))
    (steps self).
Proof.
  apply Forall_forall. intros [[[[i j] si] sj] k] Hin.
  unfold steps in Hin.
  apply list_elem_of_bind in Hin as (i' & Hin & Hi). apply elem_of_seq in Hi.
  unfold steps_j in Hin.
  apply list_elem_of_bind in Hin as (j' & Hin & Hj). apply elem_of_seq in Hj.
  unfold steps_ii in Hin.
  apply list_elem_of_bind in Hin as (ii & Hin & Hii). apply elem_of_seq in Hii.
  unfold steps_jj in Hin.
  apply list_elem_of_bind in Hin as (jj & Hin & Hjj). apply elem_of_seq in Hjj.
  unfold steps_k in Hin.
  apply list_elem_of_bind in Hin as (k' & Hin & Hk). apply elem_of_seq in Hk.
  apply list_elem_of_singleton in Hin. injection Hin as -> -> -> -> ->.
  pose proof (sum_below_le (width_out self) (S i') _ (proj2 Hi)) as Ho.
  pose proof (sum_below_le (width_in self) (S j') _ (proj2 Hj)) as Hi'.
  rewrite sum_below_S in Ho, Hi'. unfold width_out at 2 in Ho.
  unfold width_in at 2 in Hi'.
  assert ((ii + 1) * dims_out self !!! i'
          <= multiplicites_out self !!! i' * dims_out self !!! i')
    by (apply Nat.mul_le_mono_r; lia).
  assert ((jj + 1) * dims_in self !!! j'
          <= multiplicites_in self !!! j' * dims_in self !!! j')
    by (apply Nat.mul_le_mono_r; lia).
  cbn [Nat.add] in *.
  unfold step_ok. cbn [fst snd]. repeat split; lia.
Qed.

End StepProperties.

(** ** [forward] *)

Section ForwardProperties.
Import SE3KernelCombination.
Context {F : Type} {SF : Scalar F} {so3 : SO3} {BK : BasisKernels F}.
Variable self : t (F:=F).
Hypothesis Hwf : wf self.

(** [forward] writes along the steps into the fresh storage *)
Lemma forward_run (mem : accessor F) (weight : list F) :
  length weight = nweights self ->
  forward self mem weight
  = run (forward_body self weight) (steps self) 0
      (Tensor (sum_below (width_out self) (length (multiplicites_out self)),
               sum_below (width_in self) (length (multiplicites_in self)),
               size self, size self, size self) mem).
Proof.
  intros Hlen. unfold forward. rewrite Hlen, Nat.eqb_refl. cbn [assert bind].
  destruct Hwf as (Ho & Hi & _).
  rewrite !channels_eq by done. cbn [bind].
  by rewrite loop_i_run.
Qed.

Lemma slice_len_inside (n a b : nat) : b <= n -> slice_len n (a, b) = b - a.
Proof. intros Hb. unfold slice_len. simpl. lia. Qed.

(** one step of [forward] succeeds and keeps the shape *)
Lemma forward_body_ok (weight : list F) (n_out n_in : nat) (st : step)
    (w : nat) (kernel : tensor F) :
  step_ok self n_out n_in st -> w < length weight ->
  shape kernel = (n_out, n_in, size self, size self, size self) ->
  let '(i, j, si, sj, k) := st in
  exists f x,
    elems ((kernels self !!! i) !!! j) !! k = Some f /\ weight !! w = Some x /\
    forward_body self weight i j si sj k w kernel
    = Ok (Tensor (shape kernel)
            (fun a b x' y z =>
               if in_slice si a && in_slice sj b
               then fmul (f (a - fst si) (b - fst sj) x' y z) x
               else entry kernel a b x' y z)).
Proof.
  destruct st as [[[[i j] si] sj] k]. intros (Hi & Hj & Hk & Hsi & Hsi' & Hsj & Hsj') Hw Hshape.
  destruct (lookup_lt_is_Some_2 _ _ Hk) as [f Hf].
  destruct (lookup_lt_is_Some_2 _ _ Hw) as [x Hx].
  exists f, x. split; [done|]. split; [done|].
  unfold forward_body.
  rewrite (index_lt (kernels self) i) by by apply wf_kernel_row. cbn [bind].
  rewrite (index_lt (kernels self !!! i) j) by by apply wf_kernel_col. cbn [bind].
  unfold element. rewrite (index_Some _ _ _ Hf). cbn [bind].
  rewrite (index_Some _ _ _ Hx). cbn [bind].
  unfold setslice, getslice. rewrite Hshape. cbn [shape tscale tmap entry].
  destruct Hwf as (_ & _ & _ & _ & Hes & _). rewrite Hes by done.
  destruct si as [a0 a1], sj as [b0 b1]. cbn [fst snd] in *.
  rewrite !slice_len_inside by done.
  rewrite bool_decide_eq_true_2; [done|].
  repeat f_equal; lia.
Qed.

(** along any list of valid steps [forward] succeeds and keeps the shape *)
Lemma run_forward_ok (weight : list F) (n_out n_in : nat) (l : list step)
    (w : nat) (kernel : tensor F) :
  Forall (step_ok self n_out n_in) l -> w + length l <= length weight ->
  shape kernel = (n_out, n_in, size self, size self, size self) ->
  exists kernel',
    run (forward_body self weight) l w kernel = Ok kernel' /\
    shape kernel' = shape kernel.
Proof.
  revert w kernel. induction l as [|st l IH]; intros w kernel Hok Hw Hshape.
  - by exists kernel.
  - apply Forall_cons in Hok as [Hst Hok]. simpl in Hw.
    pose proof (forward_body_ok weight n_out n_in st w kernel Hst) as Hbody.
    destruct st as [[[[i j] si] sj] k].
    destruct Hbody as (f & x & _ & _ & Hbody); [lia | done |].
    cbn [run]. rewrite Hbody. cbn [bind].
    destruct (IH (w + 1) (Tensor (shape kernel)
      (fun a b x' y z =>
         if in_slice si a && in_slice sj b
         then fmul (f (a - fst si) (b - fst sj) x' y z) x
         else entry kernel a b x' y z))) as (kernel' & Hrun & Hshape');
      [done | lia | done |].
    exists kernel'. split; [done|]. by rewrite Hshape'.
Qed.

(** [forward] returns a kernel of the shape given by the blocks *)
Lemma forward_ok (mem : accessor F) (weight : list F) :
  length weight = nweights self ->
  exists kernel,
    forward self mem weight = Ok kernel /\
    shape kernel
    = (sum_below (width_out self) (length (multiplicites_out self)),
       sum_below (width_in self) (length (multiplicites_in self)),
       size self, size self, size self).
Proof.
  intros Hlen. rewrite forward_run by done.
  destruct (run_forward_ok weight _ _ (steps self) 0
    (Tensor (sum_below (width_out self) (length (multiplicites_out self)),
             sum_below (width_in self) (length (multiplicites_in self)),
             size self, size self, size self) mem) (steps_ok self))
    as (kernel & Hrun & Hshape); [|done|].
  - rewrite length_steps. destruct Hwf as (_ & _ & _ & _ & _ & Hn). lia.
  - by exists kernel.
Qed.

(** a weight of another length is refused before anything is computed *)
Lemma forward_length_mismatch (mem : accessor F) (weight : list F) :
  length weight <> nweights self ->
  forward self mem weight = Err AssertionError.
Proof.
  intros Hlen. unfold forward.
  destruct (Nat.eqb_spec (length weight) (nweights self)); [done|]. done.
Qed.

End ForwardProperties.

(** ** What [forward] leaves in a sub-block *)

Lemma bind_seq_split {A} (f : nat -> list A) (n t : nat) :
  t < n ->
  seq 0 n ≫= f = (seq 0 t ≫= f) ++ f t ++ (seq (S t) (n - S t) ≫= f).
Proof.
  intros Ht. replace n with (t + S (n - S t)) at 1 by lia.
  rewrite seq_app, bind_app. done.
Qed.

Lemma bind_singleton {A B} (f : A -> B) (l : list A) :
  l ≫= (fun x => [f x]) = f <$> l.
Proof. induction l as [|x l IH]; [done|]. csimpl. by rewrite IH. Qed.

Section BlockProperties.
Import SE3KernelCombination.
Context {F : Type} {SF : Scalar F} {so3 : SO3} {BK : BasisKernels F}.
Variable self : t (F:=F).
Variable weight : list F.

(** what a successful step of [forward] has done *)
Lemma forward_body_inv (i j : nat) (si sj : slice) (k w : nat)
    (kernel kernel' : tensor F) :
  forward_body self weight i j si sj k w kernel = Ok kernel' ->
  exists row K f x,
    kernels self !! i = Some row /\ row !! j = Some K /\
    elems K !! k = Some f /\ weight !! w = Some x /\
    forall a b x' y z,
      entry kernel' a b x' y z
      = if in_slice si a && in_slice sj b
        then fmul (f (a - fst si) (b - fst sj) x' y z) x
        else entry kernel a b x' y z.
Proof.
  unfold forward_body. intros Hbody.
  apply bind_Ok_inv in Hbody as (row & Hrow & Hbody).
  apply bind_Ok_inv in Hbody as (K & HK & Hbody).
  apply bind_Ok_inv in Hbody as (B & HB & Hbody).
  apply bind_Ok_inv in Hbody as (x & Hx & Hbody).
  unfold element in HB. apply bind_Ok_inv in HB as (f & Hf & HB).
  injection HB as <-.
  exists row, K, f, x.
  repeat (split; [by apply index_Ok_inv|]).
  unfold setslice in Hbody.
  destruct (bool_decide _); [|done]. by injection Hbody as <-.
Qed.

(** steps that do not cover an entry leave it as it was *)
Lemma run_forward_frame (l : list step) (w : nat) (kernel kernel' : tensor F)
    (r c : nat) :
  Forall (fun st => covers st r c = false) l ->
  run (forward_body self weight) l w kernel = Ok kernel' ->
  forall x y z, entry kernel' r c x y z = entry kernel r c x y z.
Proof.
  revert w kernel. induction l as [|[[[[i j] si] sj] k] l IH];
    intros w kernel Hcov Hrun x y z.
  - by injection Hrun as <-.
  - apply Forall_cons in Hcov as [Hst Hcov]. cbn [run] in Hrun.
    apply bind_Ok_inv in Hrun as (kernel1 & Hbody & Hrun).
    rewrite (IH _ _ Hcov Hrun).
    apply forward_body_inv in Hbody as (row & K & f & v & _ & _ & _ & _ & Hent).
    rewrite Hent. cbn [covers] in Hst. by rewrite Hst.
Qed.

(** after the steps of one sub-block, it holds the last basis element
    times its weight *)
Lemma run_steps_k_last (i j : nat) (si sj : slice) (n w : nat)
    (kernel kernel' : tensor F) (r c : nat) :
  run (forward_body self weight) (steps_k i j si sj (S n)) w kernel = Ok kernel' ->
  in_slice si r && in_slice sj c = true ->
  forall x y z,
    entry kernel' r c x y z
    = fmul ((elems ((kernels self !!! i) !!! j) !!! n) (r - fst si) (c - fst sj) x y z)
           (weight !!! (w + n)).
Proof.
  intros Hrun Hcov x y z. unfold steps_k in Hrun.
  rewrite seq_S, bind_app, run_app in Hrun. simpl in Hrun.
  apply bind_Ok_inv in Hrun as (kernel1 & _ & Hrun).
  apply bind_Ok_inv in Hrun as (kernel2 & Hbody & Hrun).
  injection Hrun as <-.
  apply forward_body_inv in Hbody as (row & K & f & v & Hrow & HK & Hf & Hv & Hent).
  rewrite Hent, Hcov.
  apply list_lookup_total_correct in Hrow, HK. subst row K.
  fold (steps_k i j si sj n) in Hv. rewrite length_steps_k in Hv.
  by rewrite (list_lookup_total_correct _ _ _ Hf),
             (list_lookup_total_correct _ _ _ Hv).
Qed.

End BlockProperties.

Section StepPositions.
Import SE3KernelCombination.
Context {F : Type} {SF : Scalar F} {so3 : SO3} {BK : BasisKernels F}.
Variable self : t (F:=F).

(** the members of a range of iterations, level by level *)
Lemma elem_of_jj_range (i j ii a n : nat) (st : step) :
  st ∈ (seq a n ≫= fun jj =>
          steps_k i j
            (sum_below (width_out self) i + ii * (dims_out self !!! i),
             sum_below (width_out self) i + (ii + 1) * (dims_out self !!! i))
            (sum_below (width_in self) j + jj * (dims_in self !!! j),
             sum_below (width_in self) j + (jj + 1) * (dims_in self !!! j))
            (basis_count self i j)) ->
  exists jj k,
    a <= jj < a + n /\ k < basis_count self i j /\ st = step_of self i j ii jj k.
Proof.
  intros Hin. apply list_elem_of_bind in Hin as (jj & Hin & Hjj).
  apply elem_of_seq in Hjj. unfold steps_k in Hin.
  apply list_elem_of_bind in Hin as (k & Hin & Hk). apply elem_of_seq in Hk.
  apply list_elem_of_singleton in Hin. exists jj, k. split; [done|]. split; [lia|done].
Qed.

Lemma elem_of_ii_range (i j a n : nat) (st : step) :
  st ∈ (seq a n ≫= fun ii =>
          steps_jj i j
            (sum_below (width_out self) i + ii * (dims_out self !!! i),
             sum_below (width_out self) i + (ii + 1) * (dims_out self !!! i))
            (sum_below (width_in self) j)
            (multiplicites_in self !!! j) (dims_in self !!! j)
            (basis_count self i j)) ->
  exists ii jj k,
    a <= ii < a + n /\ jj < multiplicites_in self !!! j /\
    k < basis_count self i j /\ st = step_of self i j ii jj k.
Proof.
  intros Hin. apply list_elem_of_bind in Hin as (ii & Hin & Hii).
  apply elem_of_seq in Hii. unfold steps_jj in Hin.
  apply elem_of_jj_range in Hin as (jj & k & Hjj & Hk & ->).
  exists ii, jj, k. repeat split; try done; lia.
Qed.

Lemma elem_of_j_range (i a n : nat) (st : step) :
  st ∈ (seq a n ≫= fun j =>
          steps_ii i j (sum_below (width_out self) i) (sum_below (width_in self) j)
            (multiplicites_out self !!! i) (dims_out self !!! i)
            (multiplicites_in self !!! j) (dims_in self !!! j)
            (basis_count self i j)) ->
  exists j ii jj k,
    a <= j < a + n /\ ii < multiplicites_out self !!! i /\
    jj < multiplicites_in self !!! j /\
    k < basis_count self i j /\ st = step_of self i j ii jj k.
Proof.
  intros Hin. apply list_elem_of_bind in Hin as (j & Hin & Hj).
  apply elem_of_seq in Hj. unfold steps_ii in Hin.
  apply elem_of_ii_range in Hin as (ii & jj & k & Hii & Hjj & Hk & ->).
  exists j, ii, jj, k. repeat split; try done; lia.
Qed.

Lemma elem_of_i_range (a n : nat) (st : step) :
  a + n <= length (multiplicites_out self) ->
  st ∈ (seq a n ≫= steps_j self) ->
  exists i j ii jj k,
    a <= i < a + n /\ j < length (multiplicites_in self) /\
    ii < multiplicites_out self !!! i /\ jj < multiplicites_in self !!! j /\
    k < basis_count self i j /\ st = step_of self i j ii jj k.
Proof.
  intros Hn Hin. apply list_elem_of_bind in Hin as (i & Hin & Hi).
  apply elem_of_seq in Hi. unfold steps_j in Hin.
  apply elem_of_j_range in Hin as (j & ii & jj & k & Hj & Hii & Hjj & Hk & ->).
  exists i, j, ii, jj, k. repeat split; try done; lia.
Qed.

Lemma in_slice_outside (s : slice) (r : nat) :
  snd s <= r \/ r < fst s -> in_slice s r = false.
Proof.
  intros Hout. unfold in_slice.
  destruct (Nat.leb_spec (fst s) r), (Nat.ltb_spec r (snd s)); try done. lia.
Qed.

Lemma in_slice_inside (s : slice) (r : nat) :
  fst s <= r < snd s -> in_slice s r = true.
Proof.
  intros Hin. unfold in_slice.
  destruct (Nat.leb_spec (fst s) r), (Nat.ltb_spec r (snd s)); try done; lia.
Qed.

(** the sub-blocks of distinct copies or blocks are disjoint *)
Lemma other_step_not_covers (i j ii jj a b : nat) (i' j' ii' jj' k' : nat) :
  ii < multiplicites_out self !!! i -> jj < multiplicites_in self !!! j ->
  a < dims_out self !!! i -> b < dims_in self !!! j ->
  ii' < multiplicites_out self !!! i' -> jj' < multiplicites_in self !!! j' ->
  (i', ii', j', jj') <> (i, ii, j, jj) ->
  covers (step_of self i' j' ii' jj' k')
    (sum_below (width_out self) i + ii * (dims_out self !!! i) + a)
    (sum_below (width_in self) j + jj * (dims_in self !!! j) + b)
  = false.
Proof.
  intros Hii Hjj Ha Hb Hii' Hjj' Hne. unfold covers, step_of.
  set (oo := sum_below (width_out self)). set (oi := sum_below (width_in self)).
  assert (Hoo : forall m, oo (S m) = oo m + (multiplicites_out self !!! m) * (dims_out self !!! m)).
  { intros m. unfold oo. by rewrite sum_below_S. }
  assert (Hoi : forall m, oi (S m) = oi m + (multiplicites_in self !!! m) * (dims_in self !!! m)).
  { intros m. unfold oi. by rewrite sum_below_S. }
  assert (Hmo : forall m n, m <= n -> oo m <= oo n) by (intros; by apply sum_below_le).
  assert (Hmi : forall m n, m <= n -> oi m <= oi n) by (intros; by apply sum_below_le).
  assert (Hrows : (i', ii') <> (i, ii) ->
    in_slice (oo i' + ii' * dims_out self !!! i', oo i' + (ii' + 1) * dims_out self !!! i')
      (oo i + ii * dims_out self !!! i + a) = false).
  { intros Hr. apply in_slice_outside. cbn [fst snd].
    destruct (Nat.lt_trichotomy i' i) as [Hlt|[->|Hgt]].
    - left. specialize (Hmo (S i') i Hlt). rewrite Hoo in Hmo.
      assert ((ii' + 1) * dims_out self !!! i'
              <= multiplicites_out self !!! i' * dims_out self !!! i')
        by (apply Nat.mul_le_mono_r; lia). lia.
    - destruct (Nat.lt_trichotomy ii' ii) as [Hlt|[->|Hgt]]; [|done|].
      + left. assert ((ii' + 1) * dims_out self !!! i <= ii * dims_out self !!! i)
          by (apply Nat.mul_le_mono_r; lia). lia.
      + right. assert ((ii + 1) * dims_out self !!! i <= ii' * dims_out self !!! i)
          by (apply Nat.mul_le_mono_r; lia). lia.
    - right. specialize (Hmo (S i) i' Hgt). rewrite Hoo in Hmo.
      assert ((ii + 1) * dims_out self !!! i
              <= multiplicites_out self !!! i * dims_out self !!! i)
        by (apply Nat.mul_le_mono_r; lia). lia. }
  assert (Hcols : (j', jj') <> (j, jj) ->
    in_slice (oi j' + jj' * dims_in self !!! j', oi j' + (jj' + 1) * dims_in self !!! j')
      (oi j + jj * dims_in self !!! j + b) = false).
  { intros Hc. apply in_slice_outside. cbn [fst snd].
    destruct (Nat.lt_trichotomy j' j) as [Hlt|[->|Hgt]].
    - left. specialize (Hmi (S j') j Hlt). rewrite Hoi in Hmi.
      assert ((jj' + 1) * dims_in self !!! j'
              <= multiplicites_in self !!! j' * dims_in self !!! j')
        by (apply Nat.mul_le_mono_r; lia). lia.
    - destruct (Nat.lt_trichotomy jj' jj) as [Hlt|[->|Hgt]]; [|done|].
      + left. assert ((jj' + 1) * dims_in self !!! j <= jj * dims_in self !!! j)
          by (apply Nat.mul_le_mono_r; lia). lia.
      + right. assert ((jj + 1) * dims_in self !!! j <= jj' * dims_in self !!! j)
          by (apply Nat.mul_le_mono_r; lia). lia.
    - right. specialize (Hmi (S j) j' Hgt). rewrite Hoi in Hmi.
      assert ((jj + 1) * dims_in self !!! j
              <= multiplicites_in self !!! j * dims_in self !!! j)
        by (apply Nat.mul_le_mono_r; lia). lia. }
  destruct (decide ((i', ii') = (i, ii))) as [Heq|Hr].
  - injection Heq as -> ->. rewrite Hcols; [by rewrite andb_false_r|].
    intros [= -> ->]. done.
  - by rewrite Hrows.
Qed.

Lemma own_step_covers (i j ii jj a b k : nat) :
  a < dims_out self !!! i -> b < dims_in self !!! j ->
  covers (step_of self i j ii jj k)
    (sum_below (width_out self) i + ii * (dims_out self !!! i) + a)
    (sum_below (width_in self) j + jj * (dims_in self !!! j) + b)
  = true.
Proof.
  intros Ha Hb. unfold covers, step_of.
  rewrite !in_slice_inside; [done| |]; cbn [fst snd]; lia.
Qed.

End StepPositions.

Section BlockValue.
Import SE3KernelCombination.
Context {F : Type} {SF : Scalar F} {so3 : SO3} {BK : BasisKernels F}.
Variable self : t (F:=F).
Variables i j ii jj a b : nat.
Hypothesis Hi : i < length (multiplicites_out self).
Hypothesis Hj : j < length (multiplicites_in self).
Hypothesis Hii : ii < multiplicites_out self !!! i.
Hypothesis Hjj : jj < multiplicites_in self !!! j.
Hypothesis Ha : a < dims_out self !!! i.
Hypothesis Hb : b < dims_in self !!! j.

(** the steps of a sub-block are consecutive, after as many steps as
    its weight index says, and no other step writes the sub-block *)
Lemma steps_split :
  let r := sum_below (width_out self) i + ii * (dims_out self !!! i) + a in
  let c := sum_below (width_in self) j + jj * (dims_in self !!! j) + b in
  exists P Z,
    steps self
    = P ++ ((fun k => step_of self i j ii jj k) <$> seq 0 (basis_count self i j)) ++ Z /\
    length P = weight_index_of self i j ii jj /\
    Forall (fun st => covers st r c = false) P /\
    Forall (fun st => covers st r c = false) Z.
Proof.
  intros r c.
  set (fj := fun j' =>
    steps_ii i j' (sum_below (width_out self) i) (sum_below (width_in self) j')
      (multiplicites_out self !!! i) (dims_out self !!! i)
      (multiplicites_in self !!! j') (dims_in self !!! j') (basis_count self i j')).
  set (fii := fun ii' =>
    steps_jj i j
      (sum_below (width_out self) i + ii' * (dims_out self !!! i),
       sum_below (width_out self) i + (ii' + 1) * (dims_out self !!! i))
      (sum_below (width_in self) j)
      (multiplicites_in self !!! j) (dims_in self !!! j) (basis_count self i j)).
  set (fjj := fun jj' =>
    steps_k i j
      (sum_below (width_out self) i + ii * (dims_out self !!! i),
       sum_below (width_out self) i + (ii + 1) * (dims_out self !!! i))
      (sum_below (width_in self) j + jj' * (dims_in self !!! j),
       sum_below (width_in self) j + (jj' + 1) * (dims_in self !!! j))
      (basis_count self i j)).
  exists ((seq 0 i ≫= steps_j self) ++ (seq 0 j ≫= fj) ++ (seq 0 ii ≫= fii)
          ++ (seq 0 jj ≫= fjj)).
  exists ((seq (S jj) (multiplicites_in self !!! j - S jj) ≫= fjj)
          ++ (seq (S ii) (multiplicites_out self !!! i - S ii) ≫= fii)
          ++ (seq (S j) (length (multiplicites_in self) - S j) ≫= fj)
          ++ (seq (S i) (length (multiplicites_out self) - S i) ≫= steps_j self)).
  split; [|split; [|split]].
  - unfold steps. rewrite (bind_seq_split _ _ i Hi).
    unfold steps_j at 2. fold fj. rewrite (bind_seq_split fj _ j Hj).
    unfold fj at 2. unfold steps_ii. fold fii. rewrite (bind_seq_split fii _ ii Hii).
    unfold fii at 2. unfold steps_jj. fold fjj. rewrite (bind_seq_split fjj _ jj Hjj).
    unfold fjj at 2. unfold steps_k.
    rewrite (bind_singleton (fun k => step_of self i j ii jj k)).
    by rewrite <- !app_assoc.
  - rewrite !length_app, !length_bind_seq. unfold weight_index_of.
    rewrite (sum_below_ext (fun t => length (steps_j self t))
               (fun i' => sum_below (block_weights self i')
                            (length (multiplicites_in self)))).
    2:{ intros t _. unfold steps_j. rewrite length_bind_seq.
        apply sum_below_ext. intros j' _. apply length_steps_ii. }
    rewrite (sum_below_ext (fun t => length (fj t)) (block_weights self i) j)
      by (intros t _; unfold fj, block_weights; apply length_steps_ii).
    rewrite (sum_below_ext (fun t => length (fii t))
               (fun _ => multiplicites_in self !!! j * basis_count self i j))
      by (intros; apply length_steps_jj).
    rewrite (sum_below_ext (fun t => length (fjj t)) (fun _ => basis_count self i j))
      by (intros; apply length_steps_k).
    rewrite !sum_below_const. lia.
  - rewrite !Forall_app. repeat split; apply Forall_forall; intros st Hin.
    + apply elem_of_i_range in Hin as (i' & j' & ii' & jj' & k' & Hr & _ & ? & ? & _ & ->);
        [|lia].
      apply other_step_not_covers; try done. intros [= -> _ _ _]. lia.
    + unfold fj in Hin.
      apply (elem_of_j_range self i) in Hin as (j' & ii' & jj' & k' & Hr & ? & ? & _ & ->).
      apply other_step_not_covers; try done. intros [= _ -> _]. lia.
    + apply elem_of_ii_range in Hin as (ii' & jj' & k' & Hr & ? & _ & ->).
      apply other_step_not_covers; try done; [lia|]. intros [= -> _]. lia.
    + apply elem_of_jj_range in Hin as (jj' & k' & Hr & _ & ->).
      apply other_step_not_covers; try done; [lia|]. intros [= ->]. lia.
  - rewrite !Forall_app. repeat split; apply Forall_forall; intros st Hin.
    + apply elem_of_jj_range in Hin as (jj' & k' & Hr & _ & ->).
      apply other_step_not_covers; try done; [lia|]. intros [= ->]. lia.
    + apply elem_of_ii_range in Hin as (ii' & jj' & k' & Hr & ? & _ & ->).
      apply other_step_not_covers; try done; [lia|]. intros [= -> _]. lia.
    + unfold fj in Hin.
      apply (elem_of_j_range self i) in Hin as (j' & ii' & jj' & k' & Hr & ? & ? & _ & ->).
      apply other_step_not_covers; try done. intros [= _ -> _]. lia.
    + apply elem_of_i_range in Hin as (i' & j' & ii' & jj' & k' & Hr & _ & ? & ? & _ & ->);
        [|lia].
      apply other_step_not_covers; try done. intros [= -> _ _ _]. lia.
Qed.

(** what [forward] returns in the entry [(a, b)] of the sub-block of the
    copies [(ii, jj)] of the pair of blocks [(i, j)]: without basis
    element, what the storage held; otherwise the last basis element
    times its weight, whatever the elements before *)
Lemma forward_block_value (mem : accessor F) (weight : list F) :
  wf self -> length weight = nweights self ->
  let r := sum_below (width_out self) i + ii * (dims_out self !!! i) + a in
  let c := sum_below (width_in self) j + jj * (dims_in self !!! j) + b in
  exists kernel,
    forward self mem weight = Ok kernel /\
    forall x y z,
      entry kernel r c x y z
      = match basis_count self i j with
        | 0 => mem r c x y z
        | S n =>
            fmul ((elems ((kernels self !!! i) !!! j) !!! n) a b x y z)
                 (weight !!! (weight_index_of self i j ii jj + n))
        end.
Proof.
  intros Hwf Hlen r c.
  destruct (forward_ok self Hwf mem weight Hlen) as (kernel & Hfw & _).
  exists kernel. split; [done|]. intros x y z.
  rewrite forward_run in Hfw by done.
  destruct steps_split as (P & Z & Hsteps & HlenP & HP & HZ).
  fold r in HP, HZ. fold c in HP, HZ.
  rewrite Hsteps, run_app in Hfw.
  apply bind_Ok_inv in Hfw as (k1 & HrunP & Hfw).
  rewrite run_app in Hfw.
  apply bind_Ok_inv in Hfw as (k2 & HrunS & HrunZ).
  rewrite (run_forward_frame self weight Z _ _ _ r c HZ HrunZ).
  destruct (basis_count self i j) as [|n] eqn:HN.
  - injection HrunS as <-.
    by rewrite (run_forward_frame self weight P _ _ _ r c HP HrunP).
  - rewrite <- bind_singleton in HrunS.
    change (seq 0 (S n) ≫= _) with
      (steps_k i j
         (sum_below (width_out self) i + ii * (dims_out self !!! i),
          sum_below (width_out self) i + (ii + 1) * (dims_out self !!! i))
         (sum_below (width_in self) j + jj * (dims_in self !!! j),
          sum_below (width_in self) j + (jj + 1) * (dims_in self !!! j))
         (S n)) in HrunS.
    rewrite (run_steps_k_last self weight _ _ _ _ _ _ _ _ r c HrunS).
    + cbn [fst]. rewrite HlenP. cbn [Nat.add]. do 2 f_equal; unfold r, c; f_equal; lia.
    + apply (own_step_covers self i j ii jj a b 0 Ha Hb).
Qed.

End BlockValue.

(** ** [backward] and the adjoint of the combination *)

Lemma Z_scalar_laws : ScalarLaws Z.
Proof. split; intros; cbn; lia. Qed.

Section Sums.
Context {F : Type} {SF : Scalar F} {SL : ScalarLaws F}.

Lemma fadd_0_r (x : F) : fadd x f0 = x.
Proof. by rewrite fadd_comm, fadd_0_l. Qed.

Lemma fmul_0_r (x : F) : fmul x f0 = f0.
Proof. by rewrite fmul_comm, fmul_0_l. Qed.

Lemma fmul_add_r (x y z : F) : fmul x (fadd y z) = fadd (fmul x y) (fmul x z).
Proof. by rewrite fmul_comm, fmul_add_l, !(fmul_comm x). Qed.

Lemma fold_left_fadd (l : list F) (acc : F) :
  fold_left fadd l acc = fadd acc (fsum l).
Proof.
  unfold fsum. revert acc. induction l as [|x l IH]; intros acc; simpl.
  - by rewrite fadd_0_r.
  - rewrite IH, (IH (fadd f0 x)), fadd_0_l. by rewrite fadd_assoc.
Qed.

Lemma fsum_nil : fsum (F:=F) [] = f0.
Proof. done. Qed.

Lemma fsum_cons (x : F) (l : list F) : fsum (x :: l) = fadd x (fsum l).
Proof. unfold fsum at 1. simpl. by rewrite fold_left_fadd, fadd_0_l. Qed.

Lemma fsum_app (l1 l2 : list F) : fsum (l1 ++ l2) = fadd (fsum l1) (fsum l2).
Proof.
  induction l1 as [|x l1 IH]; simpl.
  - by rewrite fsum_nil, fadd_0_l.
  - by rewrite !fsum_cons, IH, fadd_assoc.
Qed.

Lemma fsum_snoc (l : list F) (x : F) : fsum (l ++ [x]) = fadd (fsum l) x.
Proof. by rewrite fsum_app, fsum_cons, fsum_nil, fadd_0_r. Qed.

Lemma fsum_zero {A} (l : list A) : fsum ((fun _ => f0) <$> l) = f0.
Proof.
  induction l as [|a l IH]; [done|]. cbn [fmap list_fmap].
  by rewrite fsum_cons, IH, fadd_0_l.
Qed.

Lemma fsum_ext {A} (f g : A -> F) (l : list A) :
  (forall a, a ∈ l -> f a = g a) -> fsum (f <$> l) = fsum (g <$> l).
Proof.
  intros Hfg. f_equal. apply list_fmap_ext. intros i a Ha.
  apply Hfg. by eapply list_elem_of_lookup_2.
Qed.

Lemma fsum_add {A} (f g : A -> F) (l : list A) :
  fsum ((fun a => fadd (f a) (g a)) <$> l)
  = fadd (fsum (f <$> l)) (fsum (g <$> l)).
Proof.
  induction l as [|a l IH]; cbn [fmap list_fmap].
  - by rewrite !fsum_nil, fadd_0_l.
  - rewrite !fsum_cons, IH.
    rewrite <- !fadd_assoc. f_equal.
    rewrite !fadd_assoc. f_equal. apply fadd_comm.
Qed.

Lemma fsum_scale {A} (f : A -> F) (w : F) (l : list A) :
  fsum ((fun a => fmul (f a) w) <$> l) = fmul (fsum (f <$> l)) w.
Proof.
  induction l as [|a l IH]; cbn [fmap list_fmap].
  - by rewrite !fsum_nil, fmul_0_l.
  - by rewrite !fsum_cons, IH, fmul_add_l.
Qed.

Lemma fsum_bind {A B} (f : B -> F) (k : A -> list B) (l : list A) :
  fsum (f <$> (l ≫= k)) = fsum ((fun a => fsum (f <$> k a)) <$> l).
Proof.
  induction l as [|a l IH]; [done|]. csimpl.
  by rewrite fmap_app, fsum_app, fsum_cons, IH.
Qed.

(** a sum over a range that vanishes outside a slice is the sum over
    the slice *)
Lemma fsum_slice (G : nat -> F) (n a0 d : nat) :
  a0 + d <= n ->
  fsum ((fun r => if in_slice (a0, a0 + d) r then G (r - a0) else f0) <$> seq 0 n)
  = fsum (G <$> seq 0 d).
Proof.
  intros Hle. replace n with (a0 + (d + (n - a0 - d))) by lia.
  rewrite !seq_app, !fmap_app, !fsum_app. cbn [Nat.add].
  rewrite (fsum_ext _ (fun _ => f0) (seq 0 a0)).
  2:{ intros r Hr. apply elem_of_seq in Hr. unfold in_slice. cbn [fst snd].
      destruct (Nat.leb_spec a0 r); [lia | done]. }
  rewrite (fsum_ext _ (fun _ => f0) (seq (a0 + d) _)).
  2:{ intros r Hr. apply elem_of_seq in Hr. unfold in_slice. cbn [fst snd].
      destruct (Nat.ltb_spec r (a0 + d)); [lia|]. by rewrite andb_false_r. }
  rewrite !fsum_zero, fadd_0_l, fadd_0_r.
  replace (seq a0 d) with (Nat.add a0 <$> seq 0 d)
    by (rewrite fmap_add_seq; f_equal; lia).
  rewrite <- list_fmap_compose.
  apply fsum_ext. intros r Hr. apply elem_of_seq in Hr. cbn.
  unfold in_slice. cbn [fst snd].
  destruct (Nat.leb_spec a0 (a0 + r)); [|lia].
  destruct (Nat.ltb_spec (a0 + r) (a0 + d)); [|lia].
  cbn. f_equal. lia.
Qed.

End Sums.

Section TensorSums.
Context {F : Type} {SF : Scalar F} {SL : ScalarLaws F}.

Lemma fsum3_ext (nx ny nz : nat) (k k' : nat -> nat -> nat -> F) :
  (forall x y z, k x y z = k' x y z) -> fsum3 nx ny nz k = fsum3 nx ny nz k'.
Proof.
  intros Hk. unfold fsum3.
  apply fsum_ext. intros x _. apply fsum_ext. intros y _.
  apply fsum_ext. intros z _. apply Hk.
Qed.

Lemma fsum3_zero (nx ny nz : nat) :
  fsum3 nx ny nz (fun _ _ _ => f0) = f0.
Proof.
  unfold fsum3.
  rewrite (fsum_ext _ (fun _ => f0)); [apply fsum_zero|]. intros x _.
  rewrite (fsum_ext _ (fun _ => f0)); [apply fsum_zero|]. intros y _.
  apply fsum_zero.
Qed.

(** the sum over the entries of a shape, dimension by dimension *)
Lemma fsum_indices (h : shape5 -> F) (n0 n1 nx ny nz : nat) :
  fsum (h <$> indices (n0, n1, nx, ny, nz))
  = fsum ((fun a =>
       fsum ((fun b => fsum3 nx ny nz (fun x y z => h (a, b, x, y, z)))
             <$> seq 0 n1))
      <$> seq 0 n0).
Proof.
  unfold indices, fsum3. rewrite fsum_bind.
  apply fsum_ext. intros a _. rewrite fsum_bind.
  apply fsum_ext. intros b _. rewrite fsum_bind.
  apply fsum_ext. intros x _. rewrite fsum_bind.
  apply fsum_ext. intros y _. rewrite fsum_bind.
  apply fsum_ext. intros z _. cbn [fmap list_fmap].
  by rewrite fsum_cons, fsum_nil, fadd_0_r.
Qed.

(** a double sum that vanishes outside a rectangle *)
Lemma fsum_rect (T : nat -> nat -> F) (n0 n1 a0 d0 b0 d1 : nat) :
  a0 + d0 <= n0 -> b0 + d1 <= n1 ->
  fsum ((fun r =>
     fsum ((fun c =>
        if in_slice (a0, a0 + d0) r && in_slice (b0, b0 + d1) c
        then T (r - a0) (c - b0) else f0) <$> seq 0 n1))
    <$> seq 0 n0)
  = fsum ((fun a => fsum (T a <$> seq 0 d1)) <$> seq 0 d0).
Proof.
  intros H0 H1.
  rewrite <- (fsum_slice (fun a => fsum (T a <$> seq 0 d1)) n0 a0 d0 H0).
  apply fsum_ext. intros r _.
  destruct (in_slice (a0, a0 + d0) r); cbn [andb].
  - apply (fsum_slice (T (r - a0)) n1 b0 d1 H1).
  - apply fsum_zero.
Qed.

Lemma zip_with_same {A B} (f : A -> A -> B) (l : list A) :
  zip_with f l l = (fun a => f a a) <$> l.
Proof. induction l as [|a l IH]; [done|]. cbn. by rewrite IH. Qed.

(** the product of two tensors of one shape, entry by entry *)
Lemma dot_flatten (u v : tensor F) :
  shape u = shape v ->
  dot (flatten u) (flatten v)
  = fsum ((fun idx => fmul (read (entry u) idx) (read (entry v) idx))
          <$> indices (shape u)).
Proof.
  intros Hshape. unfold dot, flatten. rewrite <- Hshape.
  by rewrite zip_with_fmap_l, zip_with_fmap_r, zip_with_same.
Qed.

(** the product against a kernel after [kernel[si, sj] += f * w]: the
    product before, plus the product of [f] against the sub-block,
    times [w] *)
Lemma dot_addslice (g K : tensor F) (f : accessor F) (w : F)
    (n0 n1 nx ny nz a0 d0 b0 d1 : nat) :
  shape g = (n0, n1, nx, ny, nz) -> shape K = (n0, n1, nx, ny, nz) ->
  a0 + d0 <= n0 -> b0 + d1 <= n1 ->
  dot (flatten g)
      (flatten (Tensor (shape K)
         (fun a b x y z =>
            if in_slice (a0, a0 + d0) a && in_slice (b0, b0 + d1) b
            then fadd (entry K a b x y z) (fmul (f (a - a0) (b - b0) x y z) w)
            else entry K a b x y z)))
  = fadd (dot (flatten g) (flatten K))
         (fmul (dot (flatten (Tensor (d0, d1, nx, ny, nz) f))
                    (flatten (getslice g (a0, a0 + d0) (b0, b0 + d1))))
               w).
Proof.
  intros Hg HK H0 H1.
  rewrite !dot_flatten; cbn [shape entry]; [| |congruence|congruence].
  2:{ unfold getslice. rewrite Hg. cbn [shape]. unfold slice_len. cbn [fst snd].
      repeat f_equal; lia. }
  rewrite Hg.
  rewrite (fsum_ext _
    (fun idx => fadd (fmul (read (entry g) idx) (read (entry K) idx))
       (let '(a, b, x, y, z) := idx in
        fmul (entry g a b x y z)
          (if in_slice (a0, a0 + d0) a && in_slice (b0, b0 + d1) b
           then fmul (f (a - a0) (b - b0) x y z) w else f0)))).
  2:{ intros [[[[a b] x] y] z] _. cbn [read].
      destruct (in_slice (a0, a0 + d0) a && in_slice (b0, b0 + d1) b).
      - apply fmul_add_r.
      - by rewrite fmul_0_r, fadd_0_r. }
  rewrite fsum_add. f_equal.
  rewrite <- fsum_scale, !fsum_indices.
  set (T := fun a b => fsum3 nx ny nz (fun x y z =>
     fmul (fmul (f a b x y z) (entry g (a0 + a) (b0 + b) x y z)) w)).
  transitivity (fsum ((fun a => fsum (T a <$> seq 0 d1)) <$> seq 0 d0)).
  2:{ apply fsum_ext. intros a _. apply fsum_ext. intros b _.
      apply fsum3_ext. intros x y z.
      unfold getslice. rewrite Hg. done. }
  rewrite <- (fsum_rect T n0 n1 a0 d0 b0 d1 H0 H1).
  apply fsum_ext. intros a _. apply fsum_ext. intros b _.
  destruct (in_slice (a0, a0 + d0) a) eqn:Ha;
    destruct (in_slice (b0, b0 + d1) b) eqn:Hb; cbn [andb];
    try (etransitivity; [|apply (fsum3_zero nx ny nz)]; apply fsum3_ext; intros;
         apply fmul_0_r).
  apply fsum3_ext. intros x y z.
  unfold in_slice in Ha, Hb. cbn [fst snd] in Ha, Hb.
  apply andb_true_iff in Ha as [Ha _]. apply andb_true_iff in Hb as [Hb _].
  apply Nat.leb_le in Ha, Hb.
  replace (a0 + (a - a0)) with a by lia. replace (b0 + (b - b0)) with b by lia.
  rewrite (fmul_comm (f _ _ _ _ _) (entry g _ _ _ _ _)).
  by rewrite fmul_assoc.
Qed.

End TensorSums.

Section BackwardProperties.
Import SE3KernelCombination.
Context {F : Type} {SF : Scalar F} {so3 : SO3} {BK : BasisKernels F}.
Variable self : t (F:=F).
Hypothesis Hwf : wf self.
Variable grad_kernel : tensor F.
Variables n_out n_in : nat.
Hypothesis Hgrad : shape grad_kernel = (n_out, n_in, size self, size self, size self).

(** one step of [backward] writes the entry of the gradient of its weight *)
Lemma backward_body_ok (st : step) (w : nat) (grad_weight : list F) :
  step_ok self n_out n_in st -> w < length grad_weight ->
  let '(i, j, si, sj, k) := st in
  backward_body self grad_kernel i j si sj k w grad_weight
  = Ok (<[w := step_gradient self grad_kernel st]> grad_weight).
Proof.
  destruct st as [[[[i j] si] sj] k].
  intros (Hi & Hj & Hk & Hsi & Hsi' & Hsj & Hsj') Hw.
  destruct (lookup_lt_is_Some_2 _ _ Hk) as [f Hf].
  unfold backward_body.
  rewrite (index_lt (kernels self) i) by by apply wf_kernel_row. cbn [bind].
  rewrite (index_lt (kernels self !!! i) j) by by apply wf_kernel_col. cbn [bind].
  unfold element. rewrite (index_Some _ _ _ Hf). cbn [bind].
  unfold matmul, flatten. rewrite !length_fmap. cbn [shape].
  assert (Hshape : shape (getslice grad_kernel si sj)
                   = eshape ((kernels self !!! i) !!! j)).
  { unfold getslice. rewrite Hgrad. cbn [shape].
    destruct Hwf as (_ & _ & _ & _ & Hes & _). rewrite Hes by done.
    destruct si as [a0 a1], sj as [b0 b1]. cbn [fst snd] in *.
    unfold slice_len. cbn [fst snd]. repeat f_equal; lia. }
  rewrite Hshape, Nat.eqb_refl. cbn [bind].
  unfold setitem. destruct (Nat.ltb_spec w (length grad_weight)); [|lia].
  unfold step_gradient, dot, flatten. cbn [shape entry].
  by rewrite Hshape, (list_lookup_total_correct _ _ _ Hf).
Qed.

(** along valid steps [backward] fills the gradient in order *)
Lemma run_backward (l : list step) (w : nat) (grad_weight : list F) :
  Forall (step_ok self n_out n_in) l -> w + length l <= length grad_weight ->
  run (backward_body self grad_kernel) l w grad_weight
  = Ok (take w grad_weight ++ (step_gradient self grad_kernel <$> l)
        ++ drop (w + length l) grad_weight).
Proof.
  revert w grad_weight. induction l as [|st l IH]; intros w v Hok Hw.
  - cbn. by rewrite Nat.add_0_r, take_drop.
  - apply Forall_cons in Hok as [Hst Hok]. cbn [length] in Hw.
    pose proof (backward_body_ok st w v Hst) as Hbody.
    destruct st as [[[[i j] si] sj] k]. cbn [run].
    rewrite Hbody by lia. cbn [bind].
    rewrite IH by (try rewrite length_insert; done || lia).
    f_equal. cbn [fmap list_fmap length].
    replace (w + 1) with (S w) by lia.
    rewrite (take_S_r _ _ (step_gradient self grad_kernel (i, j, si, sj, k)))
      by (apply list_lookup_insert_eq; lia).
    rewrite take_insert_ge by lia.
    rewrite drop_insert_lt by lia.
    rewrite <- app_assoc. cbn [app]. do 3 f_equal. f_equal. lia.
Qed.

(** [backward] returns the gradients of the steps, in their order *)
Lemma backward_eq (mem : nat -> F) :
  n_out = sum_below (width_out self) (length (multiplicites_out self)) ->
  n_in = sum_below (width_in self) (length (multiplicites_in self)) ->
  backward self mem grad_kernel
  = Ok (step_gradient self grad_kernel <$> steps self).
Proof.
  intros Ho Hi. unfold backward.
  change (fun i j si sj k weight_index grad_weight => _)
    with (backward_body self grad_kernel).
  rewrite loop_i_run by done.
  assert (Hlen : length (FloatVector mem (nweights self)) = length (steps self)).
  { unfold FloatVector. rewrite length_fmap, length_seq, length_steps.
    by destruct Hwf as (_ & _ & _ & _ & _ & ->). }
  rewrite run_backward.
  - cbn [take Nat.add app]. rewrite <- Hlen, drop_all. by rewrite app_nil_r.
  - subst n_out n_in. apply steps_ok.
  - lia.
Qed.

End BackwardProperties.

Section AdjointProperties.
Import SE3KernelCombination.
Context {F : Type} {SF : Scalar F} {SL : ScalarLaws F} {so3 : SO3}
        {BK : BasisKernels F}.
Variable self : t (F:=F).
Hypothesis Hwf : wf self.
Variable weight : list F.
Variable grad_kernel : tensor F.
Variables n_out n_in : nat.
Hypothesis Hgrad : shape grad_kernel = (n_out, n_in, size self, size self, size self).

(** one step of the accumulating combination adds to the product
    against [grad_kernel] the gradient of the step times its weight *)
Lemma spec_body_ok (st : step) (w : nat) (kernel : tensor F) :
  step_ok self n_out n_in st -> w < length weight ->
  shape kernel = (n_out, n_in, size self, size self, size self) ->
  let '(i, j, si, sj, k) := st in
  exists kernel',
    spec_body self weight i j si sj k w kernel = Ok kernel' /\
    shape kernel' = shape kernel /\
    dot (flatten grad_kernel) (flatten kernel')
    = fadd (dot (flatten grad_kernel) (flatten kernel))
           (fmul (step_gradient self grad_kernel st) (weight !!! w)).
Proof.
  destruct st as [[[[i j] si] sj] k].
  intros (Hi & Hj & Hk & Hsi & Hsi' & Hsj & Hsj') Hw Hshape.
  destruct (lookup_lt_is_Some_2 _ _ Hk) as [f Hf].
  destruct (lookup_lt_is_Some_2 _ _ Hw) as [x Hx].
  unfold spec_body.
  rewrite (index_lt (kernels self) i) by by apply wf_kernel_row. cbn [bind].
  rewrite (index_lt (kernels self !!! i) j) by by apply wf_kernel_col. cbn [bind].
  unfold element. rewrite (index_Some _ _ _ Hf). cbn [bind].
  rewrite (index_Some _ _ _ Hx). cbn [bind].
  pose proof Hwf as (_ & _ & _ & _ & Hes & _).
  destruct si as [a0 a1], sj as [b0 b1]. cbn [fst snd] in *. subst a1 b1.
  destruct kernel as [s e]. cbn [shape] in Hshape. subst s.
  unfold addslice, getslice. cbn [shape tscale tmap entry fst snd].
  rewrite Hes by done.
  rewrite !slice_len_inside by done.
  rewrite bool_decide_eq_true_2 by (repeat f_equal; lia).
  eexists. split; [reflexivity|]. split; [done|].
  pose proof (dot_addslice grad_kernel
             (Tensor (n_out, n_in, size self, size self, size self) e) f x
             n_out n_in (size self) (size self)
             (size self) a0 (dims_out self !!! i) b0 (dims_in self !!! j)
             Hgrad eq_refl Hsi' Hsj') as Hdot.
  cbn [shape entry] in Hdot. unfold amap. rewrite Hdot.
  unfold step_gradient. rewrite Hes by done.
  by rewrite (list_lookup_total_correct _ _ _ Hf),
             (list_lookup_total_correct _ _ _ Hx).
Qed.

(** along valid steps, the product against [grad_kernel] accumulates
    the products of the gradients of the steps and of their weights *)
Lemma run_spec_dot (l : list step) (w : nat) (kernel : tensor F) :
  Forall (step_ok self n_out n_in) l -> w + length l <= length weight ->
  shape kernel = (n_out, n_in, size self, size self, size self) ->
  exists kernel',
    run (spec_body self weight) l w kernel = Ok kernel' /\
    shape kernel' = shape kernel /\
    dot (flatten grad_kernel) (flatten kernel')
    = fold_left fadd
        (zip_with fmul (step_gradient self grad_kernel <$> l) (drop w weight))
        (dot (flatten grad_kernel) (flatten kernel)).
Proof.
  revert w kernel. induction l as [|st l IH]; intros w kernel Hok Hw Hshape.
  - by exists kernel.
  - apply Forall_cons in Hok as [Hst Hok]. cbn [length] in Hw.
    pose proof (spec_body_ok st w kernel Hst) as Hbody.
    destruct st as [[[[i j] si] sj] k].
    destruct Hbody as (kernel1 & Hbody & Hshape1 & Hdot); [lia | done |].
    destruct (IH (w + 1) kernel1 Hok) as (kernel' & Hrun & Hshape' & Hdot');
      [lia | congruence |].
    exists kernel'. cbn [run]. rewrite Hbody. cbn [bind]. split; [done|].
    split; [congruence|].
    rewrite Hdot', Hdot.
    destruct (lookup_lt_is_Some_2 weight w) as [x Hx]; [lia|].
    rewrite (drop_S _ _ _ Hx), (list_lookup_total_correct _ _ _ Hx).
    replace (w + 1) with (S w) by lia. done.
Qed.

(** the product against the kernel of zeros *)
Lemma dot_zero (s : shape5) :
  shape grad_kernel = s ->
  dot (flatten grad_kernel) (flatten (Tensor s (fun _ _ _ _ _ => f0))) = f0.
Proof.
  intros Hs. rewrite dot_flatten by done.
  rewrite (fsum_ext _ (fun _ => f0)); [apply fsum_zero|].
  intros [[[[a b] x] y] z] _. apply fmul_0_r.
Qed.

End AdjointProperties.

(** ** Where [forward] writes once: one basis element per pair of blocks *)

Lemma sum_below_locate (f : nat -> nat) (n r : nat) :
  r < sum_below f n ->
  exists i, i < n /\ sum_below f i <= r < sum_below f i + f i.
Proof.
  induction n as [|n IH]; [unfold sum_below; simpl; lia|].
  rewrite sum_below_S. intros Hr.
  destruct (decide (r < sum_below f n)) as [Hlt|Hge].
  - destruct (IH Hlt) as (i & Hi & Hin). exists i. split; [lia | done].
  - exists n. split; lia.
Qed.

(** a channel of a list of blocks is an entry of a copy of a block *)
Lemma block_locate (ms ds : list nat) (n r : nat) :
  r < sum_below (fun i => (ms !!! i) * (ds !!! i)) n ->
  exists i ii a,
    i < n /\ ii < ms !!! i /\ a < ds !!! i /\
    r = sum_below (fun i => (ms !!! i) * (ds !!! i)) i + ii * (ds !!! i) + a.
Proof.
  intros Hr. apply sum_below_locate in Hr as (i & Hi & Hlo & Hhi).
  set (base := sum_below (fun i => (ms !!! i) * (ds !!! i)) i) in *.
  assert (Hd : ds !!! i <> 0) by (intros Hz; rewrite Hz in Hhi; lia).
  exists i, ((r - base) / (ds !!! i)), ((r - base) mod (ds !!! i)).
  split; [done|]. split; [|split].
  - apply Nat.Div0.div_lt_upper_bound. lia.
  - by apply Nat.mod_upper_bound.
  - pose proof (Nat.div_mod_eq (r - base) (ds !!! i)). lia.
Qed.

Section SpecBlocks.
Import SE3KernelCombination.
Context {F : Type} {SF : Scalar F} {so3 : SO3} {BK : BasisKernels F}.
Variable self : t (F:=F).
Variable weight : list F.

(** what a successful step of the accumulating combination has done *)
Lemma spec_body_inv (i j : nat) (si sj : slice) (k w : nat)
    (kernel kernel' : tensor F) :
  spec_body self weight i j si sj k w kernel = Ok kernel' ->
  exists row K f x,
    kernels self !! i = Some row /\ row !! j = Some K /\
    elems K !! k = Some f /\ weight !! w = Some x /\
    forall a b x' y z,
      entry kernel' a b x' y z
      = if in_slice si a && in_slice sj b
        then fadd (entry kernel a b x' y z)
                  (fmul (f (a - fst si) (b - fst sj) x' y z) x)
        else entry kernel a b x' y z.
Proof.
  unfold spec_body. intros Hbody.
  apply bind_Ok_inv in Hbody as (row & Hrow & Hbody).
  apply bind_Ok_inv in Hbody as (K & HK & Hbody).
  apply bind_Ok_inv in Hbody as (B & HB & Hbody).
  apply bind_Ok_inv in Hbody as (x & Hx & Hbody).
  unfold element in HB. apply bind_Ok_inv in HB as (f & Hf & HB).
  injection HB as <-.
  exists row, K, f, x.
  repeat (split; [by apply index_Ok_inv|]).
  unfold addslice in Hbody.
  destruct (bool_decide _); [|done]. by injection Hbody as <-.
Qed.

Lemma run_spec_frame (l : list step) (w : nat) (kernel kernel' : tensor F)
    (r c : nat) :
  Forall (fun st => covers st r c = false) l ->
  run (spec_body self weight) l w kernel = Ok kernel' ->
  forall x y z, entry kernel' r c x y z = entry kernel r c x y z.
Proof.
  revert w kernel. induction l as [|[[[[i j] si] sj] k] l IH];
    intros w kernel Hcov Hrun x y z.
  - by injection Hrun as <-.
  - apply Forall_cons in Hcov as [Hst Hcov]. cbn [run] in Hrun.
    apply bind_Ok_inv in Hrun as (kernel1 & Hbody & Hrun).
    rewrite (IH _ _ Hcov Hrun).
    apply spec_body_inv in Hbody as (row & K & f & v & _ & _ & _ & _ & Hent).
    rewrite Hent. cbn [covers] in Hst. by rewrite Hst.
Qed.

End SpecBlocks.

Section StepLookup.
Import SE3KernelCombination.
Context {F : Type} {SF : Scalar F} {so3 : SO3} {BK : BasisKernels F}.
Variable self : t (F:=F).
Variables i j ii jj : nat.
Hypothesis Hi : i < length (multiplicites_out self).
Hypothesis Hj : j < length (multiplicites_in self).
Hypothesis Hii : ii < multiplicites_out self !!! i.
Hypothesis Hjj : jj < multiplicites_in self !!! j.

(** the steps of the copies [(ii, jj)] of the pair of blocks [(i, j)]
    come after as many steps as the weight index says *)
Lemma steps_position :
  exists P Z,
    steps self
    = P ++ ((fun k => step_of self i j ii jj k) <$> seq 0 (basis_count self i j)) ++ Z /\
    length P = weight_index_of self i j ii jj.
Proof.
  set (fj := fun j' =>
    steps_ii i j' (sum_below (width_out self) i) (sum_below (width_in self) j')
      (multiplicites_out self !!! i) (dims_out self !!! i)
      (multiplicites_in self !!! j') (dims_in self !!! j') (basis_count self i j')).
  set (fii := fun ii' =>
    steps_jj i j
      (sum_below (width_out self) i + ii' * (dims_out self !!! i),
       sum_below (width_out self) i + (ii' + 1) * (dims_out self !!! i))
      (sum_below (width_in self) j)
      (multiplicites_in self !!! j) (dims_in self !!! j) (basis_count self i j)).
  set (fjj := fun jj' =>
    steps_k i j
      (sum_below (width_out self) i + ii * (dims_out self !!! i),
       sum_below (width_out self) i + (ii + 1) * (dims_out self !!! i))
      (sum_below (width_in self) j + jj' * (dims_in self !!! j),
       sum_below (width_in self) j + (jj' + 1) * (dims_in self !!! j))
      (basis_count self i j)).
  exists ((seq 0 i ≫= steps_j self) ++ (seq 0 j ≫= fj) ++ (seq 0 ii ≫= fii)
          ++ (seq 0 jj ≫= fjj)).
  exists ((seq (S jj) (multiplicites_in self !!! j - S jj) ≫= fjj)
          ++ (seq (S ii) (multiplicites_out self !!! i - S ii) ≫= fii)
          ++ (seq (S j) (length (multiplicites_in self) - S j) ≫= fj)
          ++ (seq (S i) (length (multiplicites_out self) - S i) ≫= steps_j self)).
  split.
  - unfold steps. rewrite (bind_seq_split _ _ i Hi).
    unfold steps_j at 2. fold fj. rewrite (bind_seq_split fj _ j Hj).
    unfold fj at 2. unfold steps_ii. fold fii. rewrite (bind_seq_split fii _ ii Hii).
    unfold fii at 2. unfold steps_jj. fold fjj. rewrite (bind_seq_split fjj _ jj Hjj).
    unfold fjj at 2. unfold steps_k.
    rewrite (bind_singleton (fun k => step_of self i j ii jj k)).
    by rewrite <- !app_assoc.
  - rewrite !length_app, !length_bind_seq. unfold weight_index_of.
    rewrite (sum_below_ext (fun t => length (steps_j self t))
               (fun i' => sum_below (block_weights self i')
                            (length (multiplicites_in self)))).
    2:{ intros t _. unfold steps_j. rewrite length_bind_seq.
        apply sum_below_ext. intros j' _. apply length_steps_ii. }
    rewrite (sum_below_ext (fun t => length (fj t)) (block_weights self i) j)
      by (intros t _; unfold fj, block_weights; apply length_steps_ii).
    rewrite (sum_below_ext (fun t => length (fii t))
               (fun _ => multiplicites_in self !!! j * basis_count self i j))
      by (intros; apply length_steps_jj).
    rewrite (sum_below_ext (fun t => length (fjj t)) (fun _ => basis_count self i j))
      by (intros; apply length_steps_k).
    rewrite !sum_below_const. lia.
Qed.

(** the step that consumes the weight of a basis element *)
Lemma steps_lookup (k : nat) :
  k < basis_count self i j ->
  steps self !! (weight_index_of self i j ii jj + k)
  = Some (step_of self i j ii jj k).
Proof.
  intros Hk. destruct steps_position as (P & Z & -> & <-).
  rewrite lookup_app_r by lia.
  replace (length P + k - length P) with k by lia.
  rewrite lookup_app_l by (rewrite length_fmap, length_seq; lia).
  rewrite list_lookup_fmap, lookup_seq_lt by done. done.
Qed.

End StepLookup.

Section SingleBasis.
Import SE3KernelCombination.
Context {F : Type} {SF : Scalar F} {SL : ScalarLaws F} {so3 : SO3}
        {BK : BasisKernels F}.
Variable self : t (F:=F).
Hypothesis Hwf : wf self.
Variable weight : list F.
Hypothesis Hlen : length weight = nweights self.

(** the accumulating combination runs the steps from the kernel of zeros *)
Lemma combine_spec_run :
  combine_spec self weight
  = run (spec_body self weight) (steps self) 0
      (Tensor (sum_below (width_out self) (length (multiplicites_out self)),
               sum_below (width_in self) (length (multiplicites_in self)),
               size self, size self, size self) (fun _ _ _ _ _ => f0)).
Proof.
  unfold combine_spec. rewrite Hlen, Nat.eqb_refl. cbn [assert bind].
  destruct Hwf as (Ho & Hi & _).
  rewrite !channels_eq by done. cbn [bind].
  by rewrite loop_i_run.
Qed.

(** [backward] is the adjoint of the accumulating combination *)
Lemma spec_adjoint (grad_kernel : tensor F) :
  shape grad_kernel
  = (sum_below (width_out self) (length (multiplicites_out self)),
     sum_below (width_in self) (length (multiplicites_in self)),
     size self, size self, size self) ->
  exists kernel,
    combine_spec self weight = Ok kernel /\
    shape kernel = shape grad_kernel /\
    dot (flatten grad_kernel) (flatten kernel)
    = dot (step_gradient self grad_kernel <$> steps self) weight.
Proof.
  intros Hg. rewrite combine_spec_run.
  destruct (run_spec_dot self Hwf weight grad_kernel _ _ Hg (steps self) 0
              (Tensor (sum_below (width_out self) (length (multiplicites_out self)),
                       sum_below (width_in self) (length (multiplicites_in self)),
                       size self, size self, size self) (fun _ _ _ _ _ => f0)))
    as (kernel & Hrun & Hshape & Hdot).
  - apply steps_ok.
  - rewrite length_steps. destruct Hwf as (_ & _ & _ & _ & _ & Hn). lia.
  - done.
  - exists kernel. split; [done|]. split; [by rewrite Hshape, Hg|].
    rewrite Hdot, (dot_zero grad_kernel _ Hg). by rewrite drop_0.
Qed.

Lemma out_locate (r : nat) :
  r < sum_below (width_out self) (length (multiplicites_out self)) ->
  exists i ii a,
    i < length (multiplicites_out self) /\ ii < multiplicites_out self !!! i /\
    a < dims_out self !!! i /\
    r = sum_below (width_out self) i + ii * (dims_out self !!! i) + a.
Proof. exact (block_locate (multiplicites_out self) (dims_out self) _ r). Qed.

Lemma in_locate (c : nat) :
  c < sum_below (width_in self) (length (multiplicites_in self)) ->
  exists j jj b,
    j < length (multiplicites_in self) /\ jj < multiplicites_in self !!! j /\
    b < dims_in self !!! j /\
    c = sum_below (width_in self) j + jj * (dims_in self !!! j) + b.
Proof. exact (block_locate (multiplicites_in self) (dims_in self) _ c). Qed.

Hypothesis Hone : forall i j,
  i < length (multiplicites_out self) -> j < length (multiplicites_in self) ->
  basis_count self i j = 1.

(** with one basis element per pair of blocks every entry is written
    once, and [forward] returns the accumulated kernel *)
Lemma forward_accumulates (mem : accessor F) :
  exists kernel kernel_s,
    forward self mem weight = Ok kernel /\
    combine_spec self weight = Ok kernel_s /\
    shape kernel = shape kernel_s /\
    shape kernel
    = (sum_below (width_out self) (length (multiplicites_out self)),
       sum_below (width_in self) (length (multiplicites_in self)),
       size self, size self, size self) /\
    forall r c x y z,
      r < sum_below (width_out self) (length (multiplicites_out self)) ->
      c < sum_below (width_in self) (length (multiplicites_in self)) ->
      entry kernel r c x y z = entry kernel_s r c x y z.
Proof.
  destruct (forward_ok self Hwf mem weight Hlen) as (kernel & Hfw & Hshape).
  destruct (spec_adjoint (Tensor
    (sum_below (width_out self) (length (multiplicites_out self)),
     sum_below (width_in self) (length (multiplicites_in self)),
     size self, size self, size self) (fun _ _ _ _ _ => f0)) eq_refl)
    as (kernel_s & Hspec & Hshape_s & _).
  exists kernel, kernel_s. split; [done|]. split; [done|].
  split; [by rewrite Hshape, Hshape_s|]. split; [done|].
  intros r c x y z Hr Hc.
  apply out_locate in Hr as (i & ii & a & Hi & Hii & Ha & ->).
  apply in_locate in Hc as (j & jj & b & Hj & Hjj & Hb & ->).
  destruct (forward_block_value self i j ii jj a b Hi Hj Hii Hjj Ha Hb mem weight
              Hwf Hlen) as (kernel' & Hfw' & Hval).
  rewrite Hfw in Hfw'. injection Hfw' as <-.
  rewrite Hval, (Hone i j Hi Hj).
  rewrite combine_spec_run in Hspec.
  destruct (steps_split self i j ii jj a b Hi Hj Hii Hjj Ha Hb)
    as (P & Z & Hsteps & HlenP & HP & HZ).
  rewrite Hsteps, (Hone i j Hi Hj) in Hspec.
  rewrite run_app in Hspec. apply bind_Ok_inv in Hspec as (k1 & HrunP & Hspec).
  rewrite run_app in Hspec. apply bind_Ok_inv in Hspec as (k2 & Hstep & HrunZ).
  rewrite (run_spec_frame self weight Z _ _ _ _ _ HZ HrunZ).
  cbn [seq fmap list_fmap] in Hstep. unfold step_of in Hstep. cbn [run] in Hstep.
  apply bind_Ok_inv in Hstep as (k3 & Hbody & Heq). injection Heq as <-.
  apply spec_body_inv in Hbody as (row & K & f & v & Hrow & HK & Hf & Hv & Hent).
  rewrite Hent.
  pose proof (own_step_covers self i j ii jj a b 0 Ha Hb) as Hcov.
  unfold step_of, covers in Hcov. rewrite Hcov.
  rewrite (run_spec_frame self weight P _ _ _ _ _ HP HrunP).
  cbn [entry fst]. rewrite fadd_0_l.
  apply list_lookup_total_correct in Hrow, HK. subst row K.
  rewrite (list_lookup_total_correct _ _ _ Hf).
  cbn [Nat.add] in Hv. rewrite HlenP in Hv.
  rewrite Nat.add_0_r, (list_lookup_total_correct _ _ _ Hv).
  do 2 f_equal; lia.
Qed.

End SingleBasis.

(** ** The claims on the basis and on the kernel combination *)

Section KernelClaims.
Import SE3KernelCombination.
Context {F : Type} {SF : Scalar F} {so3 : SO3} {BK : BasisKernels F}.

Lemma width_out_kept (Rs : list (nat * repr)) :
  sum_below (fun i => ((fst <$> Rs) !!! i) * (((fun mR => dim (snd mR)) <$> Rs) !!! i))
    (length Rs)
  = channels_of Rs.
Proof.
  unfold channels_of.
  rewrite <- (sum_below_lookup (fun mR => fst mR * dim (snd mR)) Rs).
  apply sum_below_ext. intros i Hi.
  rewrite (list_lookup_total_fmap fst Rs i Hi).
  by rewrite (list_lookup_total_fmap (fun mR => dim (snd mR)) Rs i Hi).
Qed.



(** C4: the precomputed number of weights is the sum over the pairs of
    blocks [(i, j)] of [multiplicity_out i * multiplicity_in j *
    basis_count i j], and [forward] refuses a weight of any other length
    with the failed assertion, returning no kernel. *)
Theorem nweights_total_and_checked (size : nat) (Rs_out Rs_in : list (nat * repr))
    (M : nat) (central_base : bool) :
  exists self,
    init size Rs_out Rs_in M central_base = Ok self /\
    multiplicites_out self = fst <$> kept Rs_out /\
    multiplicites_in self = fst <$> kept Rs_in /\
    nweights self
    = sum_below
        (fun i => sum_below
           (fun j => (multiplicites_out self !!! i) * (multiplicites_in self !!! j)
                     * basis_count self i j)
           (length (multiplicites_in self)))
        (length (multiplicites_out self)) /\
    forall mem weight,
      length weight <> nweights self ->
      forward self mem weight = Err AssertionError.
Proof.
  destruct (init_eq size Rs_out Rs_in M central_base) as (n & Hinit & Hwf).
  eexists. split; [exact Hinit|]. split; [done|]. split; [done|]. split.
  - by destruct Hwf as (_ & _ & _ & _ & _ & Hn).
  - intros mem weight Hlen. by apply forward_length_mismatch.
Qed.

(** C9: for a weight of the expected length [forward] returns a kernel
    of shape [(sum_i m_out_i * dim_out_i, sum_j m_in_j * dim_in_j, size,
    size, size)], the sums ranging over the entries of the
    representation lists of multiplicity at least one; the weight does
    not occur in the shape. *)
Theorem forward_shape (size : nat) (Rs_out Rs_in : list (nat * repr))
    (M : nat) (central_base : bool) :
  exists self,
    init size Rs_out Rs_in M central_base = Ok self /\
    forall mem weight,
      length weight = nweights self ->
      exists kernel,
        forward self mem weight = Ok kernel /\
        shape kernel
        = (channels_of (kept Rs_out), channels_of (kept Rs_in), size, size, size).
Proof.
  destruct (init_eq size Rs_out Rs_in M central_base) as (n & Hinit & Hwf).
  eexists. split; [exact Hinit|]. intros mem weight Hlen.
  destruct (forward_ok _ Hwf mem weight Hlen) as (kernel & Hfw & Hshape).
  exists kernel. split; [done|]. rewrite Hshape.
  unfold width_out, width_in.
  cbn [SE3KernelCombination.size multiplicites_out multiplicites_in dims_out dims_in].
  rewrite !length_fmap. by rewrite !width_out_kept.
Qed.

End KernelClaims.

(** ** The kernel combination on concrete inputs *)

Section KernelExamples.
Import SE3KernelCombination Examples.
#[local] Existing Instance SO3_orders.
#[local] Existing Instance basis_kernels.

(** C1: where the pair of blocks has three basis elements, the kernel
    that [forward] returns holds the last element times its weight and
    not the sum over the elements: with the unit tensors [e0], [e1], [e2]
    as basis and the weight [[1; 2; 3]] on storage that holds zeros, the
    code returns [3 * e2], the accumulation of the specification is
    [1 * e0 + 2 * e1 + 3 * e2]. *)
Theorem forward_keeps_last_basis_element :
  (self <- init 2 [(1, 1)] [(1, 0)] 15 true ;;
   kernel <- forward self (filled 0) [1; 2; 3]%Z ;;
   Ok (basis_count self 0 0, shape kernel, flatten kernel))
  = Ok (3, (3, 1, 2, 2, 2),
        [0; 0; 0; 0; 0; 0; 0; 0;  0; 0; 0; 0; 0; 0; 0; 0;  3; 0; 0; 0; 0; 0; 0; 0]%Z)
  /\
  (self <- init 2 [(1, 1)] [(1, 0)] 15 true ;;
   kernel <- combine_spec self [1; 2; 3]%Z ;;
   Ok (shape kernel, flatten kernel))
  = Ok ((3, 1, 2, 2, 2),
        [1; 0; 0; 0; 0; 0; 0; 0;  2; 0; 0; 0; 0; 0; 0; 0;  3; 0; 0; 0; 0; 0; 0; 0]%Z).
Proof. split; vm_compute; reflexivity. Qed.

(** C2: on the same object, with the weight [w = [1; 2; 3]] and the
    gradient [g] of ones, [dot (backward g) w] is 6 and
    [dot g (forward w)] is 3: [backward] is not the adjoint of
    [forward]; it is the adjoint of the accumulating combination, for
    which the second product is 6 as well. *)
Theorem backward_not_adjoint_of_forward :
  let w := [1; 2; 3]%Z in
  let g := Tensor (3, 1, 2, 2, 2) (filled 1) in
  (self <- init 2 [(1, 1)] [(1, 0)] 15 true ;;
   kernel <- forward self (filled 0) w ;;
   grad_weight <- backward self (fun _ => 0%Z) g ;;
   lhs <- matmul grad_weight w ;;
   rhs <- matmul (flatten g) (flatten kernel) ;;
   Ok (grad_weight, lhs, rhs))
  = Ok ([1; 1; 1]%Z, 6%Z, 3%Z)
  /\
  (self <- init 2 [(1, 1)] [(1, 0)] 15 true ;;
   kernel <- combine_spec self w ;;
   matmul (flatten g) (flatten kernel))
  = Ok 6%Z.
Proof. split; vm_compute; reflexivity. Qed.

(** C3: a pair of blocks without basis element has no weight, and
    [forward] never writes its sub-block: the kernel returned holds
    there what the fresh storage held, here ones and not zeros. *)
Theorem forward_leaves_empty_pair_unwritten :
  (self <- init 2 [(1, 0)] [(1, 0)] 15 true ;;
   kernel <- forward self (filled 1) [] ;;
   Ok (basis_count self 0 0, nweights self, shape kernel, flatten kernel))
  = Ok (0, 0, (1, 1, 2, 2, 2), [1; 1; 1; 1; 1; 1; 1; 1]%Z).
Proof. vm_compute. reflexivity. Qed.

(** C4 at an input: three weights are expected, two are refused. *)
Lemma nweights_total_and_checked_witness :
  exists self,
    init 2 [(1, 1)] [(1, 0)] 15 true = Ok self /\
    nweights self = 3 /\
    forward self (filled 0) [1; 2]%Z = Err AssertionError.
Proof.
  destruct (nweights_total_and_checked (so3:=SO3_orders) 2 [(1, 1)] [(1, 0)] 15 true)
    as (self & Hinit & _ & _ & _ & Hlen).
  assert (Hn : nweights self = 3).
  { vm_compute in Hinit. injection Hinit as <-. reflexivity. }
  exists self. split; [exact Hinit|]. split; [exact Hn|].
  apply Hlen. rewrite Hn. simpl. lia.
Defined.

(** C9 at an input: the entry of multiplicity zero adds no channel. *)
Lemma forward_shape_witness :
  exists self kernel,
    init 2 [(1, 1); (0, 2)] [(1, 0)] 15 true = Ok self /\
    forward self (filled 0) [1; 2; 3]%Z = Ok kernel /\
    shape kernel = (3, 1, 2, 2, 2).
Proof.
  destruct (forward_shape (so3:=SO3_orders) 2 [(1, 1); (0, 2)] [(1, 0)] 15 true)
    as (self & Hinit & Hfw).
  assert (Hn : nweights self = 3).
  { vm_compute in Hinit. injection Hinit as <-. reflexivity. }
  destruct (Hfw (filled 0) [1; 2; 3]%Z) as (kernel & Hk & Hs).
  { rewrite Hn. reflexivity. }
  exists self, kernel. split; [exact Hinit|]. split; [exact Hk|].
  rewrite Hs. reflexivity.
Defined.



End KernelExamples.

(** ** The gated activation *)

Section GatedClaims.
Import GatedActivation.
Context {F : Type} {SF : Scalar F} {so3 : SO3} {CV : Convolutions F}.


(** the loop of [forward] passes over the entries of multiplicity zero *)
Lemma for_enumerate_zero (self : t (F:=F)) (x : tensor F) (g : option (tensor F))
    (l : list nat) (n : nat) (st : loop_state) :
  Forall (fun m => m = 0) l ->
  for_enumerate n l st (block self x g) = Ok st.
Proof.
  intros Hl. revert n. induction Hl as [|m l -> _ IH]; intros n; [done|].
  cbn [for_enumerate]. unfold block at 1.
  destruct (shape x) as [[[[nb nc] nx] ny] nz].
  destruct st as [[bx bg] zs]. cbn [Nat.eqb bind]. apply IH.
Qed.

(** C10: when every multiplicity of the representation list is zero,
    [forward] fails on every input; said otherwise, a call of [forward]
    that returns has a multiplicity that is not zero. *)
Theorem forward_fails_without_capsule (self : t (F:=F)) (x : tensor F) :
  (Forall (fun m => m = 0) (repr_in self) -> exists e, forward self x = Err e) /\
  (forall out, forward self x = Ok out -> Exists (fun m => m <> 0) (repr_in self)).
Proof.
  assert (Hfail : Forall (fun m => m = 0) (repr_in self) ->
                  exists e, forward self x = Err e).
  { intros Hall. unfold forward.
    destruct (match gates self with
              | Some gates0 => g <- gates0 x ;; Ok (Some g)
              | None => Ok None
              end) as [g|e]; cbn [bind]; [|by eexists].
    rewrite for_enumerate_zero by done. cbn. by eexists. }
  split; [done|]. intros out Hout.
  destruct (Forall_Exists_dec (fun m => m = 0) (fun m => m <> 0)
              (fun m => Nat.eq_dec m 0) (repr_in self)) as [Hall|Hex]; [|done].
  destruct (Hfail Hall) as [e He]. congruence.
Qed.

End GatedClaims.

(** ** Views of contiguous storage *)

Lemma div_mod_step (a b n : nat) :
  b < n -> (a * n + b) / n = a /\ (a * n + b) mod n = b.
Proof.
  intros Hb. split.
  - rewrite Nat.div_add_l by lia. rewrite Nat.div_small by done. lia.
  - rewrite Nat.add_comm, Nat.Div0.mod_add. by apply Nat.mod_small.
Qed.

Section ViewProperties.
Import GatedActivation.
Context {F : Type} {SF : Scalar F}.

Lemma unravel5_ravel5 (s0 s1 s2 s3 s4 i0 i1 i2 i3 i4 : nat) :
  i1 < s1 -> i2 < s2 -> i3 < s3 -> i4 < s4 ->
  unravel5 (s0, s1, s2, s3, s4) (ravel5 (s0, s1, s2, s3, s4) (i0, i1, i2, i3, i4))
  = (i0, i1, i2, i3, i4).
Proof.
  intros H1 H2 H3 H4. unfold unravel5, ravel5.
  destruct (div_mod_step (((i0 * s1 + i1) * s2 + i2) * s3 + i3) i4 s4 H4) as [-> ->].
  destruct (div_mod_step ((i0 * s1 + i1) * s2 + i2) i3 s3 H3) as [-> ->].
  destruct (div_mod_step (i0 * s1 + i1) i2 s2 H2) as [-> ->].
  destruct (div_mod_step i0 i1 s1 H1) as [-> ->]. done.
Qed.

Lemma unravel6_ravel6 (s0 s1 s2 s3 s4 s5 i0 i1 i2 i3 i4 i5 : nat) :
  i1 < s1 -> i2 < s2 -> i3 < s3 -> i4 < s4 -> i5 < s5 ->
  unravel6 (s0, s1, s2, s3, s4, s5)
    (ravel6 (s0, s1, s2, s3, s4, s5) (i0, i1, i2, i3, i4, i5))
  = (i0, i1, i2, i3, i4, i5).
Proof.
  intros H1 H2 H3 H4 H5. unfold unravel6, ravel6.
  destruct (div_mod_step ((((i0 * s1 + i1) * s2 + i2) * s3 + i3) * s4 + i4) i5 s5 H5)
    as [-> ->].
  destruct (div_mod_step (((i0 * s1 + i1) * s2 + i2) * s3 + i3) i4 s4 H4) as [-> ->].
  destruct (div_mod_step ((i0 * s1 + i1) * s2 + i2) i3 s3 H3) as [-> ->].
  destruct (div_mod_step (i0 * s1 + i1) i2 s2 H2) as [-> ->].
  destruct (div_mod_step i0 i1 s1 H1) as [-> ->]. done.
Qed.

(** the channels of a tensor seen as [m] capsules of [d] entries *)
Lemma view6_capsules (t : tensor F) (nb m d nx ny nz : nat) :
  shape t = (nb, m * d, nx, ny, nz) ->
  exists v,
    view6 t (nb, m, d, nx, ny, nz) = Ok v /\
    shape_6 v = (nb, m, d, nx, ny, nz) /\
    forall b f r x y z,
      f < m -> r < d -> x < nx -> y < ny -> z < nz ->
      entry_6 v b f r x y z = entry t b (f * d + r) x y z.
Proof.
  intros Hshape. unfold view6. rewrite Hshape. cbn [numel numel6].
  rewrite (proj2 (Nat.eqb_eq _ _)) by lia.
  eexists. split; [reflexivity|]. split; [done|].
  intros b f r x y z Hf Hr Hx Hy Hz. cbn [entry_6].
  assert (Hravel : ravel6 (nb, m, d, nx, ny, nz) (b, f, r, x, y, z)
                   = ravel5 (nb, m * d, nx, ny, nz) (b, f * d + r, x, y, z)).
  { unfold ravel6, ravel5. do 3 f_equal. lia. }
  rewrite Hravel, unravel5_ravel5; [done| |done..].
  apply Nat.lt_le_trans with (f * d + d); [lia|].
  replace (f * d + d) with ((f + 1) * d) by lia.
  apply Nat.mul_le_mono_r. lia.
Qed.

(** the capsules seen again as channels *)
Lemma view5_channels (v : tensor6 F) (nb m d nx ny nz : nat) :
  shape_6 v = (nb, m, d, nx, ny, nz) -> 0 < d ->
  exists t,
    view5 v (nb, m * d, nx, ny, nz) = Ok t /\
    shape t = (nb, m * d, nx, ny, nz) /\
    forall b c x y z,
      c < m * d -> x < nx -> y < ny -> z < nz ->
      entry t b c x y z = entry_6 v b (c / d) (c mod d) x y z.
Proof.
  intros Hshape Hd. unfold view5. rewrite Hshape. cbn [numel numel6].
  rewrite (proj2 (Nat.eqb_eq _ _)) by lia.
  eexists. split; [reflexivity|]. split; [done|].
  intros b c x y z Hc Hx Hy Hz. cbn [entry].
  assert (Hravel : ravel5 (nb, m * d, nx, ny, nz) (b, c, x, y, z)
                   = ravel6 (nb, m, d, nx, ny, nz) (b, c / d, c mod d, x, y, z)).
  { unfold ravel6, ravel5. do 3 f_equal.
    pose proof (Nat.div_mod_eq c d). lia. }
  rewrite Hravel, unravel6_ravel6; [done| | |done..].
  - apply Nat.Div0.div_lt_upper_bound. lia.
  - apply Nat.mod_upper_bound. lia.
Qed.

(** a gate per capsule, broadcast over the entries of the capsule *)
Lemma mul_broadcast_gate (u v : tensor6 F) (nb m d nx ny nz : nat) :
  shape_6 u = (nb, m, d, nx, ny, nz) ->
  shape_6 v = (nb, m, 1, nx, ny, nz) ->
  exists p,
    mul_broadcast u v = Ok p /\
    shape_6 p = (nb, m, d, nx, ny, nz) /\
    forall b f r x y z,
      b < nb -> f < m -> r < d -> x < nx -> y < ny -> z < nz ->
      entry_6 p b f r x y z
      = fmul (entry_6 u b f r x y z) (entry_6 v b f 0 x y z).
Proof.
  intros Hu Hv. unfold mul_broadcast. rewrite Hu, Hv.
  assert (Hsame : forall n, broadcast_dim n n = Ok n).
  { intros n. unfold broadcast_dim. by rewrite Nat.eqb_refl. }
  assert (Hone : broadcast_dim d 1 = Ok d).
  { unfold broadcast_dim. destruct (Nat.eqb_spec d 1) as [->|]; done. }
  rewrite !Hsame, Hone. cbn [bind].
  eexists. split; [reflexivity|]. split; [done|].
  intros b f r x y z Hb Hf Hr Hx Hy Hz. cbn [entry_6].
  assert (Hpick : forall n i, i < n -> (if n =? 1 then 0 else i) = i).
  { intros n i Hi. destruct (Nat.eqb_spec n 1); lia. }
  rewrite !Hpick by done. done.
Qed.

End ViewProperties.

(** ** [GatedActivation.forward] *)

Section GatedForward.
Import GatedActivation.
Context {F : Type} {SF : Scalar F} {so3 : SO3} {CV : Convolutions F}.

(** the rule of the invariant for a loop over [enumerate] *)
Lemma for_enumerate_inv {A St} (Inv : nat -> St -> Prop) (l : list A) (n0 : nat)
    (s : St) (body : nat -> A -> St -> res St) :
  Inv n0 s ->
  (forall k a s, l !! k = Some a -> Inv (n0 + k) s ->
     exists s', body (n0 + k) a s = Ok s' /\ Inv (n0 + k + 1) s') ->
  exists s', for_enumerate n0 l s body = Ok s' /\ Inv (n0 + length l) s'.
Proof.
  revert n0 s. induction l as [|a l IH]; intros n0 s H0 Hstep.
  - exists s. split; [done|]. simpl. by rewrite Nat.add_0_r.
  - destruct (Hstep 0 a s) as (s1 & Hbody & Hinv); [done | by rewrite Nat.add_0_r |].
    rewrite Nat.add_0_r in Hbody, Hinv.
    destruct (IH (n0 + 1) s1 Hinv) as (s2 & Hrun & Hinv2).
    { intros k a' s' Hk Hi.
      replace (n0 + 1 + k) with (n0 + S k) in * by lia. by apply Hstep. }
    exists s2. cbn [for_enumerate]. rewrite Hbody. cbn [bind].
    split; [done|]. simpl. by replace (n0 + S (length l)) with (n0 + 1 + length l) by lia.
Qed.

Lemma cat_singleton (z : tensor F) : cat [z] = Ok z.
Proof. done. Qed.

Lemma cat_snoc (zs : list (tensor F)) (z acc : tensor F) :
  cat zs = Ok acc -> cat (zs ++ [z]) = cat2 acc z.
Proof.
  destruct zs as [|z0 zs]; [done|]. cbn [cat app].
  rewrite foldl_app. cbn [foldl]. by intros ->.
Qed.

(** a block put after the blocks accumulated so far *)
Lemma cat2_after (acc z : tensor F) (nb c1 c2 nx ny nz : nat) :
  shape acc = (nb, c1, nx, ny, nz) -> shape z = (nb, c2, nx, ny, nz) ->
  exists out,
    cat2 acc z = Ok out /\
    shape out = (nb, c1 + c2, nx, ny, nz) /\
    (forall b c i j k, c < c1 -> entry out b c i j k = entry acc b c i j k) /\
    (forall b c i j k, entry out b (c1 + c) i j k = entry z b c i j k).
Proof.
  intros Hacc Hz. unfold cat2. rewrite Hacc, Hz.
  rewrite bool_decide_eq_true_2 by done.
  eexists. split; [reflexivity|]. split; [done|]. cbn [entry]. split.
  - intros b c i j k Hc. destruct (Nat.ltb_spec c c1); [done | lia].
  - intros b c i j k. destruct (Nat.ltb_spec (c1 + c) c1); [lia|].
    by rewrite Nat.add_comm, Nat.add_sub.
Qed.

Lemma channel_slice_inside (t : tensor F) (nb nc nx ny nz a w : nat) :
  shape t = (nb, nc, nx, ny, nz) -> a + w <= nc ->
  shape (channel_slice t (a, a + w)) = (nb, w, nx, ny, nz) /\
  forall b c i j k,
    entry (channel_slice t (a, a + w)) b c i j k = entry t b (a + c) i j k.
Proof.
  intros Hshape Hle. unfold channel_slice. rewrite Hshape. cbn [shape entry fst].
  split; [|done]. unfold slice_len. cbn [fst snd]. do 4 f_equal. lia.
Qed.

(** a block of capsules of order [n >= 1] multiplied by its gates *)
Lemma block_gated (self : t (F:=F)) (x g : tensor F) (n mul : nat)
    (begin_x begin_g : nat) (zs : list (tensor F)) (nb nc ng nx ny nz : nat) :
  shape x = (nb, nc, nx, ny, nz) -> shape g = (nb, ng, nx, ny, nz) ->
  n <> 0 -> mul <> 0 ->
  begin_x + mul * (2 * n + 1) <= nc -> begin_g + mul <= ng ->
  exists field,
    block self x (Some g) n mul (begin_x, begin_g, zs)
    = Ok (begin_x + mul * (2 * n + 1), begin_g + mul, zs ++ [field]) /\
    shape field = (nb, mul * (2 * n + 1), nx, ny, nz) /\
    forall b f r i j k,
      b < nb -> f < mul -> r < 2 * n + 1 -> i < nx -> j < ny -> k < nz ->
      entry field b (f * (2 * n + 1) + r) i j k
      = fmul (entry x b (begin_x + (f * (2 * n + 1) + r)) i j k)
             (entry g b (begin_g + f) i j k).
Proof.
  intros Hx Hg Hn Hmul Hbx Hbg. unfold block. rewrite Hx.
  destruct (Nat.eqb_spec mul 0) as [|_]; [done|].
  destruct (Nat.eqb_spec n 0) as [|_]; [done|].
  set (d := 2 * n + 1) in *.
  destruct (channel_slice_inside x nb nc nx ny nz begin_x (mul * d) Hx Hbx)
    as [Hsx Hex].
  destruct (channel_slice_inside g nb ng nx ny nz begin_g mul Hg Hbg)
    as [Hsg Heg].
  destruct (view6_capsules _ nb mul d nx ny nz Hsx) as (x6 & -> & Hx6 & Hex6).
  cbn [bind].
  assert (Hsg' : shape (channel_slice g (begin_g, begin_g + mul))
                 = (nb, mul * 1, nx, ny, nz)) by (by rewrite Nat.mul_1_r).
  destruct (view6_capsules _ nb mul 1 nx ny nz Hsg') as (g6 & -> & Hg6 & Heg6).
  cbn [bind].
  destruct (mul_broadcast_gate x6 g6 nb mul d nx ny nz Hx6 Hg6)
    as (p & -> & Hp & Hep).
  cbn [bind].
  destruct (view5_channels p nb mul d nx ny nz Hp) as (field & -> & Hf & Hef);
    [unfold d; lia|].
  cbn [bind]. exists field. split; [done|]. split; [done|].
  intros b f r i j k Hb Hfm Hr Hi Hj Hk.
  assert (Hc : f * d + r < mul * d).
  { apply Nat.lt_le_trans with (f * d + d); [lia|].
    replace (f * d + d) with ((f + 1) * d) by lia.
    apply Nat.mul_le_mono_r. lia. }
  destruct (div_mod_step f r d Hr) as [Hdiv Hmod].
  rewrite Hef, Hdiv, Hmod by done.
  rewrite Hep, Hex6, Heg6, Hex, Heg by (done || lia).
  do 3 f_equal. lia.
Qed.

End GatedForward.

Section GatedBlocks.
Import GatedActivation.
Context {F : Type} {SF : Scalar F} {so3 : SO3} {CV : Convolutions F}.
Variables (self : t (F:=F)) (x : tensor F) (g : option (tensor F)).
Variables (nb nc nx ny nz : nat).
Hypothesis Hx : shape x = (nb, nc, nx, ny, nz).

Lemma offset_x_S (n : nat) :
  offset_x (repr_in self) (S n)
  = offset_x (repr_in self) n + (repr_in self !!! n) * (2 * n + 1).
Proof. unfold offset_x. by rewrite sum_below_S. Qed.

Lemma offset_x_le (m n : nat) :
  m <= n -> offset_x (repr_in self) m <= offset_x (repr_in self) n.
Proof. apply sum_below_le. Qed.

Lemma offset_x_zero (m n : nat) :
  offset_x (repr_in self) n = 0 -> m < n -> repr_in self !!! m = 0.
Proof.
  intros Hz Hm. pose proof (offset_x_le (S m) n Hm) as Hle.
  rewrite offset_x_S in Hle. nia.
Qed.

(** a tensor that agrees with [acc] on the channels of the block of order
    [m] holds the same block *)
Lemma block_spec_agree (acc out : tensor F) (m : nat) :
  (forall b c i j k, c < offset_x (repr_in self) (S m) ->
     entry out b c i j k = entry acc b c i j k) ->
  block_spec self x g acc m -> block_spec self x g out m.
Proof.
  intros Hagree. unfold block_spec. rewrite Hx. destruct m as [|m].
  - intros Hacc b c i j k Hc. rewrite Hagree; [by apply Hacc|].
    unfold offset_x, sum_below. simpl. lia.
  - intros Hacc b f r i j k Hb Hf Hr Hi Hj Hk. cbv zeta.
    rewrite Hagree; [by apply Hacc|].
    rewrite (offset_x_S (S m)).
    assert ((f + 1) * (2 * S m + 1) <= repr_in self !!! S m * (2 * S m + 1))
      by (apply Nat.mul_le_mono_r; lia).
    lia.
Qed.

Lemma accumulated_skip (n : nat) (zs : list (tensor F)) :
  repr_in self !!! n = 0 -> accumulated self x g nb nx ny nz n zs -> accumulated self x g nb nx ny nz (S n) zs.
Proof.
  intros Hz. unfold accumulated. rewrite offset_x_S, Hz, Nat.mul_0_l, Nat.add_0_r.
  intros [Hempty|(Hpos & acc & Hcat & Hshape & Hblocks)]; [by left|].
  right. split; [done|]. exists acc. split; [done|]. split; [done|].
  intros m Hm Hne. apply Hblocks; [|done].
  destruct (Nat.eq_dec m n) as [->|]; [done | lia].
Qed.

Lemma accumulated_append (n : nat) (zs : list (tensor F)) (field : tensor F) :
  repr_in self !!! n <> 0 ->
  accumulated self x g nb nx ny nz n zs ->
  shape field = (nb, (repr_in self !!! n) * (2 * n + 1), nx, ny, nz) ->
  (forall out,
     (forall b c i j k,
        entry out b (offset_x (repr_in self) n + c) i j k = entry field b c i j k) ->
     block_spec self x g out n) ->
  accumulated self x g nb nx ny nz (S n) (zs ++ [field]).
Proof.
  intros Hne Hacc Hshape Hnew. unfold accumulated in *.
  rewrite offset_x_S.
  right. split; [nia|].
  destruct Hacc as [[-> Hzero]|(Hpos & acc & Hcat & Hsacc & Hblocks)].
  - exists field. cbn [app]. split; [done|]. rewrite Hzero. split; [done|].
    intros m Hm Hm0. destruct (Nat.eq_dec m n) as [->|Hmn].
    + apply Hnew. intros b c i j k. by rewrite Hzero.
    + exfalso. apply Hm0. apply (offset_x_zero m n); [done | lia].
  - destruct (cat2_after acc field _ _ _ _ _ _ Hsacc Hshape)
      as (out & Hout & Hsout & Hold & Hfield).
    exists out. rewrite (cat_snoc _ _ _ Hcat). split; [done|]. split; [done|].
    intros m Hm Hm0. destruct (Nat.eq_dec m n) as [->|Hmn].
    + by apply Hnew.
    + apply (block_spec_agree acc); [|apply Hblocks; [lia | done]].
      intros b c i j k Hc. apply Hold.
      pose proof (offset_x_le (S m) n). lia.
Qed.

End GatedBlocks.

Section GatedForwardClaim.
Import GatedActivation.
Context {F : Type} {SF : Scalar F} {so3 : SO3} {CV : Convolutions F}.

Lemma offset_g_S (l : list nat) (n : nat) :
  offset_g l (S n) = offset_g l n + (if n =? 0 then 0 else l !!! n).
Proof. unfold offset_g. by rewrite sum_below_S. Qed.

(** the loop of [forward] over the representation list, on an input
    that has the channels of the list, or more *)
Lemma forward_loop_wide (self : t (F:=F)) (x : tensor F) (g : option (tensor F))
    (nb nc nx ny nz : nat) :
  shape x = (nb, nc, nx, ny, nz) ->
  offset_x (repr_in self) (length (repr_in self)) <= nc ->
  (forall act u, scalar_act self = Some act -> shape (act u) = shape u) ->
  (forall g0, g = Some g0 ->
     shape g0 = (nb, offset_g (repr_in self) (length (repr_in self)), nx, ny, nz)) ->
  exists begin_x begin_g zs,
    for_enumerate 0 (repr_in self) (0, 0, []) (block self x g)
    = Ok (begin_x, begin_g, zs) /\
    accumulated self x g nb nx ny nz (length (repr_in self)) zs.
Proof.
  intros Hx Hnc Hact Hg.
  destruct (for_enumerate_inv
    (fun n (st : loop_state) =>
       let '(begin_x, begin_g, zs) := st in
       begin_x = offset_x (repr_in self) n /\
       (g <> None -> begin_g = offset_g (repr_in self) n) /\
       accumulated self x g nb nx ny nz n zs)
    (repr_in self) 0 (0, 0, []) (block self x g))
    as ([[bx bg] zs] & Hrun & _ & _ & Hacc).
  - split; [done|]. split; [done|]. by left.
  - intros n mul [[bx bg] zs] Hmul (-> & Hbg & Hacc). cbn [Nat.add] in *.
    replace (n + 1) with (S n) by lia.
    pose proof (lookup_lt_Some _ _ _ Hmul) as Hn.
    apply list_lookup_total_correct in Hmul.
    pose proof (offset_x_le self (S n) (length (repr_in self)) Hn) as Hle.
    pose proof (offset_x_S self n) as HS. rewrite Hmul in HS.
    pose proof (offset_g_S (repr_in self) n) as HgS. rewrite Hmul in HgS.
    destruct (Nat.eq_dec mul 0) as [->|Hmul0].
    { (* an order without capsule *)
      exists (offset_x (repr_in self) n, bg, zs). split.
      - unfold block. by rewrite Hx.
      - split; [lia|]. split.
        + intros Hgates. rewrite HgS, (Hbg Hgates). destruct (n =? 0); lia.
        + by apply accumulated_skip. }
    destruct (Nat.eq_dec n 0) as [->|Hn0].
    { (* the scalar block *)
      assert (Hzs : zs = []).
      { destruct Hacc as [[-> _]|[Hpos _]]; [done|].
        unfold offset_x, sum_below in Hpos. simpl in Hpos. lia. }
      subst zs.
      assert (H0 : offset_x (repr_in self) 0 = 0) by done.
      assert (Hfield : offset_x (repr_in self) 0 + mul * (2 * 0 + 1) = mul) by lia.
      eexists. split.
      - unfold block. rewrite Hx. destruct (Nat.eqb_spec mul 0) as [|_]; [contradiction|].
        cbn [Nat.eqb]. rewrite Hfield, H0. reflexivity.
      - split; [lia|]. split; [intros Hgates; rewrite HgS; by apply Hbg|].
        destruct (channel_slice_inside x _ _ _ _ _ 0 mul Hx) as [Hs _]; [lia|].
        cbn [Nat.add] in Hs.
        apply (accumulated_append self x g nb nc nx ny nz Hx);
          [congruence | by left | |].
        + rewrite Hmul, Nat.mul_1_r. destruct (scalar_act self) as [act|] eqn:Hsa.
          * by rewrite (Hact act _ eq_refl).
          * done.
        + intros out Hout. unfold block_spec. rewrite Hx.
          intros b c i j k Hc. unfold scalar_block. rewrite Hmul.
          rewrite <- (Hout b c i j k). by rewrite H0. }
    destruct g as [g0|].
    { (* capsules with gates *)
      specialize (Hg g0 eq_refl).
      pose proof (sum_below_le
        (fun m => if m =? 0 then 0 else repr_in self !!! m)
        (S n) (length (repr_in self)) Hn) as Hgle.
      fold (offset_g (repr_in self) (S n)) in Hgle.
      fold (offset_g (repr_in self) (length (repr_in self))) in Hgle.
      rewrite HgS in Hgle. destruct (Nat.eqb_spec n 0) as [|_]; [done|].
      rewrite (Hbg ltac:(done)).
      destruct (block_gated self x g0 n mul (offset_x (repr_in self) n)
                  (offset_g (repr_in self) n) zs _ _ _ _ _ _ Hx Hg Hn0 Hmul0)
        as (field & Hblock & Hshape & Hentries); [lia | lia |].
      eexists. split; [exact Hblock|].
      split; [lia|]. split; [intros _; lia|].
      apply (accumulated_append self x (Some g0) nb nc nx ny nz Hx);
        [congruence | done | by rewrite Hmul |].
      intros out Hout. unfold block_spec. rewrite Hx.
      destruct n as [|n']; [done|].
      intros b f r i j k Hb Hf Hr Hi Hj Hk. cbv zeta.
      rewrite Hmul in Hf.
      rewrite <- Nat.add_assoc, Hout, Hentries by done.
      by rewrite Nat.add_assoc. }
    (* capsules without gates *)
    destruct (channel_slice_inside x _ _ _ _ _ (offset_x (repr_in self) n)
                (mul * (2 * n + 1)) Hx) as [Hs He]; [lia|].
    eexists. split.
    + unfold block. rewrite Hx. destruct (Nat.eqb_spec mul 0) as [|_]; [contradiction|].
      destruct (Nat.eqb_spec n 0) as [|_]; [contradiction|]. reflexivity.
    + split; [lia|]. split; [done|].
      apply (accumulated_append self x None nb nc nx ny nz Hx);
        [congruence | done | by rewrite Hmul |].
      intros out Hout. unfold block_spec. rewrite Hx.
      destruct n as [|n']; [done|].
      intros b f r i j k Hb Hf Hr Hi Hj Hk. cbv zeta.
      by rewrite <- Nat.add_assoc, Hout, He.
  - exists bx, bg, zs. by split.
Qed.

(** the loop of [forward] on an input that has the channels of the list *)
Lemma forward_loop (self : t (F:=F)) (x : tensor F) (g : option (tensor F))
    (nb nx ny nz : nat) :
  shape x = (nb, offset_x (repr_in self) (length (repr_in self)), nx, ny, nz) ->
  (forall act u, scalar_act self = Some act -> shape (act u) = shape u) ->
  (forall g0, g = Some g0 ->
     shape g0 = (nb, offset_g (repr_in self) (length (repr_in self)), nx, ny, nz)) ->
  exists begin_x begin_g zs,
    for_enumerate 0 (repr_in self) (0, 0, []) (block self x g)
    = Ok (begin_x, begin_g, zs) /\
    accumulated self x g nb nx ny nz (length (repr_in self)) zs.
Proof.
  intros Hx Hact Hg. by eapply forward_loop_wide.
Qed.

End GatedForwardClaim.

Section GatedForwardTheorem.
Import GatedActivation.
Context {F : Type} {SF : Scalar F} {so3 : SO3} {CV : Convolutions F}.

Lemma offset_x_pos (l : list nat) :
  Exists (fun m => m <> 0) l -> 0 < offset_x l (length l).
Proof.
  intros Hex. apply Exists_exists in Hex as (m & Hin & Hm).
  apply list_elem_of_lookup in Hin as [i Hi].
  pose proof (lookup_lt_Some _ _ _ Hi) as Hlt.
  apply list_lookup_total_correct in Hi.
  pose proof (sum_below_le (fun m => (l !!! m) * (2 * m + 1)) (S i) (length l) Hlt)
    as Hle.
  rewrite sum_below_S, Hi in Hle. unfold offset_x. nia.
Qed.

(** C6, as the code has it: when some multiplicity is not zero, on an
    input whose channels are those of the representation list (with a
    shape-preserving scalar activation, and gates, whatever their
    values, of one channel per non-scalar capsule), [forward] returns a
    tensor of the shape of the input, hence of as many channels; each
    block of the output is the processed block of the same order of the
    input, at the same channels, so that the blocks keep their order and
    no channel of the output is a gate. *)
Theorem forward_keeps_channels_and_blocks (self : t (F:=F)) (x : tensor F)
    (nb nx ny nz : nat) :
  Exists (fun m => m <> 0) (repr_in self) ->
  shape x = (nb, offset_x (repr_in self) (length (repr_in self)), nx, ny, nz) ->
  (forall act u, scalar_act self = Some act -> shape (act u) = shape u) ->
  (forall gt, gates self = Some gt ->
     exists g0, gt x = Ok g0 /\
       shape g0 = (nb, offset_g (repr_in self) (length (repr_in self)), nx, ny, nz)) ->
  exists g out,
    match gates self with
    | Some gt => exists g0, gt x = Ok g0 /\ g = Some g0
    | None => g = None
    end /\
    forward self x = Ok out /\
    shape out = shape x /\
    forall n, n < length (repr_in self) -> repr_in self !!! n <> 0 ->
      block_spec self x g out n.
Proof.
  intros Hex Hx Hact Hgates.
  assert (Hg : exists g,
    match gates self with
    | Some gt => g0 <- gt x ;; Ok (Some g0)
    | None => Ok None
    end = Ok g /\
    match gates self with
    | Some gt => exists g0, gt x = Ok g0 /\ g = Some g0
    | None => g = None
    end /\
    forall g0, g = Some g0 ->
      shape g0 = (nb, offset_g (repr_in self) (length (repr_in self)), nx, ny, nz)).
  { destruct (gates self) as [gt|].
    - destruct (Hgates gt eq_refl) as (g0 & Hgt & Hs). exists (Some g0).
      rewrite Hgt. split; [done|]. split; [by exists g0|]. by intros ? [= <-].
    - exists None. by repeat split. }
  destruct Hg as (g & Hrun & Hgspec & Hgshape).
  destruct (forward_loop self x g nb nx ny nz Hx Hact Hgshape)
    as (bx & bg & zs & Hloop & Hacc).
  pose proof (offset_x_pos _ Hex) as Hpos.
  destruct Hacc as [[_ Hzero]|(_ & out & Hcat & Hshape & Hblocks)]; [lia|].
  exists g, out. split; [done|]. split.
  - unfold forward. rewrite Hrun. cbn [bind]. rewrite Hloop. done.
  - split; [by rewrite Hshape, Hx|]. done.
Qed.

End GatedForwardTheorem.

(** ** The gated activation on concrete inputs *)

Section GatedExamples.
Import GatedActivation Examples.
#[local] Existing Instance SO3_orders.
#[local] Existing Instance convolutions.



(** C6 fails as stated: for the representation list [(0, 0)] the input
    without channel matches the list, and [forward] raises. *)
Lemma forward_fails_on_matching_input :
  exists self,
    init [0; 0] 3 tt (Pair (Some Z.opp) (Some (fun v : Z => v))) NormNone 0%Z
    = Ok self /\
    shape (features 0)
    = (1, offset_x (repr_in self) (length (repr_in self)), 1, 1, 2) /\
    forward self (features 0) = Err RuntimeError.
Proof. eexists. split; [reflexivity|]. split; reflexivity. Qed.

(** C6 at an input: a scalar, a capsule of order 1 and one of order 2,
    with gates. *)
Lemma forward_keeps_channels_and_blocks_witness :
  exists self out,
    init [1; 1; 1] 3 tt (Pair (Some Z.opp) (Some (fun v : Z => v))) NormNone 0%Z
    = Ok self /\
    forward self (features 9) = Ok out /\
    shape out = (1, 9, 1, 1, 2) /\
    entry out 0 5 0 0 1 = 153%Z.
Proof.
  destruct (init (CV:=convolutions) [1; 1; 1] 3 tt (Pair (Some Z.opp) (Some (fun v : Z => v)))
              NormNone 0%Z) as [self|e] eqn:Hinit; [|discriminate Hinit].
  injection Hinit as <-.
  match goal with |- exists self out, Ok ?s = Ok self /\ _ =>
    destruct (forward_keeps_channels_and_blocks s (features 9) 1 1 1 2)
      as (g & out & Hg & Hfw & Hshape & Hblocks) end.
  - apply Exists_cons_hd. discriminate.
  - reflexivity.
  - intros act u [= <-]. reflexivity.
  - intros gt [= <-]. eexists. split; reflexivity.
  - eexists. exists out. split; [reflexivity|]. split; [exact Hfw|].
    split; [exact Hshape|].
    destruct Hg as (g0 & Hg0 & ->). injection Hg0 as <-.
    exact (Hblocks 2 ltac:(simpl; lia) ltac:(discriminate)
             0 0 1 0 0 1 ltac:(lia) ltac:(simpl; lia) ltac:(lia)
             ltac:(lia) ltac:(lia) ltac:(lia)).
Defined.

(** C10 at an input: no capsule at all. *)
Lemma forward_fails_without_capsule_witness :
  exists e, forward (Build [0; 0] None None) (features 0) = Err e.
Proof.
  apply (proj1 (forward_fails_without_capsule
                  (Build [0; 0] None None) (features 0))).
  repeat constructor.
Defined.

End GatedExamples.

(** ** Further properties of the kernel combination *)

Section KernelObject.
Import SE3KernelCombination.
Context {F : Type} {SF : Scalar F} {so3 : SO3} {BK : BasisKernels F}.

(** what is known of an object that [__init__] has returned *)
Lemma init_inv (size : nat) (Rs_out Rs_in : list (nat * repr)) (M : nat)
    (central_base : bool) (self : t (F:=F)) :
  init size Rs_out Rs_in M central_base = Ok self ->
  wf self /\
  SE3KernelCombination.size self = size /\
  multiplicites_out self = fst <$> kept Rs_out /\
  multiplicites_in self = fst <$> kept Rs_in /\
  dims_out self = (fun mR => dim (snd mR)) <$> kept Rs_out /\
  dims_in self = (fun mR => dim (snd mR)) <$> kept Rs_in /\
  kernels self = kernels_of size M central_base (kept Rs_out) (kept Rs_in) /\
  sum_below (width_out self) (length (multiplicites_out self))
  = channels_of (kept Rs_out) /\
  sum_below (width_in self) (length (multiplicites_in self))
  = channels_of (kept Rs_in).
Proof.
  intros Hinit.
  destruct (init_eq size Rs_out Rs_in M central_base) as (n & Heq & Hwf).
  rewrite Heq in Hinit. injection Hinit as <-.
  split; [done|]. do 6 (split; [done|]).
  unfold width_out, width_in.
  cbn [multiplicites_out multiplicites_in dims_out dims_in].
  rewrite !length_fmap. by rewrite !width_out_kept.
Qed.

(** [__init__] returns *)
Lemma init_returns (size : nat) (Rs_out Rs_in : list (nat * repr)) (M : nat)
    (central_base : bool) :
  exists self : t (F:=F), init size Rs_out Rs_in M central_base = Ok self.
Proof.
  destruct (init_eq size Rs_out Rs_in M central_base) as (n & Heq & _).
  by eexists.
Qed.

Lemma elem_of_indices (n0 n1 nx ny nz a b x y z : nat) :
  (a, b, x, y, z) ∈ indices (n0, n1, nx, ny, nz) ->
  a < n0 /\ b < n1 /\ x < nx /\ y < ny /\ z < nz.
Proof.
  unfold indices. intros Hin.
  apply list_elem_of_bind in Hin as (a' & Hin &Ha). apply elem_of_seq in Ha.
  apply list_elem_of_bind in Hin as (b' & Hin & Hb). apply elem_of_seq in Hb.
  apply list_elem_of_bind in Hin as (x' & Hin & Hx). apply elem_of_seq in Hx.
  apply list_elem_of_bind in Hin as (y' & Hin & Hy). apply elem_of_seq in Hy.
  apply list_elem_of_bind in Hin as (z' & Hin & Hz). apply elem_of_seq in Hz.
  apply list_elem_of_singleton in Hin. injection Hin as -> -> -> -> ->. lia.
Qed.

Lemma length_flatten (u v : tensor F) :
  shape u = shape v -> length (flatten u) = length (flatten v).
Proof. intros Hs. unfold flatten. by rewrite !length_fmap, Hs. Qed.

End KernelObject.

Section KernelContent.
Import SE3KernelCombination.
Context {F : Type} {SF : Scalar F} {so3 : SO3} {BK : BasisKernels F}.

(** X1: on an object that [__init__] has built and a weight of the
    expected length, [forward] returns a kernel whose entry [(a, b)] of
    the sub-block of the copies [(ii, jj)] of the pair of blocks
    [(i, j)] is the LAST basis element of the pair times its weight,
    the one at index [weight_index_of i j ii jj + basis_count - 1];
    the weights of the elements before are overwritten.  When the pair
    has no basis element the entry is what the fresh storage held. *)
Theorem forward_block_content (size : nat) (Rs_out Rs_in : list (nat * repr))
    (M : nat) (central_base : bool) (self : t (F:=F))
    (mem : accessor F) (weight : list F) (i j ii jj a b : nat) :
  init size Rs_out Rs_in M central_base = Ok self ->
  length weight = nweights self ->
  i < length (multiplicites_out self) -> j < length (multiplicites_in self) ->
  ii < multiplicites_out self !!! i -> jj < multiplicites_in self !!! j ->
  a < dims_out self !!! i -> b < dims_in self !!! j ->
  let r := sum_below (width_out self) i + ii * (dims_out self !!! i) + a in
  let c := sum_below (width_in self) j + jj * (dims_in self !!! j) + b in
  exists kernel,
    forward self mem weight = Ok kernel /\
    forall x y z,
      entry kernel r c x y z
      = match basis_count self i j with
        | 0 => mem r c x y z
        | S n =>
            fmul ((elems ((kernels self !!! i) !!! j) !!! n) a b x y z)
                 (weight !!! (weight_index_of self i j ii jj + n))
        end.
Proof.
  intros Hinit Hlen Hi Hj Hii Hjj Ha Hb.
  apply init_inv in Hinit as (Hwf & _).
  exact (forward_block_value self i j ii jj a b Hi Hj Hii Hjj Ha Hb mem weight
           Hwf Hlen).
Qed.

(** X2: on an object that [__init__] has built and a gradient of the
    shape of the kernel, [backward] returns a vector of [nweights]
    entries, every one written: the result does not depend on the
    content of the fresh storage.  The entry at the weight index of the
    basis element [k] of the copies [(ii, jj)] of the pair of blocks
    [(i, j)] is the product of the flattened basis element with the
    flattened sub-block of the gradient. *)
Theorem backward_entries (size : nat) (Rs_out Rs_in : list (nat * repr))
    (M : nat) (central_base : bool) (self : t (F:=F))
    (mem : nat -> F) (grad_kernel : tensor F) :
  init size Rs_out Rs_in M central_base = Ok self ->
  shape grad_kernel
  = (channels_of (kept Rs_out), channels_of (kept Rs_in), size, size, size) ->
  exists grad_weight,
    backward self mem grad_kernel = Ok grad_weight /\
    length grad_weight = nweights self /\
    (forall mem', backward self mem' grad_kernel = Ok grad_weight) /\
    forall i j ii jj k,
      i < length (multiplicites_out self) -> j < length (multiplicites_in self) ->
      ii < multiplicites_out self !!! i -> jj < multiplicites_in self !!! j ->
      k < basis_count self i j ->
      let K := (kernels self !!! i) !!! j in
      let si := (sum_below (width_out self) i + ii * (dims_out self !!! i),
                 sum_below (width_out self) i + (ii + 1) * (dims_out self !!! i)) in
      let sj := (sum_below (width_in self) j + jj * (dims_in self !!! j),
                 sum_below (width_in self) j + (jj + 1) * (dims_in self !!! j)) in
      matmul (flatten (Tensor (eshape K) (elems K !!! k)))
             (flatten (getslice grad_kernel si sj))
      = Ok (grad_weight !!! (weight_index_of self i j ii jj + k)).
Proof.
  intros Hinit Hg.
  apply init_inv in Hinit as (Hwf & Hsize & _ & _ & _ & _ & _ & Hout & Hin).
  rewrite <- Hout, <- Hin, <- Hsize in Hg.
  exists (step_gradient self grad_kernel <$> steps self).
  split; [by eapply backward_eq|]. split.
  { rewrite length_fmap, length_steps. by destruct Hwf as (_ & _ & _ & _ & _ & ->). }
  split; [intros mem'; by eapply backward_eq|].
  intros i j ii jj k Hi Hj Hii Hjj Hk K si sj.
  pose proof (steps_lookup self i j ii jj Hi Hj Hii Hjj k Hk) as Hstep.
  assert (Hlook : (step_gradient self grad_kernel <$> steps self)
                    !! (weight_index_of self i j ii jj + k)
                  = Some (step_gradient self grad_kernel (step_of self i j ii jj k))).
  { by rewrite list_lookup_fmap, Hstep. }
  rewrite (list_lookup_total_correct _ _ _ Hlook).
  unfold step_gradient, step_of. fold K. fold si. fold sj.
  unfold matmul. rewrite (length_flatten _ (getslice grad_kernel si sj)).
  - by rewrite Nat.eqb_refl.
  - cbn [shape]. unfold getslice. rewrite Hg. cbn [shape].
    destruct Hwf as (_ & _ & _ & _ & Hes & _). unfold K. rewrite Hes by done.
    pose proof (steps_ok self) as Hok.
    rewrite Forall_forall in Hok.
    specialize (Hok _ (list_elem_of_lookup_2 _ _ _ Hstep)).
    unfold step_of in Hok. cbn [step_ok fst snd] in Hok.
    destruct Hok as (_ & _ & _ & ? & ? & ? & ?).
    unfold si, sj. rewrite !slice_len_inside by done.
    repeat f_equal; lia.
Qed.

End KernelContent.

Section KernelAdjoint.
Import SE3KernelCombination.
Context {F : Type} {SF : Scalar F} {SL : ScalarLaws F} {so3 : SO3}
        {BK : BasisKernels F}.

(** X3: with exact arithmetic, on an object that [__init__] has built
    in which every pair of blocks has exactly one basis element,
    [backward] is the adjoint of [forward]: for a weight [w] of the
    expected length and a gradient [g] of the shape of the kernel,
    [matmul (backward g) w] and [matmul g (forward w)], taken on the
    flattened tensors, are the same number, whatever the fresh storage
    of both methods held. *)
Theorem backward_adjoint_with_single_basis (size : nat)
    (Rs_out Rs_in : list (nat * repr)) (M : nat) (central_base : bool)
    (self : t (F:=F)) (mem : accessor F) (mem' : nat -> F)
    (weight : list F) (grad_kernel : tensor F) :
  init size Rs_out Rs_in M central_base = Ok self ->
  (forall i j,
     i < length (multiplicites_out self) -> j < length (multiplicites_in self) ->
     basis_count self i j = 1) ->
  length weight = nweights self ->
  shape grad_kernel
  = (channels_of (kept Rs_out), channels_of (kept Rs_in), size, size, size) ->
  exists kernel grad_weight d,
    forward self mem weight = Ok kernel /\
    backward self mem' grad_kernel = Ok grad_weight /\
    matmul grad_weight weight = Ok d /\
    matmul (flatten grad_kernel) (flatten kernel) = Ok d.
Proof.
  intros Hinit Hone Hlen Hg.
  apply init_inv in Hinit as (Hwf & Hsize & _ & _ & _ & _ & _ & Hout & Hin).
  rewrite <- Hout, <- Hin, <- Hsize in Hg.
  destruct (forward_accumulates self Hwf weight Hlen Hone mem)
    as (kernel & kernel_s & Hfw & Hspec & Hshape & Hshape' & Hentries).
  destruct (spec_adjoint self Hwf weight Hlen grad_kernel Hg)
    as (kernel_s' & Hspec' & Hshape_s & Hdot).
  rewrite Hspec in Hspec'. injection Hspec' as <-.
  exists kernel, (step_gradient self grad_kernel <$> steps self),
    (dot (step_gradient self grad_kernel <$> steps self) weight).
  split; [done|]. split; [by eapply backward_eq|]. split.
  - unfold matmul. rewrite length_fmap, length_steps, Hlen.
    destruct Hwf as (_ & _ & _ & _ & _ & ->). by rewrite Nat.eqb_refl.
  - unfold matmul. rewrite (length_flatten grad_kernel kernel) by congruence.
    rewrite Nat.eqb_refl. f_equal. fold (dot (flatten grad_kernel) (flatten kernel)).
    rewrite <- Hdot. rewrite !dot_flatten by congruence.
    apply fsum_ext. intros [[[[a b] x] y] z] Hidx. rewrite Hg in Hidx.
    apply elem_of_indices in Hidx as (Ha & Hb & _). cbn [read].
    by rewrite Hentries.
Qed.

End KernelAdjoint.

Section KernelGradientShape.
Import SE3KernelCombination.
Context {F : Type} {SF : Scalar F} {so3 : SO3} {BK : BasisKernels F}.

Lemma length_indices (s : shape5) : length (indices s) = numel s.
Proof.
  destruct s as [[[[n0 n1] nx] ny] nz]. unfold indices, numel.
  rewrite length_bind_seq.
  rewrite (sum_below_ext _ (fun _ => n1 * nx * ny * nz)).
  { rewrite sum_below_const. lia. }
  intros a _. rewrite length_bind_seq.
  rewrite (sum_below_ext _ (fun _ => nx * ny * nz)).
  { rewrite sum_below_const. lia. }
  intros b _. rewrite length_bind_seq.
  rewrite (sum_below_ext _ (fun _ => ny * nz)).
  { rewrite sum_below_const. lia. }
  intros x _. rewrite length_bind_seq.
  rewrite (sum_below_ext _ (fun _ => nz)).
  { rewrite sum_below_const. lia. }
  intros y _. rewrite length_bind_seq.
  rewrite (sum_below_ext _ (fun _ => 1)) by done.
  rewrite sum_below_const. lia.
Qed.

(** a step of [backward] on a gradient of another grid: the two
    vectors given to [torch.matmul] differ in length *)
Lemma backward_body_mismatch (self : t (F:=F)) (grad_kernel : tensor F)
    (n_out n_in nx ny nz : nat) (st : step) (w : nat) (grad_weight : list F) :
  wf self ->
  shape grad_kernel = (n_out, n_in, nx, ny, nz) ->
  nx * ny * nz <> size self * size self * size self ->
  step_ok self n_out n_in st ->
  let '(i, j, si, sj, k) := st in
  0 < dims_out self !!! i -> 0 < dims_in self !!! j ->
  backward_body self grad_kernel i j si sj k w grad_weight = Err RuntimeError.
Proof.
  intros Hwf Hg Hne. destruct st as [[[[i j] si] sj] k].
  intros (Hi & Hj & Hk & Hsi & Hsi' & Hsj & Hsj') Hdo Hdi.
  destruct (lookup_lt_is_Some_2 _ _ Hk) as [f Hf].
  unfold backward_body.
  rewrite (index_lt (kernels self) i) by by apply wf_kernel_row. cbn [bind].
  rewrite (index_lt (kernels self !!! i) j) by by apply wf_kernel_col. cbn [bind].
  unfold element. rewrite (index_Some _ _ _ Hf). cbn [bind].
  unfold matmul, flatten. rewrite !length_fmap, !length_indices. cbn [shape].
  destruct Hwf as (_ & _ & _ & _ & Hes & _). rewrite Hes by done.
  unfold getslice. rewrite Hg. cbn [shape numel].
  destruct si as [a0 a1], sj as [b0 b1]. cbn [fst snd] in *.
  rewrite !slice_len_inside by done.
  replace (a1 - a0) with (dims_out self !!! i) by lia.
  replace (b1 - b0) with (dims_in self !!! j) by lia.
  destruct (Nat.eqb_spec
    (dims_out self !!! i * dims_in self !!! j * size self * size self * size self)
    (dims_out self !!! i * dims_in self !!! j * nx * ny * nz)) as [Heq|]; [|done].
  exfalso. apply Hne.
  apply (Nat.mul_cancel_l _ _ (dims_out self !!! i * dims_in self !!! j)); lia.
Qed.

(** X4: [backward] does not accept a gradient whose grid has another
    number of voxels than the kernel: as soon as the object has a
    weight (and every representation has a positive dimension), the
    first product [torch.matmul] is of two vectors of different
    lengths and [backward] raises the error of that product, having
    returned no gradient. *)
Theorem backward_rejects_other_grid (size : nat) (Rs_out Rs_in : list (nat * repr))
    (M : nat) (central_base : bool) (self : t (F:=F))
    (mem : nat -> F) (grad_kernel : tensor F) (nx ny nz : nat) :
  (forall R : repr, 0 < dim R) ->
  init size Rs_out Rs_in M central_base = Ok self ->
  0 < nweights self ->
  shape grad_kernel
  = (channels_of (kept Rs_out), channels_of (kept Rs_in), nx, ny, nz) ->
  nx * ny * nz <> size * size * size ->
  backward self mem grad_kernel = Err RuntimeError.
Proof.
  intros Hdim Hinit Hpos Hg Hne.
  apply init_inv in Hinit as (Hwf & Hsize & Hmo & Hmi & Hdo & Hdi & _ & Hout & Hin).
  rewrite <- Hout, <- Hin in Hg. rewrite <- Hsize in Hne.
  unfold backward.
  change (fun i j si sj k weight_index grad_weight => _)
    with (backward_body self grad_kernel).
  rewrite loop_i_run by done.
  pose proof (steps_ok self) as Hok.
  pose proof (length_steps self) as Hlen.
  destruct Hwf as (Hwf1 & Hwf2 & Hwf3 & Hwf4 & Hwf5 & Hn).
  rewrite <- Hn in Hlen.
  destruct (steps self) as [|st l]; [cbn in Hlen; lia|].
  apply Forall_cons in Hok as [Hst _].
  pose proof (backward_body_mismatch self grad_kernel _ _ nx ny nz st 0
                (FloatVector mem (nweights self))
                (conj Hwf1 (conj Hwf2 (conj Hwf3 (conj Hwf4 (conj Hwf5 Hn)))))
                Hg Hne Hst) as Hbody.
  destruct st as [[[[i j] si] sj] k]. cbn [run].
  destruct Hst as (Hi & Hj & _).
  rewrite Hbody; [done| |].
  - rewrite Hdo. rewrite Hmo, length_fmap in Hi.
    rewrite (list_lookup_total_fmap _ (kept Rs_out) i Hi). apply Hdim.
  - rewrite Hdi. rewrite Hmi, length_fmap in Hj.
    rewrite (list_lookup_total_fmap _ (kept Rs_in) j Hj). apply Hdim.
Qed.

End KernelGradientShape.

Section KernelStorage.
Import SE3KernelCombination.
Context {F : Type} {SF : Scalar F} {so3 : SO3} {BK : BasisKernels F}.

(** with a basis element for every pair of blocks, the entries of the
    kernel do not depend on the storage *)
Lemma forward_storage_agree (self : t (F:=F)) (mem mem' : accessor F)
    (weight : list F) :
  wf self ->
  (forall i j,
     i < length (multiplicites_out self) -> j < length (multiplicites_in self) ->
     0 < basis_count self i j) ->
  length weight = nweights self ->
  exists kernel kernel',
    forward self mem weight = Ok kernel /\
    forward self mem' weight = Ok kernel' /\
    shape kernel = shape kernel' /\
    shape kernel
    = (sum_below (width_out self) (length (multiplicites_out self)),
       sum_below (width_in self) (length (multiplicites_in self)),
       size self, size self, size self) /\
    forall r c x y z,
      r < sum_below (width_out self) (length (multiplicites_out self)) ->
      c < sum_below (width_in self) (length (multiplicites_in self)) ->
      entry kernel r c x y z = entry kernel' r c x y z.
Proof.
  intros Hwf Hsome Hlen.
  destruct (forward_ok self Hwf mem weight Hlen) as (kernel & Hfw & Hshape).
  destruct (forward_ok self Hwf mem' weight Hlen) as (kernel' & Hfw' & Hshape').
  exists kernel, kernel'. split; [done|]. split; [done|].
  split; [congruence|]. split; [done|].
  intros r c x y z Hr Hc.
  apply (out_locate self) in Hr as (i & ii & a & Hi & Hii & Ha & ->).
  apply (in_locate self) in Hc as (j & jj & b & Hj & Hjj & Hb & ->).
  destruct (forward_block_value self i j ii jj a b Hi Hj Hii Hjj Ha Hb mem weight
              Hwf Hlen) as (k1 & Hk1 & Hval).
  destruct (forward_block_value self i j ii jj a b Hi Hj Hii Hjj Ha Hb mem' weight
              Hwf Hlen) as (k2 & Hk2 & Hval').
  rewrite Hfw in Hk1. injection Hk1 as <-.
  rewrite Hfw' in Hk2. injection Hk2 as <-.
  rewrite Hval, Hval'. specialize (Hsome i j Hi Hj).
  destruct (basis_count self i j); [lia | done].
Qed.

(** X14: when every pair of blocks of the object has a basis element,
    every entry of the kernel is written and [forward] does not depend
    on what its fresh storage held: from any two contents it returns
    kernels of one shape with the same entries.  (A pair without basis
    element keeps the content of the storage, as X1 says.) *)
Theorem forward_ignores_storage (size : nat) (Rs_out Rs_in : list (nat * repr))
    (M : nat) (central_base : bool) (self : t (F:=F))
    (mem mem' : accessor F) (weight : list F) :
  init size Rs_out Rs_in M central_base = Ok self ->
  (forall i j,
     i < length (multiplicites_out self) -> j < length (multiplicites_in self) ->
     0 < basis_count self i j) ->
  length weight = nweights self ->
  exists kernel kernel',
    forward self mem weight = Ok kernel /\
    forward self mem' weight = Ok kernel' /\
    shape kernel = shape kernel' /\
    shape kernel = (channels_of (kept Rs_out), channels_of (kept Rs_in),
                    size, size, size) /\
    forall r c x y z,
      r < channels_of (kept Rs_out) -> c < channels_of (kept Rs_in) ->
      entry kernel r c x y z = entry kernel' r c x y z.
Proof.
  intros Hinit Hsome Hlen.
  apply init_inv in Hinit as (Hwf & Hsize & _ & _ & _ & _ & _ & Hout & Hin).
  destruct (forward_storage_agree self mem mem' weight Hwf Hsome Hlen)
    as (kernel & kernel' & Hfw & Hfw' & Hsame & Hshape & Hentries).
  exists kernel, kernel'. split; [done|]. split; [done|].
  split; [done|]. split; [by rewrite Hshape, Hout, Hin, Hsize|].
  intros r c x y z Hr Hc. rewrite <- Hout in Hr. rewrite <- Hin in Hc.
  by apply Hentries.
Qed.

End KernelStorage.

(** ** The further properties of the kernel combination on concrete inputs *)

Section KernelMoreExamples.
Import SE3KernelCombination Examples.
#[local] Existing Instance SO3_orders.
#[local] Existing Instance basis_kernels.

(** X1 at an input: three basis elements for the only pair of blocks;
    the row 2 holds the third element times the third weight. *)
Lemma forward_block_content_witness :
  exists self kernel,
    init 2 [(1, 1)] [(1, 0)] 15 true = Ok self /\
    forward self (filled 0) [1; 2; 3]%Z = Ok kernel /\
    entry kernel 2 0 0 0 0 = 3%Z.
Proof.
  destruct (init_returns (so3:=SO3_orders) 2 [(1, 1)] [(1, 0)] 15 true)
    as [self Hinit].
  init_fact Hinit self (nweights self) Hn.
  init_fact Hinit self (length (multiplicites_out self)) Hlo.
  init_fact Hinit self (length (multiplicites_in self)) Hli.
  init_fact Hinit self (multiplicites_out self !!! 0) Hmo.
  init_fact Hinit self (multiplicites_in self !!! 0) Hmi.
  init_fact Hinit self (dims_out self !!! 0) Hdo.
  init_fact Hinit self (dims_in self !!! 0) Hdi.
  destruct (forward_block_content (so3:=SO3_orders) 2 [(1, 1)] [(1, 0)] 15 true self
              (filled 0) [1; 2; 3]%Z 0 0 0 0 2 0 Hinit)
    as (kernel & Hfw & Hval).
  - rewrite Hn. reflexivity.
  - rewrite Hlo. lia.
  - rewrite Hli. lia.
  - rewrite Hmo. lia.
  - rewrite Hmi. lia.
  - rewrite Hdo. lia.
  - rewrite Hdi. lia.
  - exists self, kernel. split; [exact Hinit|]. split; [exact Hfw|].
    pose proof (Hval 0 0 0) as H0. cbv zeta in H0.
    match type of H0 with
    | entry _ ?r ?c _ _ _ = ?rhs =>
        init_fact Hinit self rhs Hrhs;
        init_fact Hinit self r Hr;
        init_fact Hinit self c Hc
    end.
    rewrite Hrhs, Hr, Hc in H0. exact H0.
Defined.

(** X2 at an input: the gradient of ones against the three unit basis
    elements, from storage that holds sevens or zeros. *)
Lemma backward_entries_witness :
  exists self grad_weight,
    init 2 [(1, 1)] [(1, 0)] 15 true = Ok self /\
    backward self (fun _ => 7%Z) (Tensor (3, 1, 2, 2, 2) (filled 1)) = Ok grad_weight /\
    length grad_weight = 3 /\
    backward self (fun _ => 0%Z) (Tensor (3, 1, 2, 2, 2) (filled 1)) = Ok grad_weight.
Proof.
  destruct (init_returns (so3:=SO3_orders) 2 [(1, 1)] [(1, 0)] 15 true)
    as [self Hinit].
  init_fact Hinit self (nweights self) Hn.
  destruct (backward_entries (so3:=SO3_orders) 2 [(1, 1)] [(1, 0)] 15 true self
              (fun _ => 7%Z) (Tensor (3, 1, 2, 2, 2) (filled 1)) Hinit eq_refl)
    as (grad_weight & Hbw & Hlen & Hmem & _).
  exists self, grad_weight. split; [exact Hinit|]. split; [exact Hbw|].
  split; [|exact (Hmem (fun _ => 0%Z))].
  rewrite Hlen. exact Hn.
Defined.

(** X3 at an input: two scalar output fields and one scalar input
    field on a grid of one voxel, each pair with the central basis
    element only. *)
Lemma backward_adjoint_with_single_basis_witness :
  exists self kernel grad_weight,
    init 1 [(2, 0)] [(1, 0)] 15 true = Ok self /\
    forward self (filled 9) [2; 3]%Z = Ok kernel /\
    backward self (fun _ => 9%Z)
      (Tensor (2, 1, 1, 1, 1) (fun a _ _ _ _ => Z.of_nat (a + 5))) = Ok grad_weight /\
    matmul grad_weight [2; 3]%Z
    = matmul (flatten (Tensor (2, 1, 1, 1, 1) (fun a _ _ _ _ => Z.of_nat (a + 5))))
        (flatten kernel).
Proof.
  destruct (init_returns (so3:=SO3_orders) 1 [(2, 0)] [(1, 0)] 15 true)
    as [self Hinit].
  init_fact Hinit self (nweights self) Hn.
  init_fact Hinit self (length (multiplicites_out self)) Hlo.
  init_fact Hinit self (length (multiplicites_in self)) Hli.
  init_fact Hinit self (basis_count self 0 0) Hbc.
  destruct (backward_adjoint_with_single_basis (SL:=Z_scalar_laws) (so3:=SO3_orders)
              1 [(2, 0)] [(1, 0)] 15 true self (filled 9) (fun _ => 9%Z) [2; 3]%Z
              (Tensor (2, 1, 1, 1, 1) (fun a _ _ _ _ => Z.of_nat (a + 5))) Hinit)
    as (kernel & grad_weight & d & Hfw & Hbw & Hl & Hr).
  - intros i j Hi Hj. rewrite Hlo in Hi. rewrite Hli in Hj.
    replace i with 0 by lia. replace j with 0 by lia. exact Hbc.
  - rewrite Hn. reflexivity.
  - reflexivity.
  - exists self, kernel, grad_weight.
    split; [exact Hinit|]. split; [exact Hfw|]. split; [exact Hbw|].
    rewrite Hl, Hr. reflexivity.
Defined.

(** X4 at an input: a gradient on a grid of side 3 for a kernel of
    side 2. *)
Lemma backward_rejects_other_grid_witness :
  exists self,
    init 2 [(1, 1)] [(1, 0)] 15 true = Ok self /\
    backward self (fun _ => 0%Z) (Tensor (3, 1, 3, 3, 3) (filled 1))
    = Err RuntimeError.
Proof.
  destruct (init_returns (so3:=SO3_orders) 2 [(1, 1)] [(1, 0)] 15 true)
    as [self Hinit].
  init_fact Hinit self (nweights self) Hn.
  exists self. split; [exact Hinit|].
  apply (backward_rejects_other_grid (so3:=SO3_orders) 2 [(1, 1)] [(1, 0)] 15 true
           self (fun _ => 0%Z) (Tensor (3, 1, 3, 3, 3) (filled 1)) 3 3 3).
  - intros R. cbn. lia.
  - exact Hinit.
  - rewrite Hn. lia.
  - reflexivity.
  - lia.
Defined.

(** X14 at an input: storage of zeros and storage of nines. *)
Lemma forward_ignores_storage_witness :
  exists self kernel,
    init 2 [(1, 1)] [(1, 0)] 15 true = Ok self /\
    forward self (filled 0) [1; 2; 3]%Z = Ok kernel /\
    forall kernel', forward self (filled 9) [1; 2; 3]%Z = Ok kernel' ->
      entry kernel 0 0 0 0 0 = entry kernel' 0 0 0 0 0.
Proof.
  destruct (init_returns (so3:=SO3_orders) 2 [(1, 1)] [(1, 0)] 15 true)
    as [self Hinit].
  init_fact Hinit self (nweights self) Hn.
  init_fact Hinit self (length (multiplicites_out self)) Hlo.
  init_fact Hinit self (length (multiplicites_in self)) Hli.
  init_fact Hinit self (basis_count self 0 0) Hbc.
  destruct (forward_ignores_storage (so3:=SO3_orders) 2 [(1, 1)] [(1, 0)] 15 true self
              (filled 0) (filled 9) [1; 2; 3]%Z Hinit)
    as (kernel & kernel' & Hfw & Hfw' & _ & _ & Hsame).
  - intros i j Hi Hj. rewrite Hlo in Hi. rewrite Hli in Hj.
    replace i with 0 by lia. replace j with 0 by lia. rewrite Hbc. lia.
  - rewrite Hn. reflexivity.
  - exists self, kernel. split; [exact Hinit|]. split; [exact Hfw|].
    intros k Hk. rewrite Hfw' in Hk. injection Hk as <-.
    apply Hsame; cbv; lia.
Defined.

End KernelMoreExamples.

(** ** Further properties of the gated activation *)

Section GatedConstruction.
Import GatedActivation.
Context {F : Type} {SF : Scalar F} {so3 : SO3} {CV : Convolutions F}.

(** the scalar part of the constructor fails only by the index *)
Lemma init_scalar_part (repr_in : list nat) (sa : option (F -> F)) :
  match sa with
  | Some act =>
      m0 <- index repr_in 0 ;;
      if 0 <? m0 then Ok (Some (ScalarActivation [(m0, Some act)])) else Ok None
  | None => Ok None
  end
  = match sa, repr_in with
    | Some _, [] => Err IndexError
    | Some act, m0 :: _ =>
        Ok (if 0 <? m0 then Some (ScalarActivation [(m0, Some act)]) else None)
    | None, _ => Ok None
    end.
Proof.
  destruct sa as [act|]; [|done]. destruct repr_in as [|m0 rest]; [done|].
  unfold index. cbn [lookup list_lookup bind]. by destruct (0 <? m0).
Qed.

(** X5: the constructor raises [IndexError] exactly when a scalar
    activation is configured and the representation list is empty: the
    test [repr_in[0] > 0] is evaluated only after
    [scalar_activation is not None]. *)
Theorem init_index_error_iff (repr_in : list nat) (size : nat)
    (radial_window_dict : window) (activation : activation_arg)
    (normalization : normalization_arg) (batch_norm_momentum : F) :
  init repr_in size radial_window_dict activation normalization batch_norm_momentum
  = Err IndexError
  <-> repr_in = [] /\ scalar_activation_of activation <> None.
Proof.
  unfold init.
  set (sa := scalar_activation_of activation).
  set (ga := gate_activation_of activation).
  replace (match activation with Pair s g => (s, g) | Single a => (a, a) end)
    with (sa, ga) by (by destruct activation).
  cbv beta iota. rewrite init_scalar_part.
  destruct sa as [act|], repr_in as [|m0 rest]; cbn [bind].
  - split; [done|]. done.
  - split; [|by intros [? _]].
    destruct ga as [g|]; [|done].
    destruct (0 <? sum_list (drop 1 (m0 :: rest))); [|done].
    destruct (size mod 2 =? 1); [|done]. cbn [assert bind].
    by destruct normalization.
  - split; [|by intros [_ ?]].
    destruct ga as [g|]; [|done]. by cbn.
  - split; [|by intros [? _]].
    destruct ga as [g|]; [|done].
    destruct (0 <? sum_list (drop 1 (m0 :: rest))); [|done].
    destruct (size mod 2 =? 1); [|done]. cbn [assert bind].
    by destruct normalization.
Qed.


(** X7: an object that the constructor returns keeps the representation
    list; it has a scalar activation exactly when one is configured and
    the multiplicity of the scalars is positive, and gates exactly when
    a gate activation is configured and there is a non-scalar capsule. *)
Theorem init_object (repr_in : list nat) (size : nat)
    (radial_window_dict : window) (activation : activation_arg)
    (normalization : normalization_arg) (batch_norm_momentum : F)
    (self : t (F:=F)) :
  init repr_in size radial_window_dict activation normalization batch_norm_momentum
  = Ok self ->
  GatedActivation.repr_in self = repr_in /\
  (scalar_act self <> None
   <-> scalar_activation_of activation <> None /\ 0 < repr_in !!! 0) /\
  (gates self <> None
   <-> gate_activation_of activation <> None /\ 0 < sum_list (drop 1 repr_in)).
Proof.
  unfold init.
  set (sa := scalar_activation_of activation).
  set (ga := gate_activation_of activation).
  replace (match activation with Pair s g => (s, g) | Single a => (a, a) end)
    with (sa, ga) by (by destruct activation).
  cbv beta iota. rewrite init_scalar_part.
  assert (Hscalar : forall r,
    match sa, repr_in with
    | Some _, [] => Err IndexError
    | Some act, m0 :: _ =>
        Ok (if 0 <? m0 then Some (ScalarActivation [(m0, Some act)]) else None)
    | None, _ => Ok None
    end = Ok r ->
    (r <> None <-> sa <> None /\ 0 < repr_in !!! 0)).
  { intros r. destruct sa as [act|].
    - destruct repr_in as [|m0 rest]; [done|]. intros [= <-].
      change ((m0 :: rest) !!! 0) with m0.
      destruct (Nat.ltb_spec 0 m0); split; try done; try by intros [_ ?].
      intros [_ ?]. lia.
    - intros [= <-]. split; [done | by intros [? _]]. }
  intros Hinit. apply bind_Ok_inv in Hinit as (r & Hr & Hinit).
  apply Hscalar in Hr.
  apply bind_Ok_inv in Hinit as (gt & Hgt & Hinit). injection Hinit as <-.
  cbn [GatedActivation.repr_in scalar_act gates].
  split; [done|]. split; [done|].
  destruct ga as [g|].
  - destruct (Nat.ltb_spec 0 (sum_list (drop 1 repr_in))) as [Hpos|Hzero].
    + apply bind_Ok_inv in Hgt as (_ & _ & Hgt).
      apply bind_Ok_inv in Hgt as (conv & _ & Hgt). injection Hgt as <-.
      split; [done | done].
    + injection Hgt as <-. split; [done | intros [_ ?]; lia].
  - injection Hgt as <-. split; [done | by intros [? _]].
Qed.

End GatedConstruction.

Section InstanceGroups.
Import GatedActivation.
Context {F : Type} {SF : Scalar F} {so3 : SO3} {CV : Convolutions F}.

Lemma Rs_gn_of_snoc (l : list nat) (mul : nat) :
  Rs_gn_of (l ++ [mul]) = Rs_gn_of l ++ replicate mul (1, 2 * length l + 1).
Proof.
  unfold Rs_gn_of. rewrite imap_app, bind_app. cbn [imap].
  rewrite Nat.add_0_r. csimpl. by rewrite app_nil_r.
Qed.

Lemma group_channels_app (l1 l2 : list (nat * nat)) :
  group_channels (l1 ++ l2) = group_channels l1 + group_channels l2.
Proof. unfold group_channels. by rewrite fmap_app, sum_list_with_app. Qed.

Lemma group_channels_replicate (n m d : nat) :
  group_channels (replicate n (m, d)) = n * (m * d).
Proof.
  induction n as [|n IH]; [done|].
  change (replicate (S n) (m, d)) with ([(m, d)] ++ replicate n (m, d)).
  rewrite group_channels_app, IH. unfold group_channels. simpl. lia.
Qed.

Lemma offset_x_snoc (l : list nat) (mul : nat) :
  offset_x (l ++ [mul]) (length (l ++ [mul]))
  = offset_x l (length l) + mul * (2 * length l + 1).
Proof.
  rewrite length_app. cbn [length]. rewrite Nat.add_1_r.
  unfold offset_x. rewrite sum_below_S.
  rewrite (sum_below_ext _ (fun m => (l !!! m) * (2 * m + 1))).
  - f_equal. f_equal.
    apply list_lookup_total_correct. by rewrite lookup_app_r, Nat.sub_diag.
  - intros m Hm. f_equal. apply list_lookup_total_correct.
    rewrite lookup_app_l by done. by apply list_lookup_lookup_total_lt.
Qed.

(** the capsules of the orders from 1 take three channels or more each *)
Lemma offset_x_non_scalar (l : list nat) :
  l !!! 0 + 3 * sum_list (drop 1 l) <= offset_x l (length l).
Proof.
  induction l as [|mul l IH] using rev_ind; [done|].
  rewrite offset_x_snoc. destruct l as [|m0 l].
  - cbn. lia.
  - change (drop 1 ((m0 :: l) ++ [mul])) with (l ++ [mul]).
    change (drop 1 (m0 :: l)) with l in IH.
    rewrite sum_list_with_app. cbn [sum_list_with length].
    change (((m0 :: l) ++ [mul]) !!! 0) with m0.
    change ((m0 :: l) !!! 0) with m0 in IH. cbn [length] in IH.
    change (id mul) with mul. nia.
Qed.

(** X8: the groups that the constructor hands to the convolution for
    the instance normalisation, [Rs_gn], are one group of multiplicity
    one per capsule of the input: as many groups as capsules, together
    of as many channels as the input of the representation list.  When
    gates are built, this is more than the [n_non_scalar] channels that
    the same convolution is asked to return. *)
Theorem Rs_gn_describes_input (repr_in : list nat) :
  length (Rs_gn_of repr_in) = sum_list repr_in /\
  Forall (fun md => fst md = 1) (Rs_gn_of repr_in) /\
  group_channels (Rs_gn_of repr_in) = offset_x repr_in (length repr_in) /\
  (0 < sum_list (drop 1 repr_in) ->
   sum_list (drop 1 repr_in) < group_channels (Rs_gn_of repr_in)).
Proof.
  assert (Hthree : length (Rs_gn_of repr_in) = sum_list repr_in /\
    Forall (fun md => fst md = 1) (Rs_gn_of repr_in) /\
    group_channels (Rs_gn_of repr_in) = offset_x repr_in (length repr_in)).
  { induction repr_in as [|mul l (IHlen & IHone & IHch)] using rev_ind; [done|].
    rewrite Rs_gn_of_snoc. split; [|split].
    - rewrite length_app, length_replicate, IHlen, sum_list_with_app. simpl. lia.
    - apply Forall_app. split; [done|]. by apply Forall_replicate.
    - rewrite group_channels_app, group_channels_replicate, IHch, offset_x_snoc.
      lia. }
  destruct Hthree as (Hlen & Hone & Hch). repeat split; try done.
  intros Hpos. rewrite Hch. pose proof (offset_x_non_scalar repr_in). lia.
Qed.

End InstanceGroups.

Section GatedIdentity.
Import GatedActivation.
Context {F : Type} {SF : Scalar F} {so3 : SO3} {CV : Convolutions F}.

(** a channel of the representation list is an entry of a capsule *)
Lemma capsule_locate (l : list nat) (c : nat) :
  c < offset_x l (length l) ->
  exists n f r,
    n < length l /\ f < l !!! n /\ r < 2 * n + 1 /\
    c = offset_x l n + f * (2 * n + 1) + r.
Proof.
  intros Hc. apply sum_below_locate in Hc as (n & Hn & Hlo & Hhi).
  fold (offset_x l n) in Hlo, Hhi.
  exists n, ((c - offset_x l n) / (2 * n + 1)), ((c - offset_x l n) mod (2 * n + 1)).
  split; [done|]. split; [|split].
  - apply Nat.Div0.div_lt_upper_bound. lia.
  - apply Nat.mod_upper_bound. lia.
  - pose proof (Nat.div_mod_eq (c - offset_x l n) (2 * n + 1)). lia.
Qed.

(** X9: built without activation, the module is the identity on the
    inputs of its representation list: when some multiplicity is not
    zero and the input has the channels of the list, [forward] returns
    a tensor of the shape of the input with the entries of the input. *)
Theorem forward_without_activation (repr_in : list nat) (size : nat)
    (radial_window_dict : window) (activation : activation_arg)
    (normalization : normalization_arg) (batch_norm_momentum : F)
    (x : tensor F) (nb nx ny nz : nat) :
  scalar_activation_of activation = None ->
  gate_activation_of activation = None ->
  Exists (fun m => m <> 0) repr_in ->
  shape x = (nb, offset_x repr_in (length repr_in), nx, ny, nz) ->
  exists self out,
    init repr_in size radial_window_dict activation normalization
      batch_norm_momentum = Ok self /\
    forward self x = Ok out /\
    shape out = shape x /\
    forall b c i j k,
      b < nb -> c < offset_x repr_in (length repr_in) ->
      i < nx -> j < ny -> k < nz ->
      entry out b c i j k = entry x b c i j k.
Proof.
  intros Hsa Hga Hex Hx.
  exists (Build repr_in None None).
  assert (Hinit : init repr_in size radial_window_dict activation normalization
                    batch_norm_momentum = Ok (Build repr_in None None)).
  { destruct activation as [s g|a]; cbn in Hsa, Hga; by subst. }
  destruct (forward_loop (Build repr_in None None) x None nb nx ny nz Hx)
    as (bx & bg & zs & Hloop & Hacc); [done | done |].
  unfold accumulated in Hacc. cbn [GatedActivation.repr_in] in Hloop, Hacc.
  pose proof (offset_x_pos _ Hex) as Hpos.
  destruct Hacc as [[_ Hzero]|(_ & out & Hcat & Hshape & Hblocks)]; [lia|].
  exists out. split; [done|]. split.
  { unfold forward. cbn [gates bind GatedActivation.repr_in]. rewrite Hloop. done. }
  split; [by rewrite Hshape, Hx|].
  intros b c i j k Hb Hc Hi Hj Hk.
  apply capsule_locate in Hc as (n & f & r & Hn & Hf & Hr & ->).
  specialize (Hblocks n Hn ltac:(lia)).
  unfold block_spec in Hblocks. rewrite Hx in Hblocks.
  cbn [GatedActivation.repr_in] in Hblocks.
  destruct n as [|n].
  - rewrite Hblocks.
    + unfold scalar_block. cbn [scalar_act GatedActivation.repr_in].
      unfold channel_slice. rewrite Hx. done.
    + unfold offset_x, sum_below. simpl. lia.
  - by apply Hblocks.
Qed.

End GatedIdentity.

Section GatedGrid.
Import GatedActivation.
Context {F : Type} {SF : Scalar F} {so3 : SO3} {CV : Convolutions F}.
Variables (self : t (F:=F)) (x g : tensor F).
Variables (nb nc nx ny nz nb' ng gx gy gz : nat).
Hypothesis Hx : shape x = (nb, nc, nx, ny, nz).
Hypothesis Hg : shape g = (nb', ng, gx, gy, gz).
Hypothesis Hgrid : nb' * gx * gy * gz <> nb * nx * ny * nz.

(** the first capsules of an order from 1 cannot be multiplied by gates
    of another grid: a view fails *)
Lemma block_rejects_grid (n mul begin_x : nat) (zs : list (tensor F)) :
  n <> 0 -> mul <> 0 -> mul <= ng ->
  block self x (Some g) n mul (begin_x, 0, zs) = Err RuntimeError.
Proof.
  intros Hn Hmul Hle. unfold block. rewrite Hx.
  destruct (Nat.eqb_spec mul 0) as [|_]; [done|].
  destruct (Nat.eqb_spec n 0) as [|_]; [done|].
  destruct (view6 _ _) as [x6|e] eqn:Hview; cbn [bind].
  2:{ unfold view6 in Hview. by destruct (_ =? _); [|injection Hview as <-]. }
  unfold view6 at 1. unfold channel_slice at 1. rewrite Hg.
  cbn [shape numel numel6]. unfold slice_len. cbn [fst snd Nat.add].
  destruct (Nat.eqb_spec ((nb' * (mul `min` ng - 0 `min` ng) * gx * gy * gz))
              (nb * mul * 1 * nx * ny * nz)) as [Heq|]; [|done].
  exfalso. apply Hgrid.
  replace (mul `min` ng - 0 `min` ng) with mul in Heq by lia.
  apply (Nat.mul_cancel_l _ _ mul); lia.
Qed.

Lemma loop_rejects_grid (l : list nat) (n begin_x : nat) (zs : list (tensor F)) :
  n <> 0 -> 0 < sum_list l <= ng ->
  for_enumerate n l (begin_x, 0, zs) (block self x (Some g)) = Err RuntimeError.
Proof.
  revert n begin_x zs. induction l as [|mul l IH]; intros n begin_x zs Hn Hsum.
  - cbn in Hsum. lia.
  - cbn [for_enumerate]. cbn [sum_list_with] in Hsum. change (id mul) with mul in Hsum.
    destruct (Nat.eq_dec mul 0) as [->|Hmul].
    + unfold block at 1. rewrite Hx. cbn [Nat.eqb bind].
      apply IH; lia.
    + rewrite block_rejects_grid by (done || lia). done.
Qed.

End GatedGrid.

Section GatedGridTheorem.
Import GatedActivation.
Context {F : Type} {SF : Scalar F} {so3 : SO3} {CV : Convolutions F}.

(** X10: [forward] requires gates on the grid of the input.  When the
    gates of an object with a non-scalar capsule return, for the input
    [x], a tensor with enough channels whose batch and grid do not have
    as many entries as those of [x], [forward] raises the error of a
    failed [view], at the first non-scalar capsules: the gates are
    never applied to a field of another grid. *)
Theorem forward_rejects_gates_of_other_grid (self : t (F:=F)) (x g : tensor F)
    (gt : tensor F -> res (tensor F))
    (nb nc nx ny nz nb' ng gx gy gz : nat) :
  gates self = Some gt -> gt x = Ok g ->
  shape x = (nb, nc, nx, ny, nz) -> shape g = (nb', ng, gx, gy, gz) ->
  0 < sum_list (drop 1 (repr_in self)) <= ng ->
  nb' * gx * gy * gz <> nb * nx * ny * nz ->
  forward self x = Err RuntimeError.
Proof.
  intros Hgates Hgt Hx Hg Hsum Hgrid. unfold forward.
  rewrite Hgates, Hgt. cbn [bind].
  destruct (repr_in self) as [|m0 rest]; [cbn in Hsum; lia|].
  change (drop 1 (m0 :: rest)) with rest in Hsum.
  cbn [for_enumerate].
  assert (Hfirst : exists bx zs,
    block self x (Some g) 0 m0 (0, 0, []) = Ok (bx, 0, zs)).
  { unfold block. rewrite Hx. destruct (m0 =? 0); [by eexists _, _|].
    cbn [Nat.eqb]. by eexists _, _. }
  destruct Hfirst as (bx & zs & ->). cbn [bind Nat.add].
  by rewrite (loop_rejects_grid self x g nb nc nx ny nz nb' ng gx gy gz Hx Hg Hgrid).
Qed.

End GatedGridTheorem.

Section GatedSurplus.
Import GatedActivation.
Context {F : Type} {SF : Scalar F} {so3 : SO3} {CV : Convolutions F}.

(** X15: [forward] does not check the number of channels of its input.
    On an input with the channels of the representation list and more
    (when the gates, if any, accept it), the channels beyond those of
    the list are ignored: the output has exactly the channels of the
    list and each of its blocks is the processed block of the same
    order of the input. *)
Theorem forward_ignores_surplus_channels (self : t (F:=F)) (x : tensor F)
    (nb nc nx ny nz : nat) :
  Exists (fun m => m <> 0) (repr_in self) ->
  shape x = (nb, nc, nx, ny, nz) ->
  offset_x (repr_in self) (length (repr_in self)) <= nc ->
  (forall act u, scalar_act self = Some act -> shape (act u) = shape u) ->
  (forall gt, gates self = Some gt ->
     exists g0, gt x = Ok g0 /\
       shape g0 = (nb, offset_g (repr_in self) (length (repr_in self)), nx, ny, nz)) ->
  exists g out,
    match gates self with
    | Some gt => exists g0, gt x = Ok g0 /\ g = Some g0
    | None => g = None
    end /\
    forward self x = Ok out /\
    shape out = (nb, offset_x (repr_in self) (length (repr_in self)), nx, ny, nz) /\
    forall n, n < length (repr_in self) -> repr_in self !!! n <> 0 ->
      block_spec self x g out n.
Proof.
  intros Hex Hx Hnc Hact Hgates.
  assert (Hg : exists g,
    match gates self with
    | Some gt => g0 <- gt x ;; Ok (Some g0)
    | None => Ok None
    end = Ok g /\
    match gates self with
    | Some gt => exists g0, gt x = Ok g0 /\ g = Some g0
    | None => g = None
    end /\
    forall g0, g = Some g0 ->
      shape g0 = (nb, offset_g (repr_in self) (length (repr_in self)), nx, ny, nz)).
  { destruct (gates self) as [gt|].
    - destruct (Hgates gt eq_refl) as (g0 & Hgt & Hs). exists (Some g0).
      rewrite Hgt. split; [done|]. split; [by exists g0|]. by intros ? [= <-].
    - exists None. by repeat split. }
  destruct Hg as (g & Hrun & Hgspec & Hgshape).
  destruct (forward_loop_wide self x g nb nc nx ny nz Hx Hnc Hact Hgshape)
    as (bx & bg & zs & Hloop & Hacc).
  pose proof (offset_x_pos _ Hex) as Hpos.
  destruct Hacc as [[_ Hzero]|(_ & out & Hcat & Hshape & Hblocks)]; [lia|].
  exists g, out. split; [done|]. split.
  - unfold forward. rewrite Hrun. cbn [bind]. rewrite Hloop. done.
  - by split.
Qed.

End GatedSurplus.

(** ** The further properties of the gated activation on concrete inputs *)

Section GatedMoreExamples.
Import GatedActivation Examples.
#[local] Existing Instance SO3_orders.
#[local] Existing Instance convolutions.

(** X5 at an input: no representation at all and one activation for
    both uses. *)
Lemma init_index_error_iff_witness :
  init [] 3 tt (Single (Some Z.opp)) NormNone 0%Z = Err IndexError.
Proof.
  apply (proj2 (init_index_error_iff (so3:=SO3_orders) (CV:=convolutions)
                  [] 3 tt (Single (Some Z.opp)) NormNone 0%Z)).
  split; [reflexivity | discriminate].
Defined.


(** X7 at an input: scalars and capsules of order 2, both activations. *)
Lemma init_object_witness :
  exists self,
    init [2; 0; 1] 3 tt (Pair (Some Z.opp) (Some Z.opp)) NormBatch 0%Z = Ok self /\
    repr_in self = [2; 0; 1] /\ scalar_act self <> None /\ gates self <> None.
Proof.
  eexists. split; [reflexivity|].
  match goal with |- repr_in ?s = _ /\ _ =>
    destruct (init_object (so3:=SO3_orders) (CV:=convolutions) [2; 0; 1] 3 tt
                (Pair (Some Z.opp) (Some Z.opp)) NormBatch 0%Z s eq_refl)
      as (Hrepr & Hscalar & Hgates)
  end.
  split; [exact Hrepr|]. split.
  - apply Hscalar. split; [discriminate | cbn; lia].
  - apply Hgates. split; [discriminate | cbn; lia].
Defined.

(** X8 at an input: one scalar and two capsules of order 1 are three
    groups of seven channels, for two gates. *)
Lemma Rs_gn_describes_input_witness :
  length (Rs_gn_of [1; 2]) = 3 /\ 2 < group_channels (Rs_gn_of [1; 2]).
Proof.
  destruct (Rs_gn_describes_input [1; 2]) as (Hlen & _ & _ & Hmore).
  split; [exact Hlen|]. apply Hmore. cbn. lia.
Defined.

(** X9 at an input: a scalar and a capsule of order 1, the even size 2. *)
Lemma forward_without_activation_witness :
  exists self out,
    init [1; 1] 2 tt (Pair None None) NormNone 0%Z = Ok self /\
    forward self (features 4) = Ok out /\
    entry out 0 3 0 0 1 = 31%Z.
Proof.
  destruct (forward_without_activation (so3:=SO3_orders) (CV:=convolutions)
              [1; 1] 2 tt (Pair None None) NormNone 0%Z (features 4) 1 1 1 2
              eq_refl eq_refl)
    as (self & out & Hinit & Hfw & _ & Hentries).
  - apply Exists_cons_hd. discriminate.
  - reflexivity.
  - exists self, out. split; [exact Hinit|]. split; [exact Hfw|].
    rewrite Hentries; [reflexivity | lia | cbn; lia | lia | lia | lia].
Defined.

(** X10 at an input: gates computed without padding, on a grid of one
    voxel for an input of two. *)
Lemma forward_rejects_gates_of_other_grid_witness :
  forward
    (Build [1; 1] None
       (Some (fun x => Ok (Tensor (1, 1, 1, 1, 1) (fun _ _ _ _ _ => 1%Z)))))
    (features 4)
  = Err RuntimeError.
Proof.
  apply (forward_rejects_gates_of_other_grid
           (Build [1; 1] None
              (Some (fun x => Ok (Tensor (1, 1, 1, 1, 1) (fun _ _ _ _ _ => 1%Z)))))
           (features 4) (Tensor (1, 1, 1, 1, 1) (fun _ _ _ _ _ => 1%Z))
           (fun x => Ok (Tensor (1, 1, 1, 1, 1) (fun _ _ _ _ _ => 1%Z)))
           1 4 1 1 2 1 1 1 1 1).
  - reflexivity.
  - reflexivity.
  - reflexivity.
  - reflexivity.
  - cbn. lia.
  - lia.
Defined.

(** X15 at an input: six channels for a scalar and a capsule of order
    1; the output has the first four. *)
Lemma forward_ignores_surplus_channels_witness :
  exists out,
    forward (Build [1; 1] None None) (features 6) = Ok out /\
    shape out = (1, 4, 1, 1, 2) /\
    entry out 0 3 0 0 1 = 31%Z.
Proof.
  destruct (forward_ignores_surplus_channels (Build [1; 1] None None) (features 6)
              1 6 1 1 2) as (g & out & Hg & Hfw & Hshape & Hblocks).
  - apply Exists_cons_hd. discriminate.
  - reflexivity.
  - cbn. lia.
  - intros act u [=].
  - intros gt [=].
  - exists out. split; [exact Hfw|]. split; [exact Hshape|].
    cbn in Hg. subst g.
    exact (Hblocks 1 ltac:(simpl; lia) ltac:(discriminate)
             0 0 2 0 0 1 ltac:(lia) ltac:(simpl; lia) ltac:(lia)
             ltac:(lia) ltac:(lia) ltac:(lia)).
Defined.

End GatedMoreExamples.

(** ** The convolution module *)

Section ConvolutionProperties.
Import SE3KernelCombination.
Context {F : Type} {SF : Scalar F} {so3 : SO3} {BK : BasisKernels F}
        {AC : Activations F}.

(** an entry of multiplicity zero has no channel *)
Lemma channels_of_kept (Rs : list (nat * repr)) :
  channels_of (kept Rs) = channels_of Rs.
Proof.
  unfold channels_of, kept. induction Rs as [|[m R] Rs IH]; [done|].
  destruct (decide (1 <= m)) as [Hm|Hm].
  - rewrite filter_cons_True by done. cbn [fmap list_fmap sum_list_with].
    by rewrite IH.
  - rewrite filter_cons_False by done. cbn [fmap list_fmap sum_list_with fst snd].
    rewrite IH. replace m with 0 by lia. done.
Qed.

Lemma bias_relu_fields_channels (Rs : list (nat * repr)) :
  sum_list (fst <$> SE3Convolution.bias_relu_fields Rs) = channels_of Rs.
Proof.
  unfold SE3Convolution.bias_relu_fields, channels_of.
  by rewrite <- list_fmap_compose.
Qed.

Lemma norm_relu_fields_channels (Rs : list (nat * repr)) :
  sum_list (fst <$> SE3Convolution.norm_relu_fields Rs) = channels_of Rs /\
  length (SE3Convolution.norm_relu_fields Rs) = sum_list (fst <$> Rs).
Proof.
  unfold SE3Convolution.norm_relu_fields, channels_of.
  induction Rs as [|[m R] Rs [IH1 IH2]]; [done|]. csimpl.
  rewrite fmap_app, sum_list_with_app, length_app, IH1, IH2, length_replicate.
  split; [|done]. f_equal.
  rewrite fmap_replicate. cbn [fst]. clear.
  induction m as [|m IH]; [done|]. cbn [replicate sum_list_with]. rewrite IH.
  unfold id. lia.
Qed.

(** the module that [__init__] builds *)
Lemma conv_init_inv (size : nat) (Rs_out Rs_in : list (nat * repr))
    (bias_relu norm_relu scalar_batch_norm : bool) (M : nat) (central_base : bool)
    (mem normal : nat -> F) (self : SE3Convolution.t (F:=F)) :
  SE3Convolution.init size Rs_out Rs_in bias_relu norm_relu scalar_batch_norm M
    central_base mem normal = Ok self ->
  init size Rs_out Rs_in M central_base = Ok (SE3Convolution.combination self) /\
  SE3Convolution.weight self
  = normal <$> seq 0 (nweights (SE3Convolution.combination self)) /\
  SE3Convolution.bias_relu self
  = (if bias_relu
     then Some (BiasRelu (SE3Convolution.bias_relu_fields Rs_out) scalar_batch_norm)
     else None) /\
  SE3Convolution.norm_relu self
  = (if norm_relu then Some (NormRelu (SE3Convolution.norm_relu_fields Rs_out))
     else None).
Proof.
  unfold SE3Convolution.init. intros Hinit.
  apply bind_Ok_inv in Hinit as (combination & Hc & Hinit). injection Hinit as <-.
  unfold SE3Convolution.reset_parameters.
  cbn [SE3Convolution.combination SE3Convolution.weight SE3Convolution.bias_relu
       SE3Convolution.norm_relu].
  split; [done|]. split; [|done].
  unfold FloatVector. by rewrite length_fmap, length_seq.
Qed.

(** the kernel of a module *)
Lemma conv_kernel (size : nat) (Rs_out Rs_in : list (nat * repr))
    (bias_relu norm_relu scalar_batch_norm : bool) (M : nat) (central_base : bool)
    (mem normal : nat -> F) (self : SE3Convolution.t (F:=F)) (mem_k : accessor F) :
  SE3Convolution.init size Rs_out Rs_in bias_relu norm_relu scalar_batch_norm M
    central_base mem normal = Ok self ->
  exists kernel,
    forward (SE3Convolution.combination self) mem_k (SE3Convolution.weight self)
    = Ok kernel /\
    shape kernel = (channels_of Rs_out, channels_of Rs_in, size, size, size).
Proof.
  intros Hinit. apply conv_init_inv in Hinit as (Hc & Hw & _).
  apply init_inv in Hc as (Hwf & Hsize & _ & _ & _ & _ & _ & Hout & Hin).
  destruct (forward_ok _ Hwf mem_k (SE3Convolution.weight self))
    as (kernel & Hfw & Hshape).
  { by rewrite Hw, length_fmap, length_seq. }
  exists kernel. split; [done|].
  by rewrite Hshape, Hout, Hin, Hsize, !channels_of_kept.
Qed.

Lemma conv_init_ok (size : nat) (Rs_out Rs_in : list (nat * repr))
    (bias_relu norm_relu scalar_batch_norm : bool) (M : nat) (central_base : bool)
    (mem normal : nat -> F) :
  exists self,
    SE3Convolution.init size Rs_out Rs_in bias_relu norm_relu scalar_batch_norm M
      central_base mem normal = Ok self.
Proof.
  destruct (init_eq size Rs_out Rs_in M central_base) as (n & Hc & _).
  unfold SE3Convolution.init. rewrite Hc. cbn [bind]. by eexists.
Qed.

(** X11: [SE3Convolution.__init__] always returns a module; the weight
    it draws has the length that the kernel combination expects, so
    that the combination of the module never fails and its kernel has
    the shape [(n_out, n_in, size, size, size)], with [n_out] and
    [n_in] the sums of [m * dim R] over the lists as given (an entry of
    multiplicity zero counts for nothing).  The fields described to
    [BiasRelu] and the capsules described to [NormRelu] have together
    [n_out] channels as well, the capsules being as many as the
    multiplicities say. *)
Theorem conv_init_consistent (size : nat) (Rs_out Rs_in : list (nat * repr))
    (bias_relu norm_relu scalar_batch_norm : bool) (M : nat) (central_base : bool)
    (mem normal : nat -> F) :
  exists self,
    SE3Convolution.init size Rs_out Rs_in bias_relu norm_relu scalar_batch_norm M
      central_base mem normal = Ok self /\
    length (SE3Convolution.weight self) = nweights (SE3Convolution.combination self) /\
    (forall t, t < nweights (SE3Convolution.combination self) ->
       SE3Convolution.weight self !! t = Some (normal t)) /\
    sum_list (fst <$> SE3Convolution.bias_relu_fields Rs_out) = channels_of Rs_out /\
    sum_list (fst <$> SE3Convolution.norm_relu_fields Rs_out) = channels_of Rs_out /\
    length (SE3Convolution.norm_relu_fields Rs_out) = sum_list (fst <$> Rs_out) /\
    forall mem_k, exists kernel,
      forward (SE3Convolution.combination self) mem_k (SE3Convolution.weight self)
      = Ok kernel /\
      shape kernel = (channels_of Rs_out, channels_of Rs_in, size, size, size).
Proof.
  destruct (conv_init_ok size Rs_out Rs_in bias_relu norm_relu scalar_batch_norm M
              central_base mem normal) as [self Hinit].
  exists self. split; [done|].
  pose proof (conv_init_inv _ _ _ _ _ _ _ _ _ _ _ Hinit) as (_ & Hw & _).
  split; [by rewrite Hw, length_fmap, length_seq|]. split.
  { intros t Ht. rewrite Hw, list_lookup_fmap, lookup_seq_lt by done. done. }
  split; [apply bias_relu_fields_channels|].
  split; [apply norm_relu_fields_channels|].
  split; [apply norm_relu_fields_channels|].
  intros mem_k. by eapply conv_kernel.
Qed.

End ConvolutionProperties.

Section ConvolutionForward.
Import SE3KernelCombination.
Context {F : Type} {SF : Scalar F} {so3 : SO3} {BK : BasisKernels F}
        {AC : Activations F}.

(** [conv3d] by the shapes *)
Lemma conv3d_shape (input kernel : tensor F)
    (nb nc nx ny nz n_out n_in k : nat) :
  shape input = (nb, nc, nx, ny, nz) -> shape kernel = (n_out, n_in, k, k, k) ->
  (nc = n_in /\ k <= nx /\ k <= ny /\ k <= nz ->
   exists out,
     conv3d input kernel = Ok out /\
     shape out = (nb, n_out, nx - k + 1, ny - k + 1, nz - k + 1)) /\
  (~ (nc = n_in /\ k <= nx /\ k <= ny /\ k <= nz) ->
   conv3d input kernel = Err RuntimeError).
Proof.
  intros Hi Hk. unfold conv3d. rewrite Hi, Hk.
  destruct (Nat.eqb_spec nc n_in), (Nat.leb_spec k nx), (Nat.leb_spec k ny),
    (Nat.leb_spec k nz); cbn [andb];
    (split; [intros ?; try lia; by eexists | intros ?; try done; lia]).
Qed.

(** [forward] of a module without activation, by the shapes *)
Lemma conv_forward_shape (size : nat) (Rs_out Rs_in : list (nat * repr))
    (scalar_batch_norm : bool) (M : nat) (central_base : bool)
    (mem normal : nat -> F) (self : SE3Convolution.t (F:=F))
    (mem_k : accessor F) (input : tensor F) (nb nc nx ny nz : nat) :
  SE3Convolution.init size Rs_out Rs_in false false scalar_batch_norm M
    central_base mem normal = Ok self ->
  shape input = (nb, nc, nx, ny, nz) ->
  (nc = channels_of Rs_in /\ size <= nx /\ size <= ny /\ size <= nz ->
   exists out,
     SE3Convolution.forward self mem_k input = Ok out /\
     shape out
     = (nb, channels_of Rs_out, nx - size + 1, ny - size + 1, nz - size + 1)) /\
  (~ (nc = channels_of Rs_in /\ size <= nx /\ size <= ny /\ size <= nz) ->
   SE3Convolution.forward self mem_k input = Err RuntimeError).
Proof.
  intros Hinit Hi.
  destruct (conv_kernel _ _ _ _ _ _ _ _ _ _ _ mem_k Hinit) as (kernel & Hk & Hs).
  apply conv_init_inv in Hinit as (_ & _ & Hb & Hn).
  unfold SE3Convolution.forward. rewrite Hk, Hb, Hn. cbn [bind].
  destruct (conv3d_shape input kernel _ _ _ _ _ _ _ _ Hi Hs) as [Hgood Hbad].
  split.
  - intros Hfit. destruct (Hgood Hfit) as (out & -> & Hout). by exists out.
  - intros Hfit. by rewrite (Hbad Hfit).
Qed.

(** X12: a module built without [bias_relu] and [norm_relu] returns,
    for an input of [n_in] channels on a grid where the kernel fits,
    the tensor of [n_out] channels on the grid of the positions of the
    kernel ([x - size + 1] along each axis: there is no padding); for
    an input of another number of channels, or a grid smaller than the
    kernel, [forward] raises the error of [conv3d].  The kernel
    combination itself cannot fail.  (Stated for tensors that are not
    empty.) *)
Theorem conv_forward_plain (size : nat) (Rs_out Rs_in : list (nat * repr))
    (scalar_batch_norm : bool) (M : nat) (central_base : bool)
    (mem normal : nat -> F) (self : SE3Convolution.t (F:=F))
    (mem_k : accessor F) (input : tensor F) (nb nc nx ny nz : nat) :
  SE3Convolution.init size Rs_out Rs_in false false scalar_batch_norm M
    central_base mem normal = Ok self ->
  shape input = (nb, nc, nx, ny, nz) ->
  0 < nb -> 0 < size -> 0 < channels_of Rs_out -> 0 < channels_of Rs_in ->
  (nc = channels_of Rs_in /\ size <= nx /\ size <= ny /\ size <= nz ->
   exists out,
     SE3Convolution.forward self mem_k input = Ok out /\
     shape out
     = (nb, channels_of Rs_out, nx - size + 1, ny - size + 1, nz - size + 1)) /\
  (~ (nc = channels_of Rs_in /\ size <= nx /\ size <= ny /\ size <= nz) ->
   SE3Convolution.forward self mem_k input = Err RuntimeError).
Proof.
  intros Hinit Hi _ _ _ _. by eapply conv_forward_shape.
Qed.

(** X13: [test_normalization] cannot fail at its assertion.  For a
    batch that is not empty and representation lists with channels,
    it returns the output of the convolution, of [n_out] channels on a
    grid of side [size - 3], when [size] is at least the side 4 of the
    kernel that the test builds; for a smaller [size] it raises the
    error of [conv3d]. *)
Theorem test_normalization_outcome (batch size : nat)
    (Rs_out Rs_in : option (list (nat * repr)))
    (mem_w normal : nat -> F) (mem_k randn : accessor F) :
  0 < batch ->
  0 < channels_of (default [(1, repr1); (1, repr3)] Rs_out) ->
  0 < channels_of (default [(1, repr1); (1, repr3)] Rs_in) ->
  (4 <= size ->
   exists y,
     test_normalization batch size Rs_out Rs_in mem_w normal mem_k randn = Ok y /\
     shape y
     = (batch, channels_of (default [(1, repr1); (1, repr3)] Rs_out),
        size - 3, size - 3, size - 3)) /\
  (size < 4 ->
   test_normalization batch size Rs_out Rs_in mem_w normal mem_k randn
   = Err RuntimeError).
Proof.
  intros Hbatch Hout Hin. unfold test_normalization.
  set (Ro := default [(1, repr1); (1, repr3)] Rs_out) in *.
  set (Ri := default [(1, repr1); (1, repr3)] Rs_in) in *.
  fold (channels_of Ro). fold (channels_of Ri).
  destruct (conv_init_ok 4 Ro Ri false false false 15 true mem_w normal)
    as (conv & Hinit).
  rewrite Hinit. cbn [bind].
  destruct (conv_forward_shape 4 Ro Ri false 15 true mem_w normal conv mem_k
              (Tensor (batch, channels_of Ri, size, size, size) randn)
              batch (channels_of Ri) size size size Hinit eq_refl)
    as [Hgood Hbad].
  split.
  - intros Hsize. destruct Hgood as (y & -> & Hy); [lia|].
    cbn [bind]. rewrite Hy. cbn [fst snd]. rewrite Nat.eqb_refl. cbn [assert bind].
    exists y. split; [done|]. rewrite Hy. repeat f_equal; lia.
  - intros Hsize. rewrite Hbad; [done | lia].
Qed.

End ConvolutionForward.

Section ConvolutionStorage.
Import SE3KernelCombination.
Context {F : Type} {SF : Scalar F} {so3 : SO3} {BK : BasisKernels F}
        {AC : Activations F}.

Lemma bind_ext_in {A B} (f g : A -> list B) (l : list A) :
  (forall a, a ∈ l -> f a = g a) -> l ≫= f = l ≫= g.
Proof.
  induction l as [|a l IH]; intros Hfg; [done|]. csimpl.
  rewrite (Hfg a) by left. rewrite IH; [done|].
  intros a' Ha'. apply Hfg. by right.
Qed.

(** [conv3d] reads the kernel inside its shape only *)
Lemma conv3d_kernel_ext (input kernel kernel' : tensor F)
    (n_out n_in kx ky kz : nat) :
  shape kernel = (n_out, n_in, kx, ky, kz) -> shape kernel' = shape kernel ->
  (forall o c x y z, o < n_out -> c < n_in ->
     entry kernel o c x y z = entry kernel' o c x y z) ->
  match conv3d input kernel, conv3d input kernel' with
  | Ok out, Ok out' =>
      shape out = shape out' /\
      forall b o x y z, o < n_out -> entry out b o x y z = entry out' b o x y z
  | Err e, Err e' => e = e'
  | _, _ => False
  end.
Proof.
  intros Hk Hk' Hentries. unfold conv3d. rewrite Hk', Hk.
  destruct (shape input) as [[[[nb nc] nx] ny] nz].
  destruct ((nc =? n_in) && (kx <=? nx) && (ky <=? ny) && (kz <=? nz)); [|done].
  split; [done|]. intros b o x y z Ho. cbn [entry]. f_equal.
  apply bind_ext_in. intros c Hc. apply elem_of_seq in Hc.
  apply bind_ext_in. intros dx _. apply bind_ext_in. intros dy _.
  apply bind_ext_in. intros dz _. by rewrite Hentries by lia.
Qed.

(** X16: the output of a module built without [bias_relu] and
    [norm_relu] does not depend on the fresh storage of its kernel when
    every pair of blocks of its combination has a basis element: from
    any two contents of the storage [forward] fails alike or returns
    outputs of one shape with the same entries. *)
Theorem conv_forward_ignores_storage (size : nat) (Rs_out Rs_in : list (nat * repr))
    (scalar_batch_norm : bool) (M : nat) (central_base : bool)
    (mem normal : nat -> F) (self : SE3Convolution.t (F:=F))
    (mem_k mem_k' : accessor F) (input : tensor F) :
  SE3Convolution.init size Rs_out Rs_in false false scalar_batch_norm M
    central_base mem normal = Ok self ->
  (forall i j,
     i < length (multiplicites_out (SE3Convolution.combination self)) ->
     j < length (multiplicites_in (SE3Convolution.combination self)) ->
     0 < basis_count (SE3Convolution.combination self) i j) ->
  match SE3Convolution.forward self mem_k input,
        SE3Convolution.forward self mem_k' input with
  | Ok out, Ok out' =>
      shape out = shape out' /\
      forall b o x y z,
        o < channels_of Rs_out -> entry out b o x y z = entry out' b o x y z
  | Err e, Err e' => e = e'
  | _, _ => False
  end.
Proof.
  intros Hinit Hsome.
  apply conv_init_inv in Hinit as (Hc & Hw & Hb & Hn).
  apply init_inv in Hc as (Hwf & Hsize & _ & _ & _ & _ & _ & Hout & Hin).
  destruct (forward_storage_agree (SE3Convolution.combination self) mem_k mem_k'
              (SE3Convolution.weight self) Hwf Hsome)
    as (kernel & kernel' & Hfw & Hfw' & Hsame & Hshape & Hentries).
  { by rewrite Hw, length_fmap, length_seq. }
  unfold SE3Convolution.forward. rewrite Hfw, Hfw', Hb, Hn. cbn [bind].
  pose proof (conv3d_kernel_ext input kernel kernel' _ _ _ _ _ Hshape
                (eq_sym Hsame)) as Hconv.
  rewrite Hout, channels_of_kept in Hconv.
  destruct (conv3d input kernel) as [out|e], (conv3d input kernel') as [out'|e'];
    cbn [bind]; apply Hconv; intros o c x y z Ho Hc; apply Hentries; try done.
  all: by rewrite Hout, channels_of_kept.
Qed.

End ConvolutionStorage.

(** ** The convolution module on concrete inputs *)

Section ConvolutionExamples.
Import SE3KernelCombination Examples.
#[local] Existing Instance SO3_orders.
#[local] Existing Instance basis_kernels.
#[local] Existing Instance activations.

(** X11 at an input: three weights, drawn as [5], [6] and [7], for a
    kernel of three output channels. *)
Lemma conv_init_consistent_witness :
  exists self kernel,
    SE3Convolution.init 2 [(1, 1); (0, 2)] [(1, 0)] true true false 15 true
      (fun _ => 0%Z) (fun t => Z.of_nat (t + 5)) = Ok self /\
    SE3Convolution.weight self = [5; 6; 7]%Z /\
    forward (SE3Convolution.combination self) (filled 0) (SE3Convolution.weight self)
    = Ok kernel /\
    shape kernel = (3, 1, 2, 2, 2).
Proof.
  destruct (conv_init_consistent (so3:=SO3_orders) (AC:=activations)
              2 [(1, 1); (0, 2)] [(1, 0)] true true false 15 true
              (fun _ => 0%Z) (fun t => Z.of_nat (t + 5)))
    as (self & Hinit & _ & _ & _ & _ & _ & Hkernel).
  destruct (Hkernel (filled 0)) as (kernel & Hfw & Hshape).
  init_fact Hinit self (SE3Convolution.weight self) Hw.
  exists self, kernel. split; [exact Hinit|]. split; [exact Hw|].
  split; [exact Hfw | exact Hshape].
Defined.

(** X12 at an input: a kernel of side 2 on a grid of side 3, and the
    same module on an input of two channels. *)
Lemma conv_forward_plain_witness :
  exists self out,
    SE3Convolution.init 2 [(1, 1)] [(1, 0)] false false false 15 true
      (fun _ => 0%Z) (fun t => Z.of_nat (t + 5)) = Ok self /\
    SE3Convolution.forward self (filled 0) (Tensor (1, 1, 3, 3, 3) (filled 1)) = Ok out /\
    shape out = (1, 3, 2, 2, 2) /\
    SE3Convolution.forward self (filled 0) (Tensor (1, 2, 3, 3, 3) (filled 1))
    = Err RuntimeError.
Proof.
  destruct (conv_init_ok (so3:=SO3_orders) (AC:=activations)
              2 [(1, 1)] [(1, 0)] false false false 15 true
              (fun _ => 0%Z) (fun t => Z.of_nat (t + 5))) as [self Hinit].
  destruct (conv_forward_plain (so3:=SO3_orders) (AC:=activations)
              2 [(1, 1)] [(1, 0)] false 15 true
              (fun _ => 0%Z) (fun t => Z.of_nat (t + 5)) self (filled 0)
              (Tensor (1, 1, 3, 3, 3) (filled 1)) 1 1 3 3 3 Hinit eq_refl)
    as [Hgood _]; [lia | lia | cbn; lia | cbn; lia |].
  destruct (conv_forward_plain (so3:=SO3_orders) (AC:=activations)
              2 [(1, 1)] [(1, 0)] false 15 true
              (fun _ => 0%Z) (fun t => Z.of_nat (t + 5)) self (filled 0)
              (Tensor (1, 2, 3, 3, 3) (filled 1)) 1 2 3 3 3 Hinit eq_refl)
    as [_ Hbad]; [lia | lia | cbn; lia | cbn; lia |].
  destruct Hgood as (out & Hfw & Hshape); [cbn; lia|].
  exists self, out. split; [exact Hinit|]. split; [exact Hfw|].
  split; [exact Hshape|]. apply Hbad. cbn. lia.
Defined.

(** X13 at an input: the default representations on grids of side 4
    and of side 3. *)
Lemma test_normalization_outcome_witness :
  (exists y,
     test_normalization 1 4 None None (fun _ => 0%Z) (fun t => Z.of_nat t)
       (filled 0) (filled 1) = Ok y /\
     shape y = (1, 4, 1, 1, 1)) /\
  test_normalization 1 3 None None (fun _ => 0%Z) (fun t => Z.of_nat t)
    (filled 0) (filled 1) = Err RuntimeError.
Proof.
  split.
  - destruct (test_normalization_outcome (so3:=SO3_orders) (AC:=activations)
                1 4 None None (fun _ => 0%Z) (fun t => Z.of_nat t)
                (filled 0) (filled 1)) as [Hgood _]; [lia | cbn; lia | cbn; lia |].
    destruct Hgood as (y & Hy & Hshape); [lia|].
    exists y. split; [exact Hy | exact Hshape].
  - destruct (test_normalization_outcome (so3:=SO3_orders) (AC:=activations)
                1 3 None None (fun _ => 0%Z) (fun t => Z.of_nat t)
                (filled 0) (filled 1)) as [_ Hbad]; [lia | cbn; lia | cbn; lia |].
    apply Hbad. lia.
Defined.

(** X16 at an input: the kernel built on storage of zeros and on
    storage of nines. *)
Lemma conv_forward_ignores_storage_witness :
  exists self out out',
    SE3Convolution.init 2 [(1, 1)] [(1, 0)] false false false 15 true
      (fun _ => 0%Z) (fun t => Z.of_nat (t + 5)) = Ok self /\
    SE3Convolution.forward self (filled 0) (Tensor (1, 1, 3, 3, 3) (filled 1)) = Ok out /\
    SE3Convolution.forward self (filled 9) (Tensor (1, 1, 3, 3, 3) (filled 1)) = Ok out' /\
    entry out 0 2 1 1 1 = entry out' 0 2 1 1 1.
Proof.
  destruct (conv_init_ok (so3:=SO3_orders) (AC:=activations)
              2 [(1, 1)] [(1, 0)] false false false 15 true
              (fun _ => 0%Z) (fun t => Z.of_nat (t + 5))) as [self Hinit].
  init_fact Hinit self
    (length (multiplicites_out (SE3Convolution.combination self))) Hlo.
  init_fact Hinit self
    (length (multiplicites_in (SE3Convolution.combination self))) Hli.
  init_fact Hinit self (basis_count (SE3Convolution.combination self) 0 0) Hbc.
  destruct (conv_forward_shape (so3:=SO3_orders) (AC:=activations)
              2 [(1, 1)] [(1, 0)] false 15 true
              (fun _ => 0%Z) (fun t => Z.of_nat (t + 5)) self (filled 0)
              (Tensor (1, 1, 3, 3, 3) (filled 1)) 1 1 3 3 3 Hinit eq_refl)
    as [Hgood _].
  destruct Hgood as (out & Hout & _); [cbn; lia|].
  destruct (conv_forward_shape (so3:=SO3_orders) (AC:=activations)
              2 [(1, 1)] [(1, 0)] false 15 true
              (fun _ => 0%Z) (fun t => Z.of_nat (t + 5)) self (filled 9)
              (Tensor (1, 1, 3, 3, 3) (filled 1)) 1 1 3 3 3 Hinit eq_refl)
    as [Hgood' _].
  destruct Hgood' as (out' & Hout' & _); [cbn; lia|].
  pose proof (conv_forward_ignores_storage (so3:=SO3_orders) (AC:=activations)
                2 [(1, 1)] [(1, 0)] false 15 true
                (fun _ => 0%Z) (fun t => Z.of_nat (t + 5)) self (filled 0) (filled 9)
                (Tensor (1, 1, 3, 3, 3) (filled 1)) Hinit) as Hsame.
  rewrite Hout, Hout' in Hsame.
  exists self, out, out'.
  split; [exact Hinit|]. split; [exact Hout|]. split; [exact Hout'|].
  apply Hsame.
  - intros i j Hi Hj. rewrite Hlo in Hi. rewrite Hli in Hj.
    replace i with 0 by lia. replace j with 0 by lia. rewrite Hbc. lia.
  - cbv. lia.
Defined.

End ConvolutionExamples.
